(** * Synapse home server start-up: resource tree and database bootstrap

    A shallow embedding of [synapse/app/homeserver.py]:
    - [create_resource_tree] and [_resource_id] (the Twisted resource tree
      built from the list [desired_tree]),
    - [build_db_pool] (the schema check on the sqlite store),
    - [setup] (the order in which start-up calls are made).

    Twisted resources are mutable objects that are shared between the tree
    and the dictionary [resource_mappings]; they are modelled as locations
    in a heap of child dictionaries. *)

From Stdlib Require Import ZArith.
From Stdlib Require Import Ascii.
From stdpp Require Import gmap strings list fin_maps pretty.

Local Open Scope string_scope.
Local Open Scope list_scope.

(** ** Errors

    The Python code either returns or raises; a raised exception is the
    [Raise] outcome and carries what was raised. *)

Inductive exn : Type :=
  | KeyError (key : string)
  | ValueError (user_version expected : Z)
  | OperationalError (script : string).

Inductive result (A : Type) : Type :=
  | Ok (a : A)
  | Raise (e : exn).
Arguments Ok {A} a.
Arguments Raise {A} e.

(** The error monad, with stdpp's [x ← r; k] notation. *)
#[export] Instance result_ret : MRet result := fun A a => Ok a.
#[export] Instance result_bind : MBind result := fun A B k r =>
  match r with
  | Ok a => k a
  | Raise e => Raise e
  end.

Definition is_ok {A : Type} (r : result A) : bool :=
  match r with Ok _ => true | Raise _ => false end.

(** ** [str.split('/')] *)

(** Python's [s.split(sep)] for a one-character separator: the pieces
    between the separators, empty pieces included; never the empty list. *)
Fixpoint split (sep : ascii) (s : string) : list string :=
  match s with
  | EmptyString => [EmptyString]
  | String c s' =>
      if decide (c = sep) then EmptyString :: split sep s'
      else match split sep s' with
           | piece :: rest => String c piece :: rest
           | [] => [String c EmptyString]
           end
  end.

Definition slash : ascii := "/"%char.

(** [full_path.split('/')[1:-1]]: the slice drops the first and the last
    piece; it is empty when there are fewer than three pieces. *)
Definition interior_segs (full_path : string) : list string :=
  removelast (tail (split slash full_path)).

(** [full_path.split('/')[-1]] *)
Definition last_path_seg (full_path : string) : string :=
  List.last (split slash full_path) EmptyString.

(** The segments by which a request for [full_path] is looked up, one
    child per segment: [full_path.split('/')[1:]]. *)
Definition path_segs (full_path : string) : list string :=
  tail (split slash full_path).

(** ** Twisted resources

    A [Resource] object is a location in the heap; the heap holds, for
    every object, its [children] dictionary (child name to child object).
    Objects are created at the end of the heap, so two live objects never
    share a location. *)

Abbreviation loc := nat (only parsing).
Abbreviation heap := (list (gmap string loc)) (only parsing).
Abbreviation mappings := (gmap string loc) (only parsing).

(** [Resource()]: a new object without children. *)
Definition Resource (h : heap) : loc * heap := (List.length h, h ++ [∅]).

(** [resource.putChild(name, child)]: [self.children[name] = child]. *)
Definition putChild (h : heap) (resource : loc) (name : string) (child : loc)
    : heap :=
  alter (insert name child) resource h.

(** [resource.listNames()]: the keys of [children], in the order the
    dictionary happens to give them. *)
Definition listNames (h : heap) (resource : loc) : list string :=
  match h !! resource with
  | Some children => (map_to_list children).*1
  | None => []
  end.

(** [resource.getStaticEntity(name)], that is [self.children.get(name)]:
    the lookup of one path segment among the children put with
    [putChild]. *)
Definition getStaticEntity (h : heap) (resource : loc) (name : string)
    : option loc :=
  children ← h !! resource; children !! name.

(** Walking a list of segments down from [resource]. *)
Fixpoint resolve (h : heap) (resource : loc) (segs : list string)
    : option loc :=
  match segs with
  | [] => Some resource
  | seg :: segs' =>
      child ← getStaticEntity h resource seg; resolve h child segs'
  end.

(** A [for] loop whose body may raise. *)
Fixpoint for_each {S A : Type} (body : S → A → result S) (xs : list A)
    (s : S) : result S :=
  match xs with
  | [] => Ok s
  | x :: xs' => s' ← body s x; for_each body xs' s'
  end.

(** ** [create_resource_tree] *)

Section ResourceTree.

(** What ["%s" % resource] prints for the object at a location. *)
Variable obj_str : loc → string.

(** ["%s-%s" % (resource, path_seg)] *)
Definition _resource_id (resource : loc) (path_seg : string) : string :=
  obj_str resource +:+ "-" +:+ path_seg.

(** One turn of the loop over [full_path.split('/')[1:-1]]; the state
    is the heap, [resource_mappings] and [last_resource]. *)
Definition walk_seg (st : heap * mappings * loc) (path_seg : string)
    : result (heap * mappings * loc) :=
  let '(h, resource_mappings, last_resource) := st in
  if negb (bool_decide (path_seg ∈ listNames h last_resource)) then
    let '(child_resource, h) := Resource h in
    let h := putChild h last_resource path_seg child_resource in
    let res_id := _resource_id last_resource path_seg in
    Ok (h, <[res_id := child_resource]> resource_mappings, child_resource)
  else
    let res_id := _resource_id last_resource path_seg in
    match resource_mappings !! res_id with
    | Some child => Ok (h, resource_mappings, child)
    | None => Raise (KeyError res_id)
    end.

(** One turn of the loop that steals the children of the resource that
    is being replaced. *)
Definition steal_child (resource_mappings : mappings)
    (existing_dummy_resource resource : loc) (h : heap)
    (child_name : string) : result heap :=
  let child_res_id := _resource_id existing_dummy_resource child_name in
  match resource_mappings !! child_res_id with
  | Some child_resource =>
      Ok (putChild h resource child_name child_resource)
  | None => Raise (KeyError child_res_id)
  end.

(** The body of the loop over [desired_tree]. *)
Definition attach (root_resource : loc) (st : heap * mappings)
    (mount : string * loc) : result (heap * mappings) :=
  let '(h, resource_mappings) := st in
  let '(full_path, resource) := mount in
  '(h, resource_mappings, last_resource) ←
    for_each walk_seg (interior_segs full_path)
      (h, resource_mappings, root_resource);
  let last_path_seg := last_path_seg full_path in
  let res_id := _resource_id last_resource last_path_seg in
  h ← match resource_mappings !! res_id with
      | Some existing_dummy_resource =>
          for_each
            (steal_child resource_mappings existing_dummy_resource resource)
            (listNames h existing_dummy_resource) h
      | None => Ok h
      end;
  let h := putChild h last_resource last_path_seg resource in
  Ok (h, <[res_id := resource]> resource_mappings).

(** [create_resource_tree] from the point where [desired_tree] is known:
    the root resource is created, the mounts are attached in order and
    the root is returned. *)
Definition build_tree (desired_tree : list (string * loc)) (h : heap)
    : result (loc * heap) :=
  let '(root_resource, h) := Resource h in
  '(h, _) ← for_each (attach root_resource) desired_tree (h, ∅);
  Ok (root_resource, h).

End ResourceTree.

(** ** [build_db_pool] *)

Definition SCHEMAS : list string :=
  [ "transactions"; "pdu"; "users"; "profiles"; "presence"; "im";
    "room_aliases" ].

Definition SCHEMA_VERSION : Z := 1.

(** What is sent to sqlite through the connection and its cursor. *)
Inductive db_call : Type :=
  | PragmaUserVersion                 (* c.execute("PRAGMA user_version") *)
  | ExecuteScript (sql_script : string)     (* c.executescript(sql_script) *)
  | Commit                                         (* db_conn.commit() *)
  | SetUserVersion (v : Z)     (* c.execute("PRAGMA user_version = %d") *)
  | CursorClose.                                          (* c.close() *)

(** The store: the row that [fetchone] gives for [PRAGMA user_version]
    (no row at all, or a row with one integer), and the calls it has
    received so far, oldest first. *)
Record store : Type := mkStore {
  user_version_row : option Z;
  calls : list db_call;
}.

(** [adbapi.ConnectionPool(dbapiName, database, check_same_thread=...,
    cp_min=..., cp_max=...)] *)
Record ConnectionPool : Type := mkPool {
  dbapiName : string;
  database : string;
  check_same_thread : bool;
  cp_min : nat;
  cp_max : nat;
}.

Definition call (c : db_call) (s : store) : store :=
  {| user_version_row := user_version_row s; calls := calls s ++ [c] |}.

Definition set_user_version (v : Z) (s : store) : store :=
  {| user_version_row := Some v; calls := calls s ++ [SetUserVersion v] |}.

(** The scripts among a list of calls. *)
Definition scripts_of (cs : list db_call) : list string :=
  omap (fun c => match c with ExecuteScript q => Some q | _ => None end) cs.

(** The version stamps among a list of calls. *)
Definition stamps_of (cs : list db_call) : list Z :=
  omap (fun c => match c with SetUserVersion v => Some v | _ => None end) cs.

(** The calls that a run has added to those of the store [s]. *)
Definition new_calls (s s' : store) : list db_call :=
  drop (List.length (calls s)) (calls s').

(** The pool that [build_db_pool] makes. *)
Definition the_pool (db_name : string) : ConnectionPool :=
  {| dbapiName := "sqlite3"; database := db_name;
     check_same_thread := false; cp_min := 1; cp_max := 1 |}.

(** Python truth of [row and row[0]]. *)
Definition row_and_row0 (row : option Z) : bool :=
  match row with
  | Some v => negb (v =? 0)%Z
  | None => false
  end.

Section Bootstrap.

(** [synapse.storage.read_schema]: the text of a schema file. *)
Variable read_schema : string → string.

(** Whether sqlite, after the calls it has received, runs a script
    without raising. The other requests are taken as served here;
    [build_db_pool_io] below is the same method with every request
    allowed to raise. *)
Variable sqlite_accepts : list db_call → string → bool.

(** The loop over [SCHEMAS]; a script that sqlite refuses raises out of
    the loop. *)
Fixpoint run_schemas (schemas : list string) (s : store)
    : result unit * store :=
  match schemas with
  | [] => (Ok (), s)
  | sql_loc :: rest =>
      let sql_script := read_schema sql_loc in
      if sqlite_accepts (calls s) sql_script then
        let s := call (ExecuteScript sql_script) s in
        let s := call Commit s in
        run_schemas rest s
      else
        (Raise (OperationalError sql_script),
         call (ExecuteScript sql_script) s)
  end.

(** The calls of the loop when sqlite accepts every script. *)
Definition schema_calls (schemas : list string) : list db_call :=
  schemas ≫= fun sql_loc => [ExecuteScript (read_schema sql_loc); Commit].

Definition build_db_pool (db_name : string) (s : store)
    : result ConnectionPool * store :=
  let s := call PragmaUserVersion s in
  let row := user_version_row s in
  let '(checked, s) :=
    if row_and_row0 row then
      let user_version := default 0%Z row in
      if (user_version <? SCHEMA_VERSION)%Z then
        (Raise (ValueError user_version SCHEMA_VERSION), s)
      else (Ok (), s)
    else
      match run_schemas SCHEMAS s with
      | (Ok _, s) => (Ok (), set_user_version SCHEMA_VERSION s)
      | (Raise e, s) => (Raise e, s)
      end in
  match checked with
  | Raise e => (Raise e, s)
  | Ok _ =>
      let s := call CursorClose s in
      let pool :=
        {| dbapiName := "sqlite3"; database := db_name;
           check_same_thread := false; cp_min := 1; cp_max := 1 |} in
      (Ok pool, s)
  end.

End Bootstrap.

(** ** [build_db_pool] when any request may fail

    [build_db_pool] above takes the file as one that sqlite opens and
    reads, and lets only [executescript] raise. Here every request that
    lines 85 to 109 make may raise: opening the file, the cursor, the
    version query and its [fetchone], reading a schema file, a script,
    a commit, the stamp, closing the cursor, and the commit or rollback
    that the connection does when the [with] block is left. *)

(** The requests. *)
Inductive io_op : Type :=
  | Connect (db_name : string)            (* sqlite3.connect(self.db_name) *)
  | Cursor                                            (* db_conn.cursor() *)
  | Fetchone                                             (* c.fetchone() *)
  | ReadSchema (sql_loc : string)                 (* read_schema(sql_loc) *)
  | Send (c : db_call)          (* a call on the connection or the cursor *)
  | ExitCommit        (* [with] left without an exception: db_conn.commit() *)
  | ExitRollback.      (* [with] left by an exception: db_conn.rollback() *)

(** What [build_db_pool] raises: the [ValueError] of line 95, or what a
    request raised. *)
Inductive io_exn : Type :=
  | StaleVersion (user_version expected : Z)
  | Failed (op : io_op) (err : string).

Inductive outcome (A : Type) : Type :=
  | Returned (a : A)
  | Thrown (e : io_exn).
Arguments Returned {A} a.
Arguments Thrown {A} e.

(** A computation on the store that returns or raises. *)
Definition io (A : Type) : Type := store → outcome A * store.

#[export] Instance io_ret : MRet io := fun A a s => (Returned a, s).
#[export] Instance io_bind : MBind io := fun A B k m s =>
  match m s with
  | (Returned a, s1) => k a s1
  | (Thrown e, s1) => (Thrown e, s1)
  end.

Definition throw {A : Type} (e : io_exn) : io A := fun s => (Thrown e, s).

(** The calls that sqlite has received once the request [op] is made. *)
Definition sent (op : io_op) (cs : list db_call) : list db_call :=
  match op with
  | Send c => cs ++ [c]
  | _ => cs
  end.

(** The version row once the request [op] has been served. *)
Definition served (op : io_op) (row : option Z) : option Z :=
  match op with
  | Send (SetUserVersion v) => Some v
  | _ => row
  end.

Section BootstrapIO.

Variable read_schema : string → string.

(** What a request raises, if it raises, when it is made after the calls
    that sqlite has received so far. *)
Variable raises : list db_call → io_op → option string.

(** One request. A call on the connection or the cursor counts as
    received whether it raises or not. *)
Definition ask (op : io_op) : io unit := fun s =>
  match raises (calls s) op with
  | Some err =>
      (Thrown (Failed op err),
       mkStore (user_version_row s) (sent op (calls s)))
  | None =>
      (Returned (),
       mkStore (served op (user_version_row s)) (sent op (calls s)))
  end.

(** The loop of lines 101 to 105. *)
Fixpoint run_schemas_io (schemas : list string) : io unit :=
  match schemas with
  | [] => mret ()
  | sql_loc :: rest =>
      _ ← ask (ReadSchema sql_loc);
      _ ← ask (Send (ExecuteScript (read_schema sql_loc)));
      _ ← ask (Send Commit);
      run_schemas_io rest
  end.

(** [row], as [fetchone] has returned it. *)
Definition fetched_row : io (option Z) := fun s =>
  (Returned (user_version_row s), s).

(** Lines 86 to 109, the body of the [with] block. *)
Definition with_block_body : io unit :=
  _ ← ask Cursor;
  _ ← ask (Send PragmaUserVersion);
  _ ← ask Fetchone;
  row ← fetched_row;
  _ ← (if row_and_row0 row then
         let user_version := default 0%Z row in
         if (user_version <? SCHEMA_VERSION)%Z then
           throw (StaleVersion user_version SCHEMA_VERSION)
         else mret ()
       else
         _ ← run_schemas_io SCHEMAS;
         ask (Send (SetUserVersion SCHEMA_VERSION)));
  ask (Send CursorClose).

(** [with ... as db_conn:], for a connection of sqlite3: when the body
    returns the connection commits, when it raises the connection rolls
    back and the exception goes on; what the commit or the rollback
    raises takes its place. *)
Definition with_connection {A : Type} (body : io A) : io A := fun s =>
  match body s with
  | (Returned a, s1) => (_ ← ask ExitCommit; mret a) s1
  | (Thrown e, s1) => (_ ← ask ExitRollback; throw e) s1
  end.

Definition build_db_pool_io (db_name : string) : io ConnectionPool :=
  _ ← ask (Connect db_name);
  _ ← with_connection with_block_body;
  mret (the_pool db_name).

(** The requests for the scripts of [schemas], when none raises. *)
Definition script_requests (schemas : list string) : list io_op :=
  schemas ≫= fun sql_loc =>
    [ReadSchema sql_loc; Send (ExecuteScript (read_schema sql_loc));
     Send Commit].

(** No request of [ops] raises when it is made after the calls [cs] and
    the requests before it. *)
Fixpoint quiet (ops : list io_op) (cs : list db_call) : bool :=
  match ops with
  | [] => true
  | op :: rest =>
      match raises cs op with
      | None => quiet rest (sent op cs)
      | Some _ => false
      end
  end.

(** The requests [ops], one after the other. *)
Fixpoint asks (ops : list io_op) : io unit :=
  match ops with
  | [] => mret ()
  | op :: rest => _ ← ask op; asks rest
  end.

(** A version that does not pass the check of line 93. *)
Definition stale (row : option Z) : bool :=
  row_and_row0 row && (default 0%Z row <? SCHEMA_VERSION)%Z.

(** The requests of the body of the [with] block when none raises, on a
    store whose version row is [row]: lines 86 to 88, then the scripts,
    the stamp and the close for a store without a version, the close
    alone for a version that passes the check, and nothing more for a
    version that does not. *)
Definition body_requests (row : option Z) : list io_op :=
  [Cursor; Send PragmaUserVersion; Fetchone]
  ++ (if row_and_row0 row then
        if stale row then [] else [Send CursorClose]
      else
        script_requests SCHEMAS
        ++ [Send (SetUserVersion SCHEMA_VERSION); Send CursorClose]).

(** All the requests of such a run. *)
Definition requests (db_name : string) (row : option Z) : list io_op :=
  Connect db_name
  :: body_requests row
  ++ [if stale row then ExitRollback else ExitCommit].

End BootstrapIO.

(** The environment of [build_db_pool] above: nothing raises but the
    scripts that sqlite does not accept. *)
Definition only_scripts (sqlite_accepts : list db_call → string → bool)
    (err : string) (cs : list db_call) (op : io_op) : option string :=
  match op with
  | Send (ExecuteScript sql_script) =>
      if sqlite_accepts cs sql_script then None else Some err
  | _ => None
  end.

(** What [build_db_pool] above raises, as an exception of
    [build_db_pool_io]; it raises no [KeyError]. *)
Definition as_thrown (err : string) (e : exn) : io_exn :=
  match e with
  | ValueError user_version expected => StaleVersion user_version expected
  | OperationalError sql_script
  | KeyError sql_script => Failed (Send (ExecuteScript sql_script)) err
  end.

(** None of the requests [ops] sets the version. *)
Definition no_stamp (ops : list io_op) : bool :=
  forallb (fun op =>
    match op with
    | Send (SetUserVersion _) => false
    | _ => true
    end) ops.

(** The calls received once the requests [ops] are made, and the version
    row once they are served. *)
Definition all_sent (ops : list io_op) (cs : list db_call) : list db_call :=
  foldl (fun cs op => sent op cs) cs ops.

Definition all_served (ops : list io_op) (row : option Z) : option Z :=
  foldl (fun row op => served op row) row ops.

(** ** [setup] *)

(** The options of [HomeServerConfig] that [setup] reads after the home
    server object has been made. [manhole] is a port, or [None]; [if
    config.manhole] is false for [None] and for the port 0. *)
Record config : Type := mkConfig {
  bind_port : nat;
  webclient : bool;
  manhole : option nat;
  daemonize : bool;
}.

(** What the process does outside the home server object, in the order
    in which it happens. *)
Inductive effect : Type :=
  | ListenSSL (port : nat) (site_root : loc)       (* reactor.listenSSL *)
  | DbPoolBuilt (outcome : result ConnectionPool)   (* build_db_pool ran *)
  | ListenTCP (port : nat) (interface : string)    (* reactor.listenTCP *)
  | DaemonStart                                        (* daemon.start() *)
  | ReactorRun.                                         (* reactor.run() *)

(** The home server object together with the sqlite file it names. *)
Record HomeServer : Type := mkHomeServer {
  objects : heap;
  built : gmap string loc;
  root_resource : option loc;
  db_name : string;
  db : store;
  db_pool : option ConnectionPool;
  effects : list effect;
}.

Definition with_objects (h : heap) (hs : HomeServer) : HomeServer :=
  mkHomeServer h (built hs) (root_resource hs) (db_name hs) (db hs)
    (db_pool hs) (effects hs).

Definition with_built (b : gmap string loc) (hs : HomeServer) : HomeServer :=
  mkHomeServer (objects hs) b (root_resource hs) (db_name hs) (db hs)
    (db_pool hs) (effects hs).

Definition with_root (r : loc) (hs : HomeServer) : HomeServer :=
  mkHomeServer (objects hs) (built hs) (Some r) (db_name hs) (db hs)
    (db_pool hs) (effects hs).

Definition with_db (s : store) (p : option ConnectionPool) (hs : HomeServer)
    : HomeServer :=
  mkHomeServer (objects hs) (built hs) (root_resource hs) (db_name hs) s p
    (effects hs).

Definition emit (e : effect) (hs : HomeServer) : HomeServer :=
  mkHomeServer (objects hs) (built hs) (root_resource hs) (db_name hs)
    (db hs) (db_pool hs) (effects hs ++ [e]).

Section Setup.

Variable obj_str : loc → string.
Variable read_schema : string → string.
Variable sqlite_accepts : list db_call → string → bool.

(** The constants of [synapse.api.urls]. *)
Variables CLIENT_PREFIX FEDERATION_PREFIX WEB_CLIENT_PREFIX
  CONTENT_REPO_PREFIX : string.

(** [hs.register_servlets()], a method of the base class, taken as a
    call that returns: when it raises, [setup] ends there, before
    anything that is modelled here. *)
Variable register_servlets : HomeServer → HomeServer.

(** Modelled from the spec: the getters [get_resource_for_*] are made by
    the base class [HomeServer] of [synapse.server], which is not among
    the sources. Each home server component is built once: the getter
    calls the [build_resource_for_*] method of this file, which returns
    a new resource object, and keeps what it returned. *)
Definition get_resource_for (depname : string) (hs : HomeServer)
    : loc * HomeServer :=
  match built hs !! depname with
  | Some r => (r, hs)
  | None =>
      let '(r, h) := Resource (objects hs) in
      (r, with_built (<[depname := r]> (built hs)) (with_objects h hs))
  end.

(** Modelled from the spec: [get_db_pool] is such a getter too. The
    orchestrator calls the bootstrap through it to obtain the store
    handle, and the bootstrap is invoked once: a pool that has been built
    is returned as it is. *)
Definition get_db_pool (hs : HomeServer)
    : result ConnectionPool * HomeServer :=
  match db_pool hs with
  | Some pool => (Ok pool, hs)
  | None =>
      let '(r, s) :=
        build_db_pool read_schema sqlite_accepts (db_name hs) (db hs) in
      let hs := emit (DbPoolBuilt r) hs in
      match r with
      | Ok pool => (Ok pool, with_db s (Some pool) hs)
      | Raise e => (Raise e, with_db s None hs)
      end
  end.

Definition create_resource_tree (web_client redirect_root_to_web_client : bool)
    (hs : HomeServer) : result loc * HomeServer :=
  let '(client, hs) := get_resource_for "resource_for_client" hs in
  let '(federation, hs) := get_resource_for "resource_for_federation" hs in
  let '(content_repo, hs) :=
    get_resource_for "resource_for_content_repo" hs in
  let desired_tree :=
    [ (CLIENT_PREFIX, client); (FEDERATION_PREFIX, federation);
      (CONTENT_REPO_PREFIX, content_repo) ] in
  let '(desired_tree, hs) :=
    if web_client then
      let '(web, hs) := get_resource_for "resource_for_web_client" hs in
      (desired_tree ++ [(WEB_CLIENT_PREFIX, web)], hs)
    else (desired_tree, hs) in
  (* [RootRedirect(WEB_CLIENT_PREFIX)] and [Resource()] are both new
     resources without children; [build_tree] makes the root. When the
     loop raises, the exception leaves [setup] and the resources attached
     so far are not looked at again. *)
  match build_tree obj_str desired_tree (objects hs) with
  | Ok (root, h) => (Ok root, with_root root (with_objects h hs))
  | Raise e => (Raise e, hs)
  end.

Definition start_listening (port : nat) (hs : HomeServer) : HomeServer :=
  emit (ListenSSL port (default 0 (root_resource hs))) hs.

(** [run()] *)
Definition run (hs : HomeServer) : HomeServer := emit ReactorRun hs.

(** [setup()], from [hs.register_servlets()] on; [hs] is the home server
    object as its constructor leaves it. *)
Definition setup (cfg : config) (hs : HomeServer)
    : result unit * HomeServer :=
  let hs := register_servlets hs in
  match create_resource_tree (webclient cfg) true hs with
  | (Raise e, hs) => (Raise e, hs)
  | (Ok _, hs) =>
      let hs := start_listening (bind_port cfg) hs in
      match get_db_pool hs with
      | (Raise e, hs) => (Raise e, hs)
      | (Ok _, hs) =>
          let hs :=
            match manhole cfg with
            | Some (S _ as port) => emit (ListenTCP port "127.0.0.1") hs
            | _ => hs
            end in
          let hs := if daemonize cfg then run (emit DaemonStart hs)
                    else run hs in
          (Ok (), hs)
      end
  end.

End Setup.


(** What building the resource tree leaves alone: the effects, the store
    and the pool. *)
Definition same_outside (hs hs' : HomeServer) : Prop :=
  effects hs' = effects hs ∧ db hs' = db hs ∧ db_pool hs' = db_pool hs
  ∧ db_name hs' = db_name hs.

(** ** Mount lists on which the tree is built as intended *)

(** A path that starts with a slash, as the prefixes of the API do. *)
Definition rooted (full_path : string) : bool :=
  match full_path with
  | String c _ => bool_decide (c = slash)
  | EmptyString => false
  end.

(** The child of the node at [p] through which the path [a] goes, when
    [a] lies strictly below [p]. *)
Definition through (p a : list string) : option string :=
  if bool_decide (p `prefix_of` a) then head (drop (List.length p) a)
  else None.

(** [a] and [b] go through the same child of [p]. *)
Definition same_child (p a b : list string) : bool :=
  match through p a with
  | Some x => bool_decide (through p b = Some x)
  | None => false
  end.

(** No mount arrives after both a mount at a node above it and a still
    earlier mount below the same child of that node. [done] are the paths
    already attached, [todo] those still to come, in order. *)
Fixpoint clean_from (done todo : list (list string)) : bool :=
  match todo with
  | [] => true
  | p :: rest =>
      forallb (fun a => forallb (fun b => negb (same_child p a b)) rest) done
      && clean_from (p :: done) rest
  end.

Definition clean (desired_tree : list (string * loc)) : bool :=
  clean_from [] (path_segs <$> desired_tree.*1).

(** The mounts with their paths cut into segments. *)
Definition mount_segs (desired_tree : list (string * loc))
    : list (list string * loc) :=
  prod_map path_segs id <$> desired_tree.

(** Two nodes found at the same path of two trees are alike when they are
    the same resource of the caller, or both made by the builder (the root
    and the dummy resources); objects below [n0] are the caller's. *)
Definition same_node (n0 : nat) (o1 o2 : option loc) : Prop :=
  match o1, o2 with
  | None, None => True
  | Some a, Some b => (a < n0 ∧ b = a) ∨ (n0 ≤ a ∧ n0 ≤ b)%nat
  | _, _ => False
  end.

(** Two trees have the same topology: every path resolves in both or in
    neither, and to alike nodes; so every node has the same child names in
    both. *)
Definition same_topology (n0 : nat) (t1 t2 : loc * heap) : Prop :=
  ∀ q, same_node n0 (resolve t1.2 t1.1 q) (resolve t2.2 t2.1 q).

(** The tree that [create_resource_tree] has returned. *)
Definition tree_of (r : result (loc * heap)) : loc * heap :=
  match r with
  | Ok t => t
  | Raise _ => (0, [])
  end.

(** ** The state of the loop over [desired_tree]

    What holds of the heap and of [resource_mappings] between two turns of
    the loop, and inside the walk over the interior segments. [done] are
    the mounts attached so far (as segment lists), [todo] the mounts still
    to come, [w] the path walked so far in the current turn. Objects below
    [n0] existed before [create_resource_tree] was called; [root] is the
    root resource. *)

Section TreeInvariant.

Variable obj_str : loc → string.
Variables n0 root : loc.

Record tree_inv (done todo : list (list string * loc)) (w : list string)
    (h : heap) (M : mappings) : Prop := {
  (* every node of the tree is a live object *)
  inv_valid : ∀ q a, resolve h root q = Some a → a < List.length h;
  inv_size : (n0 ≤ List.length h)%nat;
  (* the tree is a tree: a node sits at one path only *)
  inv_inj : ∀ q1 q2 a,
    resolve h root q1 = Some a → resolve h root q2 = Some a → q1 = q2;
  (* the paths of the tree are the prefixes of the paths attached *)
  inv_dom : ∀ q,
    is_Some (resolve h root q)
    ↔ q `prefix_of` w ∨ ∃ m, m ∈ done ∧ q `prefix_of` m.1;
  (* an attached mount is found at its path *)
  inv_mounted : ∀ p r, (p, r) ∈ done → resolve h root p = Some r;
  (* all other nodes of the tree were made by the loop *)
  inv_old : ∀ q a, resolve h root q = Some a → a < n0 → (q, a) ∈ done;
  (* the resources still to be attached are untouched *)
  inv_fresh : ∀ p r, (p, r) ∈ todo →
    r < n0 ∧ (∀ s, getStaticEntity h r s = None)
    ∧ ∀ s, M !! _resource_id obj_str r s = None;
  (* [resource_mappings] has keys of live objects only *)
  inv_keys : ∀ a s c,
    M !! _resource_id obj_str a s = Some c → a < List.length h;
  (* what [resource_mappings] says of a node of the tree is true *)
  inv_sound : ∀ q a s c,
    resolve h root q = Some a → M !! _resource_id obj_str a s = Some c →
    getStaticEntity h a s = Some c;
  (* a child of the tree is in [resource_mappings], unless it was stolen
     for a mount and no later mount passes through it *)
  inv_recorded : ∀ q a s c,
    resolve h root q = Some a → getStaticEntity h a s = Some c →
    M !! _resource_id obj_str a s = Some c
    ∨ (q ∈ done.*1 ∧ ∀ m, m ∈ todo → ¬ (q ++ [s]) `prefix_of` m.1);
  inv_paths : NoDup ((done ++ todo).*1);
  inv_handlers : NoDup ((done ++ todo).*2);
  inv_clean : clean_from done.*1 todo.*1 = true;
}.

End TreeInvariant.

(** What holds between two turns of the loop on any mount list with
    distinct resources without children, clean or not: [attached] are the
    resources attached so far, [coming] those still to come. *)
Section LooseInvariant.

Variable obj_str : loc → string.
Variables n0 root : loc.

Record loose_inv (attached coming : list loc) (h : heap) (M : mappings)
    : Prop := {
  loose_valid : ∀ q a, resolve h root q = Some a → a < List.length h;
  loose_size : (n0 ≤ List.length h)%nat;
  loose_inj : ∀ q1 q2 a,
    resolve h root q1 = Some a → resolve h root q2 = Some a → q1 = q2;
  loose_old : ∀ q a, resolve h root q = Some a → a < n0 → a ∈ attached;
  loose_fresh : ∀ r, r ∈ coming →
    r < n0 ∧ (∀ s, getStaticEntity h r s = None)
    ∧ ∀ s, M !! _resource_id obj_str r s = None;
  loose_keys : ∀ a s c,
    M !! _resource_id obj_str a s = Some c → a < List.length h;
  loose_sound : ∀ q a s c,
    resolve h root q = Some a → M !! _resource_id obj_str a s = Some c →
    getStaticEntity h a s = Some c;
  loose_handlers : NoDup (attached ++ coming);
}.

End LooseInvariant.

(** ** Sample values

    A way of printing objects in which no two objects look alike: the
    location, in unary, stands for the address that Python prints. *)

Fixpoint tally (n : nat) : string :=
  match n with
  | 0 => EmptyString
  | S n' => String "|" (tally n')
  end.

Definition instance_str (n : loc) : string :=
  "<Resource instance at " +:+ tally n +:+ ">".

(** Three resources without children, at the locations 0, 1 and 2. *)
Definition three_resources : heap := [∅; ∅; ∅].

(** A sqlite that accepts every script. *)
Definition accept_all (cs : list db_call) (sql_script : string) : bool := true.

(** A sqlite that accepts the scripts of [SCHEMAS] and nothing else. *)
Definition accept_schemas (cs : list db_call) (sql_script : string) : bool :=
  bool_decide (sql_script ∈ SCHEMAS).

(** An environment in which nothing raises. *)
Definition nothing_raises (cs : list db_call) (op : io_op) : option string :=
  None.

(** An environment in which sqlite takes everything but the stamp. *)
Definition stamp_raises (cs : list db_call) (op : io_op) : option string :=
  match op with
  | Send (SetUserVersion _) => Some "database is locked"
  | _ => None
  end.

(** A store whose version row holds [row], before any call. *)
Definition store_with (row : option Z) : store := mkStore row [].

(** The home server object as its constructor leaves it, on a store. *)
Definition new_home_server (s : store) : HomeServer :=
  mkHomeServer [] ∅ None "homeserver.db" s None [].

(** ** The server name and its port

    [setup] takes [config.server_name] as the domain when
    [re.search(":[0-9]+$", config.server_name)] finds a port in it, and
    appends [config.bind_port] otherwise. *)

Definition newline : ascii := "010"%char.

Definition is_digit (c : ascii) : bool :=
  match c with
  | "0" | "1" | "2" | "3" | "4" | "5" | "6" | "7" | "8" | "9" => true
  | _ => false
  end%char.

(** [[0-9]+$] matched at the start of [s]: one digit or more, up to the end
    of the string or up to a newline that ends the string. *)
Fixpoint digits_to_end (s : string) : bool :=
  match s with
  | EmptyString => false
  | String c s' =>
      is_digit c
      && match s' with
         | EmptyString => true
         | String d s'' =>
             if bool_decide (d = newline ∧ s'' = EmptyString) then true
             else digits_to_end s'
         end
  end.

(** [re.search(":[0-9]+$", s)]: the pattern is tried at every position. *)
Fixpoint search_port (s : string) : bool :=
  match s with
  | EmptyString => false
  | String c s' =>
      (bool_decide (c = ":"%char) && digits_to_end s') || search_port s'
  end.

(** The [domain_with_port] of [setup]; ["%s:%s" % (name, port)] prints the
    port in decimal. *)
Definition domain_with_port (server_name : string) (bind_port : nat)
    : string :=
  if search_port server_name then server_name
  else server_name +:+ ":" +:+ pretty bind_port.

(** A string of digits only. *)
Fixpoint all_digits (s : string) : bool :=
  match s with
  | EmptyString => true
  | String c s' => is_digit c && all_digits s'
  end.

(** A string with a dash in it. *)
Fixpoint has_dash (s : string) : bool :=
  match s with
  | EmptyString => false
  | String c s' => bool_decide (c = "-"%char) || has_dash s'
  end.

(** A path with a slash in it. *)
Fixpoint has_slash (s : string) : bool :=
  match s with
  | EmptyString => false
  | String c s' => bool_decide (c = slash) || has_slash s'
  end.

(** What the builder may change in the heap [h] on the way to [h']:
    objects are added, children are added or replaced under their names,
    and of the objects below [n0] only those of [handlers] are touched. *)
Definition grows (n0 : nat) (handlers : list loc) (h h' : heap) : Prop :=
  (List.length h ≤ List.length h')%nat
  ∧ (∀ r x, is_Some (getStaticEntity h r x) →
            is_Some (getStaticEntity h' r x))
  ∧ (∀ r, r < n0 → r ∉ handlers → h' !! r = h !! r).

(** No path of the list has two other paths of the list below one and
    the same child of its node: whatever the order of the mounts, no
    stolen child is ever needed again. *)
Definition tidy (paths : list (list string)) : bool :=
  forallb (fun p =>
    forallb (fun a =>
      forallb (fun b => bool_decide (a = b) || negb (same_child p a b))
        paths) paths) paths.

(** Four resources without children, at the locations 0 to 3. *)
Definition four_resources : heap := [∅; ∅; ∅; ∅].

(** The prefixes that [create_resource_tree] mounts, in its order. *)
Definition desired_prefixes (CLIENT_PREFIX FEDERATION_PREFIX WEB_CLIENT_PREFIX
    CONTENT_REPO_PREFIX : string) (web_client : bool) : list string :=
  [CLIENT_PREFIX; FEDERATION_PREFIX; CONTENT_REPO_PREFIX]
  ++ (if web_client then [WEB_CLIENT_PREFIX] else []).

(** The resources that the getters have built so far are objects without
    children, and no two getters have built the same object. *)
Definition unattached (hs : HomeServer) : Prop :=
  (∀ depname r, built hs !! depname = Some r → objects hs !! r = Some ∅)
  ∧ (∀ depname1 depname2 r,
       built hs !! depname1 = Some r → built hs !! depname2 = Some r →
       depname1 = depname2).

(** The resource of the getter [depname] is found at [full_path]. *)
Definition found_at (hs : HomeServer) (root : loc) (depname full_path : string)
    : Prop :=
  ∃ r, built hs !! depname = Some r
       ∧ resolve (objects hs) root (path_segs full_path) = Some r.

(** A sqlite that refuses the script [users] and accepts the others. *)
Definition refuse_users (cs : list db_call) (sql_script : string) : bool :=
  negb (bool_decide (sql_script = "users")).

(** * Properties *)

Section SplitFacts.

Lemma split_nonempty (sep : ascii) (s : string) : split sep s ≠ [].
Proof.
  induction s as [|c s IH]; simpl; [discriminate|].
  case_decide; [discriminate|].
  destruct (split sep s); [contradiction|discriminate].
Qed.

Lemma rooted_path_segs (full_path : string) :
  rooted full_path = true →
  path_segs full_path = interior_segs full_path ++ [last_path_seg full_path].
Proof.
  destruct full_path as [|c rest]; simpl; [discriminate|].
  intros Hc%bool_decide_eq_true. subst c.
  unfold path_segs, interior_segs, last_path_seg. simpl split.
  pose proof (split_nonempty slash rest) as Hne.
  destruct (split slash rest) as [|x l] eqn:E; [contradiction|].
  change (x :: l = removelast (x :: l) ++ [List.last (x :: l) EmptyString]).
  apply app_removelast_last. discriminate.
Qed.

End SplitFacts.

Lemma for_each_cons {S A : Type} (body : S → A → result S) x xs s :
  for_each body (x :: xs) s = body s x ≫= for_each body xs.
Proof. reflexivity. Qed.

Section HeapFacts.

Implicit Types (h : heap) (n a c : loc) (s x : string).
Implicit Types (w q p : list string).

Lemma getStaticEntity_putChild h n s c a x :
  n < List.length h →
  getStaticEntity (putChild h n s c) a x
  = if decide (a = n ∧ x = s) then Some c else getStaticEntity h a x.
Proof.
  intros Hn. unfold getStaticEntity, putChild.
  destruct (decide (a = n)) as [->|Hne].
  - rewrite list_lookup_alter_eq.
    destruct (lookup_lt_is_Some_2 h n Hn) as [ch Hch]. rewrite Hch. cbn.
    destruct (decide (x = s)) as [->|Hx].
    + rewrite decide_True by done. apply lookup_insert_eq.
    + rewrite decide_False by (intros [_ ?]; done).
      by apply lookup_insert_ne.
  - rewrite list_lookup_alter_ne by done.
    rewrite decide_False by (intros [? _]; done). done.
Qed.

Lemma resolve_snoc h a w x :
  resolve h a (w ++ [x]) = resolve h a w ≫= fun b => getStaticEntity h b x.
Proof.
  revert a. induction w as [|y w IH]; intros a; simpl.
  - by destruct (getStaticEntity h a x).
  - destruct (getStaticEntity h a y); simpl; [apply IH|done].
Qed.

(** Two heaps that agree on the children of every node reached from
    [a] in the first resolve the same paths from [a]. *)
Lemma resolve_ext h h' a :
  (∀ w b x, resolve h a w = Some b →
     getStaticEntity h' b x = getStaticEntity h b x) →
  ∀ w, resolve h' a w = resolve h a w.
Proof.
  intros Hsame w. induction w as [|x w IH] using rev_ind; [done|].
  rewrite !resolve_snoc, IH.
  destruct (resolve h a w) as [b|] eqn:Hb; simpl; [|done].
  by apply (Hsame w).
Qed.

(** A new object does not change what the old ones have. *)
Lemma getStaticEntity_Resource h a x :
  getStaticEntity (h ++ [∅]) a x = getStaticEntity h a x.
Proof.
  unfold getStaticEntity.
  destruct (decide (a < List.length h)) as [Hlt|Hge].
  - by rewrite lookup_app_l.
  - rewrite (lookup_ge_None_2 h a) by lia.
    destruct (decide (a = List.length h)) as [->|Hne].
    + rewrite list_lookup_middle by done. done.
    + rewrite lookup_ge_None_2; [done|].
      rewrite length_app. simpl. lia.
Qed.

Lemma through_Some p q x :
  through p q = Some x ↔ (p ++ [x]) `prefix_of` q.
Proof.
  unfold through. split.
  - case_bool_decide as Hpre; [|done].
    destruct Hpre as [k ->]. rewrite drop_app_length.
    destruct k as [|y k]; [done|]. intros [= ->].
    exists k. by rewrite <- app_assoc.
  - intros [k ->]. rewrite <- app_assoc.
    rewrite bool_decide_eq_true_2 by (by eexists).
    by rewrite drop_app_length.
Qed.

Lemma prefix_snoc_iff q w s :
  q `prefix_of` w ++ [s] ↔ q `prefix_of` w ∨ q = w ++ [s].
Proof.
  split.
  - intros [k Hk]. destruct k as [|y k _] using rev_ind.
    + right. by rewrite app_nil_r in Hk.
    + left. rewrite app_assoc in Hk. apply app_inj_tail in Hk as [-> _].
      by exists k.
  - intros [Hq| ->]; [by apply prefix_app_r|done].
Qed.

End HeapFacts.

Section PutChild.

Implicit Types (h : heap) (n a c : loc) (s x : string) (w q : list string).

Lemma elem_of_listNames h a s :
  s ∈ listNames h a ↔ is_Some (getStaticEntity h a s).
Proof.
  unfold listNames, getStaticEntity.
  destruct (h !! a) as [ch|]; cbn.
  - rewrite list_elem_of_fmap. split.
    + intros [[k c] [-> Hin]]. apply elem_of_map_to_list in Hin. eauto.
    + intros [c Hc]. exists (s, c). split; [done|].
      by apply elem_of_map_to_list.
  - split; [by intros ?%elem_of_nil|by intros [? ?]].
Qed.

(** Putting [R] below the node [n] of the tree, under the name [s]: when
    [R] is not in the tree and has the children that the node it replaces
    had (none, when it replaces nothing), the tree changes at one path. *)
Lemma resolve_putChild h root n s R q :
  (∀ q1 q2 a,
     resolve h root q1 = Some a → resolve h root q2 = Some a → q1 = q2) →
  resolve h root q = Some n →
  n < List.length h →
  (∀ u, resolve h root u ≠ Some R) →
  (∀ x, getStaticEntity h R x
        = getStaticEntity h n s ≫= fun e => getStaticEntity h e x) →
  ∀ u, resolve (putChild h n s R) root u
       = if decide (u = q ++ [s]) then Some R else resolve h root u.
Proof.
  intros Hinj Hq Hn HR Hch u.
  induction u as [|x u IH] using rev_ind.
  - rewrite decide_False; [done|]. by destruct q.
  - rewrite !resolve_snoc, IH. clear IH.
    destruct (decide (u = q ++ [s])) as [->|Hu].
    + cbn. rewrite getStaticEntity_putChild by done.
      rewrite decide_False.
      2:{ intros [-> _]. by apply (HR q). }
      rewrite decide_False.
      2:{ intros Heq%(f_equal List.length).
          rewrite !length_app in Heq. simpl in Heq. lia. }
      rewrite Hch, resolve_snoc, Hq. done.
    + destruct (resolve h root u) as [a|] eqn:Ha; cbn.
      * rewrite getStaticEntity_putChild by done.
        destruct (decide (a = n ∧ x = s)) as [[-> ->]|Hne].
        -- rewrite (Hinj u q n Ha Hq). by rewrite decide_True.
        -- rewrite decide_False; [done|].
           intros [-> ->]%app_inj_tail. apply Hne. split; [|done].
           congruence.
      * rewrite decide_False; [done|].
        intros [-> ->]%app_inj_tail. congruence.
Qed.

End PutChild.

Section TreeProof.

Variable obj_str : loc → string.
Variables n0 root : loc.

(** Two objects are never printed alike, and the name of the child can
    be read off the identifier. *)
Hypothesis rid_inj : ∀ r1 r2 s1 s2,
  _resource_id obj_str r1 s1 = _resource_id obj_str r2 s2 →
  r1 = r2 ∧ s1 = s2.

Abbreviation rid := (_resource_id obj_str).
Abbreviation inv := (tree_inv obj_str n0 root).

Implicit Types (h : heap) (M : mappings) (a c r : loc) (s x : string).
Implicit Types (w q p : list string) (done todo : list (list string * loc)).

Ltac fields I :=
  destruct I as [Hvalid Hsize Hinj Hdom Hmnt Hold Hfresh Hkeys Hsound Hrec
                 Hpaths Hhand Hclean].

Lemma fresh_not_in_tree done todo w h M p r :
  inv done todo w h M → (p, r) ∈ todo →
  ∀ u, resolve h root u ≠ Some r.
Proof.
  intros I Hin u Hu. fields I.
  destruct (Hfresh p r Hin) as (Hlt & _ & _).
  pose proof (Hold u r Hu Hlt) as Hdone.
  rewrite fmap_app in Hhand. apply NoDup_app in Hhand as (_ & Hdisj & _).
  apply (Hdisj r).
  - apply list_elem_of_fmap. by exists (u, r).
  - apply list_elem_of_fmap. by exists (p, r).
Qed.

Lemma rid_ne a1 a2 s1 s2 : ¬ (a1 = a2 ∧ s1 = s2) → rid a1 s1 ≠ rid a2 s2.
Proof. intros Hne Heq. by apply Hne, rid_inj. Qed.

(** The walk meets a name that the node does not have: a dummy resource
    is made and attached. *)
Lemma walk_seg_new done todo w h M last s :
  inv done todo w h M →
  resolve h root w = Some last →
  getStaticEntity h last s = None →
  let d := List.length h in
  let h' := putChild (h ++ [∅]) last s d in
  inv done todo (w ++ [s]) h' (<[rid last s := d]> M)
  ∧ resolve h' root (w ++ [s]) = Some d.
Proof.
  intros I Hw Hs d h'.
  pose proof (fun p r => fresh_not_in_tree _ _ _ _ _ p r I) as Hunreach.
  fields I.
  pose proof (Hvalid _ _ Hw) as Hlast.
  assert (Hlen : List.length h' = S (List.length h)).
  { unfold h', putChild. rewrite length_alter, length_app. simpl. lia. }
  assert (Hchild : ∀ a x, getStaticEntity h' a x
            = if decide (a = last ∧ x = s) then Some d
              else getStaticEntity h a x).
  { intros a x. unfold h'. rewrite getStaticEntity_putChild.
    - by rewrite getStaticEntity_Resource.
    - rewrite length_app. simpl. lia. }
  assert (HT : ∀ u, resolve h' root u
            = if decide (u = w ++ [s]) then Some d else resolve h root u).
  { intros u. unfold h'.
    assert (HT1 : ∀ v, resolve (h ++ [∅]) root v = resolve h root v).
    { apply resolve_ext. intros. apply getStaticEntity_Resource. }
    rewrite (resolve_putChild _ root last s d w).
    - by rewrite HT1.
    - intros q1 q2 a. rewrite !HT1. apply Hinj.
    - by rewrite HT1.
    - rewrite length_app. simpl. lia.
    - intros u0. rewrite HT1. intros Hu0%Hvalid. unfold d in Hu0. lia.
    - intros x. rewrite !getStaticEntity_Resource, Hs. cbn.
      unfold getStaticEntity. rewrite lookup_ge_None_2; [done|].
      unfold d. lia. }
  assert (Hnone : resolve h root (w ++ [s]) = None).
  { by rewrite resolve_snoc, Hw. }
  split; [|by rewrite HT, decide_True].
  split.
  - intros q a. rewrite HT, Hlen. case_decide.
    + intros [= <-]. unfold d. lia.
    + intros ?%Hvalid. lia.
  - lia.
  - intros q1 q2 a. rewrite !HT. repeat case_decide; subst; try done.
    + intros [= <-] Hq2%Hvalid. unfold d in Hq2. lia.
    + intros Hq1%Hvalid [= <-]. unfold d in Hq1. lia.
    + apply Hinj.
  - intros q. rewrite HT, prefix_snoc_iff. case_decide as Hq.
    + split; [by auto|by eauto].
    + rewrite Hdom. split; [intros [?|?]; auto|intros [[?|?]|?]; auto; done].
  - intros p r Hin. rewrite HT. case_decide as Hp; [|by apply Hmnt].
    subst p. apply Hmnt in Hin. congruence.
  - intros q a. rewrite HT. case_decide.
    + intros [= <-]. unfold d. lia.
    + apply Hold.
  - intros p r Hin. destruct (Hfresh p r Hin) as (Hlt & Hch & HM).
    split_and!; [done| |].
    + intros x. rewrite Hchild. case_decide as Heq; [|done].
      destruct Heq as [-> _]. by destruct (Hunreach p last Hin w).
    + intros x. rewrite lookup_insert_ne; [done|].
      apply rid_ne. intros [-> _]. by destruct (Hunreach p r Hin w).
  - intros a x c. rewrite Hlen.
    destruct (decide (a = last ∧ x = s)) as [[-> ->]|Hne].
    + lia.
    + rewrite lookup_insert_ne by (apply rid_ne; intros [-> ->]; by apply Hne).
      intros ?%Hkeys. lia.
  - intros q a x c. rewrite HT, Hchild.
    destruct (decide (a = last ∧ x = s)) as [[-> ->]|Hne].
    + rewrite lookup_insert_eq. done.
    + rewrite lookup_insert_ne by (apply rid_ne; intros [-> ->]; by apply Hne).
      case_decide.
      * intros [= <-] Hd%Hkeys. unfold d in Hd. lia.
      * apply Hsound.
  - intros q a x c. rewrite HT, Hchild.
    destruct (decide (a = last ∧ x = s)) as [[-> ->]|Hne].
    + intros _ [= <-]. left. apply lookup_insert_eq.
    + rewrite lookup_insert_ne by (apply rid_ne; intros [-> ->]; by apply Hne).
      case_decide.
      * intros [= <-]. unfold getStaticEntity.
        rewrite lookup_ge_None_2; [done|]. unfold d. lia.
      * apply Hrec.
  - done.
  - done.
  - done.
Qed.

Lemma inv_descend done todo w h M s :
  inv done todo w h M →
  is_Some (resolve h root (w ++ [s])) →
  inv done todo (w ++ [s]) h M.
Proof.
  intros I Hs. fields I. split; try done.
  intros q. rewrite prefix_snoc_iff. split.
  - intros [Hq|Hq]%Hdom; auto.
  - intros [[Hq| ->]|Hq]; [apply Hdom; auto|done|apply Hdom; auto].
Qed.

(** One turn of the walk, for a mount whose path goes on through [s]. *)
Lemma walk_seg_spec done p R rest w h M last s :
  inv done ((p, R) :: rest) w h M →
  resolve h root w = Some last →
  (w ++ [s]) `prefix_of` p →
  ∃ h' M' last',
    walk_seg obj_str (h, M, last) s = Ok (h', M', last')
    ∧ inv done ((p, R) :: rest) (w ++ [s]) h' M'
    ∧ resolve h' root (w ++ [s]) = Some last'.
Proof.
  intros I Hw Hpre. unfold walk_seg.
  destruct (getStaticEntity h last s) as [c|] eqn:Hs.
  - rewrite bool_decide_eq_true_2 by (apply elem_of_listNames; eauto).
    simpl.
    assert (Hc : resolve h root (w ++ [s]) = Some c).
    { by rewrite resolve_snoc, Hw. }
    destruct (inv_recorded _ _ _ _ _ _ _ _ I w last s c Hw Hs)
      as [HM|[_ Hsealed]].
    + rewrite HM. exists h, M, c. split_and!; [done| |done].
      apply inv_descend; [done|]. rewrite Hc. eauto.
    + destruct (Hsealed (p, R)); [left|done].
  - rewrite bool_decide_eq_false_2.
    2:{ rewrite elem_of_listNames, Hs. by intros [? ?]. }
    simpl. eexists _, _, _. split; [done|].
    by apply walk_seg_new.
Qed.

(** The walk over the interior segments of a mount reaches the node
    under which the mount is to be attached. *)
Lemma walk_spec done p R rest segs : ∀ w h M last,
  inv done ((p, R) :: rest) w h M →
  resolve h root w = Some last →
  (w ++ segs) `prefix_of` p →
  ∃ h' M' last',
    for_each (walk_seg obj_str) segs (h, M, last) = Ok (h', M', last')
    ∧ inv done ((p, R) :: rest) (w ++ segs) h' M'
    ∧ resolve h' root (w ++ segs) = Some last'.
Proof.
  induction segs as [|s segs IH]; intros w h M last I Hw Hpre.
  - rewrite app_nil_r. exists h, M, last. done.
  - replace (w ++ s :: segs) with ((w ++ [s]) ++ segs) in *
      by (by rewrite <- app_assoc).
    destruct (walk_seg_spec done p R rest w h M last s I Hw)
      as (h1 & M1 & last1 & Hstep & I1 & Hw1).
    { by eapply prefix_app_l. }
    destruct (IH _ _ _ _ I1 Hw1 Hpre) as (h2 & M2 & last2 & Hrest & I2 & Hw2).
    exists h2, M2, last2. split_and!; [|done|done].
    rewrite for_each_cons, Hstep. done.
Qed.

(** Stealing the children whose names are [xs]: all of them are found in
    [resource_mappings] and put under [R]. *)
Lemma steal_spec M e R xs : ∀ h,
  R < List.length h →
  (∀ x, x ∈ xs → is_Some (M !! rid e x)) →
  ∃ h',
    for_each (steal_child obj_str M e R) xs h = Ok h'
    ∧ List.length h' = List.length h
    ∧ ∀ a x, getStaticEntity h' a x
             = if decide (a = R ∧ x ∈ xs) then M !! rid e x
               else getStaticEntity h a x.
Proof.
  induction xs as [|y xs IH]; intros h HR Hall.
  - exists h. split_and!; [done|done|].
    intros a x. rewrite decide_False; [done|].
    intros [_ Hin]. by apply elem_of_nil in Hin.
  - destruct (Hall y) as [c Hc]; [left|].
    destruct (IH (putChild h R y c)) as (h' & Hrun & Hlen & Hch).
    { unfold putChild. by rewrite length_alter. }
    { intros x Hx. apply Hall. by right. }
    exists h'. split_and!.
    + rewrite for_each_cons.
      replace (steal_child obj_str M e R h y) with (Ok (putChild h R y c))
        by (unfold steal_child; by rewrite Hc).
      done.
    + rewrite Hlen. unfold putChild. by rewrite length_alter.
    + intros a x. rewrite Hch, getStaticEntity_putChild by done.
      destruct (decide (a = R ∧ x ∈ xs)) as [[-> Hin]|Hne].
      * rewrite decide_True; [done|]. split; [done|by right].
      * destruct (decide (a = R ∧ x = y)) as [[-> ->]|Hne'].
        -- rewrite decide_True; [done|]. split; [done|left].
        -- rewrite decide_False; [done|].
           intros [-> [->|Hin]%elem_of_cons]; tauto.
Qed.

(** One turn of the loop over [desired_tree]. *)
Lemma attach_spec done full_path R rest h M :
  rooted full_path = true →
  inv done ((path_segs full_path, R) :: rest) [] h M →
  ∃ h' M',
    attach obj_str root (h, M) (full_path, R) = Ok (h', M')
    ∧ inv ((path_segs full_path, R) :: done) rest [] h' M'.
Proof.
  intros Hp%rooted_path_segs I0.
  set (p := path_segs full_path) in *.
  set (w := interior_segs full_path) in *.
  set (l := last_path_seg full_path) in *.
  destruct (walk_spec done p R rest w [] h M root I0)
    as (h1 & M1 & parent & Hwalk & I & Hw); [done| |].
  { rewrite Hp. by apply prefix_app_r. }
  simpl in I, Hw. unfold attach. fold w l. rewrite Hwalk. cbn.
  pose proof (fresh_not_in_tree _ _ _ _ _ p R I) as HRout.
  specialize (HRout ltac:(left)).
  pose proof (fun p r H =>
                fresh_not_in_tree _ _ _ _ _ p r I
                  (list_elem_of_further _ _ _ H)) as Hrestout.
  fields I.
  destruct (Hfresh p R) as (HRold & HRch & HRkeys); [left|].
  pose proof (Hvalid _ _ Hw) as Hparent.
  assert (HpR : parent ≠ R) by (intros ->; by apply (HRout w)).
  assert (Hpnew : p ∉ done.*1).
  { rewrite fmap_app in Hpaths. apply NoDup_app in Hpaths as (_ & Hdisj & _).
    intros Hin. apply (Hdisj p Hin). simpl. left. }
  (* the children are stolen, if there is anything to steal from *)
  assert (Hsteal : ∃ h2,
    match M1 !! rid parent l with
    | Some existing =>
        for_each (steal_child obj_str M1 existing R) (listNames h1 existing) h1
    | None => Ok h1
    end = Ok h2
    ∧ List.length h2 = List.length h1
    ∧ ∀ a x, getStaticEntity h2 a x
             = if decide (a = R)
               then getStaticEntity h1 parent l
                    ≫= fun e => getStaticEntity h1 e x
               else getStaticEntity h1 a x).
  { destruct (M1 !! rid parent l) as [e|] eqn:HM.
    - pose proof (Hsound w parent l e Hw HM) as He.
      assert (Hpe : resolve h1 root p = Some e).
      { by rewrite Hp, resolve_snoc, Hw. }
      assert (Hall : ∀ x c, getStaticEntity h1 e x = Some c →
                     M1 !! rid e x = Some c).
      { intros x c Hx. destruct (Hrec p e x c Hpe Hx) as [?|[? _]]; done. }
      destruct (steal_spec M1 e R (listNames h1 e) h1)
        as (h2 & Hrun & Hlen & Hch).
      { lia. }
      { intros x [c Hx]%elem_of_listNames. rewrite (Hall x c Hx). eauto. }
      exists h2. split_and!; [done|done|].
      intros a x. rewrite Hch, He. cbn.
      destruct (decide (a = R)) as [->|Hne].
      + destruct (getStaticEntity h1 e x) as [c|] eqn:Hx.
        * rewrite decide_True; [by apply Hall|].
          split; [done|]. apply elem_of_listNames. eauto.
        * rewrite decide_False; [apply HRch|].
          intros [_ [c Hc]%elem_of_listNames]. congruence.
      + rewrite decide_False; [done|]. by intros [? _].
    - exists h1. split_and!; [done|done|].
      intros a x. destruct (decide (a = R)) as [->|Hne]; [|done].
      rewrite HRch.
      destruct (getStaticEntity h1 parent l) as [c|] eqn:Hc; [|done].
      destruct (Hrec w parent l c Hw Hc) as [?|[_ Hsealed]]; [congruence|].
      destruct (Hsealed (p, R)); [left|]. by rewrite Hp. }
  destruct Hsteal as (h2 & -> & Hlen2 & Hch2). cbn.
  eexists _, _. split; [done|].
  set (h3 := putChild h2 parent l R).
  assert (Hlen3 : List.length h3 = List.length h1).
  { unfold h3, putChild. by rewrite length_alter. }
  assert (HT2 : ∀ u, resolve h2 root u = resolve h1 root u).
  { apply resolve_ext. intros u b x Hb. rewrite Hch2.
    rewrite decide_False; [done|]. intros ->. by apply (HRout u). }
  assert (Hch3 : ∀ a x, getStaticEntity h3 a x
            = if decide (a = parent ∧ x = l) then Some R
              else getStaticEntity h2 a x).
  { intros a x. unfold h3. apply getStaticEntity_putChild. lia. }
  assert (HT : ∀ u, resolve h3 root u
            = if decide (u = p) then Some R else resolve h1 root u).
  { intros u. unfold h3. rewrite (resolve_putChild _ root parent l R w).
    - by rewrite Hp, HT2.
    - intros q1 q2 a. rewrite !HT2. apply Hinj.
    - by rewrite HT2.
    - lia.
    - intros u0. rewrite HT2. apply HRout.
    - intros x. rewrite !Hch2. rewrite decide_True by done.
      rewrite decide_False by done.
      destruct (getStaticEntity h1 parent l) as [e|] eqn:He; [|done]. cbn.
      rewrite Hch2. rewrite decide_False; [done|].
      intros ->. apply (HRout p). by rewrite Hp, resolve_snoc, Hw. }
  split.
  - intros q a. rewrite HT, Hlen3. case_decide.
    + intros [= <-]. lia.
    + apply Hvalid.
  - lia.
  - intros q1 q2 a. rewrite !HT. repeat case_decide; subst; try done.
    + intros [= <-] Hq2. by destruct (HRout q2).
    + intros Hq1 [= <-]. by destruct (HRout q1).
    + apply Hinj.
  - intros q. rewrite HT. split.
    + case_decide as Hq.
      * intros _. right. exists (p, R). split; [left|by subst].
      * intros [Hq'|(m & Hm & Hq')]%Hdom.
        -- right. exists (p, R). split; [left|]. simpl.
           etrans; [done|]. rewrite Hp. by apply prefix_app_r.
        -- right. exists m. split; [by right|done].
    + case_decide as Hq; [by eauto|].
      intros [->%prefix_nil_inv|(m & [->|Hm]%elem_of_cons & Hq')].
      * apply Hdom. left. apply prefix_nil.
      * simpl in Hq'. rewrite Hp in Hq'.
        apply prefix_snoc_iff in Hq' as [Hq'|Hq']; [|by rewrite Hp in Hq].
        apply Hdom. by left.
      * apply Hdom. right. eauto.
  - intros p' r [[= -> ->]|Hin]%elem_of_cons; rewrite HT.
    + by rewrite decide_True.
    + case_decide as Hp'; [|by apply Hmnt].
      subst p'. destruct Hpnew. apply list_elem_of_fmap. by exists (p, r).
  - intros q a. rewrite HT. case_decide as Hq.
    + intros [= <-] _. subst q. left.
    + intros Ha Hlt. right. by apply Hold.
  - intros p' r Hin.
    destruct (Hfresh p' r (list_elem_of_further _ _ _ Hin))
      as (Hlt & Hch & HMr).
    assert (Hrp : r ≠ parent).
    { intros ->. by apply (Hrestout p' parent Hin w). }
    assert (HrR : r ≠ R).
    { intros ->. rewrite fmap_app in Hhand.
      apply NoDup_app in Hhand as (_ & _ & Hnd). simpl in Hnd.
      apply NoDup_cons in Hnd as [Hnotin _]. apply Hnotin.
      apply list_elem_of_fmap. by exists (p', R). }
    split_and!; [done| |].
    + intros x. rewrite Hch3, decide_False by (by intros [? _]).
      rewrite Hch2, decide_False by done. apply Hch.
    + intros x. rewrite lookup_insert_ne; [done|].
      apply rid_ne. by intros [? _].
  - intros a x c. rewrite Hlen3.
    destruct (decide (a = parent ∧ x = l)) as [[-> ->]|Hne]; [done|].
    rewrite lookup_insert_ne by (apply rid_ne; intros [-> ->]; by apply Hne).
    apply Hkeys.
  - intros q a x c. rewrite HT, Hch3.
    destruct (decide (a = parent ∧ x = l)) as [[-> ->]|Hne].
    + by rewrite lookup_insert_eq.
    + rewrite lookup_insert_ne by (apply rid_ne; intros [-> ->]; by apply Hne).
      rewrite Hch2. case_decide as Hq.
      * intros [= <-]. by rewrite HRkeys.
      * intros Ha. rewrite decide_False; [by apply (Hsound q)|].
        intros ->. by apply (HRout q).
  - intros q a x c. rewrite HT, Hch3.
    destruct (decide (a = parent ∧ x = l)) as [[-> ->]|Hne].
    + intros _ [= <-]. left. apply lookup_insert_eq.
    + rewrite lookup_insert_ne by (apply rid_ne; intros [-> ->]; by apply Hne).
      rewrite Hch2. case_decide as Hq.
      * intros [= <-]. rewrite decide_True by done. intros Hc.
        right. split; [subst q; left|].
        intros m Hm Hpre.
        assert (Hdef : is_Some (resolve h1 root (p ++ [x]))).
        { rewrite resolve_snoc.
          replace (resolve h1 root p) with (getStaticEntity h1 parent l)
            by (by rewrite Hp, resolve_snoc, Hw).
          rewrite Hc. eauto. }
        apply Hdom in Hdef as [Hshort|(m0 & Hm0 & Hpre0)].
        { apply prefix_length in Hshort. rewrite Hp, !length_app in Hshort.
          simpl in Hshort. lia. }
        simpl in Hclean. apply andb_prop in Hclean as [Hcl _].
        rewrite forallb_forall in Hcl.
        specialize (Hcl m0.1). rewrite <- list_elem_of_In in Hcl.
        specialize (Hcl ltac:(by apply list_elem_of_fmap_2)).
        rewrite forallb_forall in Hcl.
        specialize (Hcl m.1). rewrite <- list_elem_of_In in Hcl.
        specialize (Hcl ltac:(by apply list_elem_of_fmap_2)).
        unfold same_child in Hcl. subst q.
        apply through_Some in Hpre0, Hpre. rewrite Hpre0 in Hcl.
        by rewrite bool_decide_eq_true_2 in Hcl.
      * intros Ha. rewrite decide_False by (intros ->; by apply (HRout q)).
        intros Hc.
        destruct (Hrec q a x c Ha Hc) as [?|[Hq' Hsealed]]; [by left|].
        right. split; [by right|].
        intros m Hm. apply Hsealed. by right.
  - change (NoDup (((p, R) :: (done ++ rest)).*1)).
    by rewrite Permutation_middle.
  - change (NoDup (((p, R) :: (done ++ rest)).*2)).
    by rewrite Permutation_middle.
  - simpl in Hclean. by apply andb_prop in Hclean as [_ ?].
Qed.

(** The loop over [desired_tree]. *)
Lemma attach_all_spec (ms : list (string * loc)) : ∀ done h M,
  Forall (fun m => rooted m.1 = true) ms →
  inv done (mount_segs ms) [] h M →
  ∃ h' M',
    for_each (attach obj_str root) ms (h, M) = Ok (h', M')
    ∧ inv (reverse (mount_segs ms) ++ done) [] [] h' M'.
Proof.
  induction ms as [|[full_path R] ms IH]; intros done h M Hroot I.
  - exists h, M. done.
  - apply Forall_cons in Hroot as [Hroot1 Hroot].
    destruct (attach_spec done full_path R (mount_segs ms) h M Hroot1 I)
      as (h1 & M1 & Hstep & I1).
    destruct (IH _ _ _ Hroot I1) as (h2 & M2 & Hrest & I2).
    exists h2, M2. split.
    + rewrite for_each_cons, Hstep. done.
    + unfold mount_segs. rewrite fmap_cons, reverse_cons, <- app_assoc. done.
Qed.

End TreeProof.

Section TreeCorrect.

Variable obj_str : loc → string.

Hypothesis rid_inj : ∀ r1 r2 s1 s2,
  _resource_id obj_str r1 s1 = _resource_id obj_str r2 s2 →
  r1 = r2 ∧ s1 = s2.

Implicit Types (h : heap) (ms : list (string * loc)).

Lemma mount_segs_paths ms : (mount_segs ms).*1 = path_segs <$> ms.*1.
Proof. induction ms as [|[p r] ms IH]; simpl; [done|by f_equal]. Qed.

Lemma mount_segs_handlers ms : (mount_segs ms).*2 = ms.*2.
Proof. induction ms as [|[p r] ms IH]; simpl; [done|by f_equal]. Qed.

Lemma elem_of_mount_segs ms q r :
  (q, r) ∈ mount_segs ms ↔ ∃ p, (p, r) ∈ ms ∧ path_segs p = q.
Proof.
  unfold mount_segs. rewrite list_elem_of_fmap. split.
  - intros ([p r'] & [= -> ->] & Hin). eauto.
  - intros (p & Hin & <-). by exists (p, r).
Qed.

(** The state in which the loop over [desired_tree] is entered. *)
Lemma inv_init ms h0 :
  NoDup (path_segs <$> ms.*1) →
  NoDup ms.*2 →
  Forall (fun r => h0 !! r = Some ∅) ms.*2 →
  clean ms = true →
  tree_inv obj_str (List.length h0) (List.length h0) [] (mount_segs ms) []
    (h0 ++ [∅]) ∅.
Proof.
  intros Hpaths Hhand Hfresh Hclean.
  assert (Hleaf :
    ∀ x, getStaticEntity (h0 ++ [∅]) (List.length h0) x = None).
  { intros x. rewrite getStaticEntity_Resource. unfold getStaticEntity.
    by rewrite lookup_ge_None_2. }
  assert (Hres : ∀ q a, resolve (h0 ++ [∅]) (List.length h0) q = Some a →
                 q = [] ∧ a = List.length h0).
  { intros [|x q] a; simpl; [by intros [= <-]|by rewrite Hleaf]. }
  split.
  - intros q a [_ ->]%Hres. rewrite length_app. simpl. lia.
  - rewrite length_app. lia.
  - by intros q1 q2 a [-> _]%Hres [-> _]%Hres.
  - intros q. split.
    + intros [a [-> _]%Hres]. by left.
    + intros [->%prefix_nil_inv|(m & Hm & _)]; [by eexists|].
      by apply elem_of_nil in Hm.
  - intros p r Hin. by apply elem_of_nil in Hin.
  - intros q a [_ ->]%Hres. lia.
  - intros p r (p' & Hin & _)%elem_of_mount_segs.
    rewrite Forall_forall in Hfresh.
    assert (Hr : h0 !! r = Some ∅).
    { apply Hfresh, list_elem_of_fmap. by exists (p', r). }
    split_and!.
    + by eapply lookup_lt_Some.
    + intros x. rewrite getStaticEntity_Resource. unfold getStaticEntity.
      by rewrite Hr.
    + intros x. apply lookup_empty.
  - intros a x c. by rewrite lookup_empty.
  - intros q a x c _. by rewrite lookup_empty.
  - intros q a x c [_ ->]%Hres. by rewrite Hleaf.
  - by rewrite app_nil_l, mount_segs_paths.
  - by rewrite app_nil_l, mount_segs_handlers.
  - by rewrite mount_segs_paths.
Qed.

(** On a mount list with distinct rooted paths and distinct childless
    resources that is clean, [create_resource_tree] returns a tree in
    which every mount is found at its path, whose paths are the prefixes
    of the mount paths, and whose other nodes it has made itself. *)
Lemma build_tree_correct ms h0 :
  Forall (fun m => rooted m.1 = true) ms →
  NoDup (path_segs <$> ms.*1) →
  NoDup ms.*2 →
  Forall (fun r => h0 !! r = Some ∅) ms.*2 →
  clean ms = true →
  ∃ root h,
    build_tree obj_str ms h0 = Ok (root, h)
    ∧ (∀ p r, (p, r) ∈ ms → resolve h root (path_segs p) = Some r)
    ∧ (∀ q, is_Some (resolve h root q)
            ↔ q = [] ∨ ∃ m, m ∈ ms ∧ q `prefix_of` path_segs m.1)
    ∧ (∀ q a, resolve h root q = Some a → a < List.length h0 →
              ∃ p, (p, a) ∈ ms ∧ path_segs p = q).
Proof.
  intros Hroot Hpaths Hhand Hfresh Hclean.
  pose proof (inv_init ms h0 Hpaths Hhand Hfresh Hclean) as I0.
  destruct (attach_all_spec obj_str _ _ rid_inj ms [] _ _ Hroot I0)
    as (h & M & Hrun & I).
  rewrite app_nil_r in I.
  exists (List.length h0), h. unfold build_tree, Resource. rewrite Hrun. cbn.
  destruct I as [_ _ _ Hdom Hmnt Hold _ _ _ _ _ _ _].
  split_and!; [done| | |].
  - intros p r Hin. apply Hmnt, elem_of_reverse, elem_of_mount_segs. eauto.
  - intros q. rewrite Hdom. split.
    + intros [->%prefix_nil_inv|([p r] & Hm & Hq)]; [by left|right].
      apply elem_of_reverse, elem_of_mount_segs in Hm as (p' & Hin & <-).
      by exists (p', r).
    + intros [->|([p r] & Hm & Hq)]; [by left|right].
      exists (path_segs p, r). split; [|done].
      apply elem_of_reverse, elem_of_mount_segs. eauto.
  - intros q a Ha Hlt.
    by apply elem_of_mount_segs, elem_of_reverse, Hold.
Qed.


End TreeCorrect.

(** ** The resource tree on sample mount lists *)

Section TreeSamples.

Lemma tally_rid_inj n1 : ∀ n2 s1 s2,
  tally n1 +:+ ">-" +:+ s1 = tally n2 +:+ ">-" +:+ s2 → n1 = n2 ∧ s1 = s2.
Proof.
  induction n1 as [|n1 IH]; intros [|n2] s1 s2 Heq;
    unfold String.append in Heq; fold String.append in Heq; simpl in Heq.
  - by simplify_eq.
  - discriminate.
  - discriminate.
  - injection Heq as Heq. by destruct (IH _ _ _ Heq) as [-> ->].
Qed.

Lemma string_app_assoc (a b c : string) : (a +:+ b) +:+ c = a +:+ b +:+ c.
Proof.
  induction a as [|x a IH]; [done|].
  unfold String.append; fold String.append. by f_equal.
Qed.

Lemma instance_str_rid_inj r1 r2 s1 s2 :
  _resource_id instance_str r1 s1 = _resource_id instance_str r2 s2 →
  r1 = r2 ∧ s1 = s2.
Proof.
  unfold _resource_id, instance_str. rewrite !string_app_assoc.
  intros Heq%(inj (String.append _)). by apply tally_rid_inj.
Qed.

End TreeSamples.

Section TreeClaims.



(** C1 fails on the code: [/a/b/c] is attached first, then [/a] steals
    the dummy child [b] without an entry in [resource_mappings], so that
    [/a/b] is attached over it and nothing is stolen. The tree is
    returned, [/a/b] has no child and [/a/b/c] is not found. It is the
    list that [create_resource_tree] makes of the prefixes [/a/b/c], [/a]
    and [/a/b] for the client, the federation and the content
    repository. *)
Lemma build_tree_loses_mount :
  match build_tree instance_str [("/a/b/c", 0); ("/a", 1); ("/a/b", 2)]
          three_resources with
  | Ok (root, h) =>
      resolve h root (path_segs "/a/b") = Some 2
      ∧ listNames h 2 = []
      ∧ resolve h root (path_segs "/a/b/c") = None
  | Raise _ => False
  end
  ∧ match create_resource_tree instance_str "/a/b/c" "/a" "/w" "/a/b"
            false true (new_home_server (store_with None)) with
    | (Ok root, hs) =>
        built hs !! "resource_for_client" = Some 0
        ∧ resolve (objects hs) root (path_segs "/a/b/c") = None
    | (Raise _, _) => False
    end.
Proof. vm_compute. split_and!; reflexivity. Qed.

(** C7 fails on the code: the first resource at [/a] has stolen its
    child [b] from a dummy, the second mount at [/a] looks that child up
    in [resource_mappings] and raises. It is the list that
    [create_resource_tree] makes of the prefixes [/a/b], [/a] and [/a]. *)
Lemma build_tree_same_path_raises :
  build_tree instance_str [("/a/b", 0); ("/a", 1); ("/a", 2)]
    three_resources
  = Raise (KeyError (_resource_id instance_str 1 "b"))
  ∧ (create_resource_tree instance_str "/a/b" "/a" "/w" "/a" false true
       (new_home_server (store_with None))).1
    = Raise (KeyError (_resource_id instance_str 1 "b")).
Proof. split; by vm_compute. Qed.

(** Two mounts with the same path are resolved when the children of the
    first were attached by the walk. *)
Lemma build_tree_same_path_resolved :
  match build_tree instance_str [("/a", 0); ("/a/b", 1); ("/a", 2)]
          three_resources with
  | Ok (root, h) =>
      resolve h root (path_segs "/a") = Some 2
      ∧ resolve h root (path_segs "/a/b") = Some 1
  | Raise _ => False
  end.
Proof. vm_compute. split_and!; reflexivity. Qed.

(** C10 fails on the code: the resources come without children and no
    two objects are printed alike, yet the walk to [/a/b/c] finds the
    stolen child [b] of [/a] by name and not in [resource_mappings]. It
    is the list that [create_resource_tree] makes of the prefixes [/a/b],
    [/a] and [/a/b/c]. *)
Lemma build_tree_walk_raises :
  Forall (fun r => three_resources !! r = Some ∅) [0; 1; 2]
  ∧ (∀ r1 r2 s1 s2,
       _resource_id instance_str r1 s1 = _resource_id instance_str r2 s2 →
       r1 = r2 ∧ s1 = s2)
  ∧ build_tree instance_str [("/a/b", 0); ("/a", 1); ("/a/b/c", 2)]
      three_resources
    = Raise (KeyError (_resource_id instance_str 1 "b"))
  ∧ (create_resource_tree instance_str "/a/b" "/a" "/w" "/a/b/c" false true
       (new_home_server (store_with None))).1
    = Raise (KeyError (_resource_id instance_str 1 "b")).
Proof.
  split_and!; [repeat constructor|apply instance_str_rid_inj|by vm_compute..].
Qed.

(** The placeholder case of the specification: [/a/b] before [/a]. *)
Lemma build_tree_placeholder_replaced :
  match build_tree instance_str [("/a/b", 0); ("/a", 1)] three_resources with
  | Ok (root, h) =>
      resolve h root (path_segs "/a") = Some 1
      ∧ getStaticEntity h 1 "b" = Some 0
  | Raise _ => False
  end.
Proof. vm_compute. split_and!; reflexivity. Qed.

End TreeClaims.

(** ** The database bootstrap *)

Section BootstrapFacts.

Variable read_schema : string → string.
Variable sqlite_accepts : list db_call → string → bool.
Variable db_name : string.

Abbreviation run_schemas' := (run_schemas read_schema sqlite_accepts).
Abbreviation build_db_pool' :=
  (build_db_pool read_schema sqlite_accepts db_name).

Implicit Types (s : store) (schemas : list string).

(** The loop over [SCHEMAS] does not touch the version. *)
Lemma run_schemas_row schemas : ∀ s,
  user_version_row (run_schemas' schemas s).2 = user_version_row s.
Proof.
  induction schemas as [|sql_loc schemas IH]; intros s; simpl; [done|].
  destruct (sqlite_accepts (calls s) (read_schema sql_loc)); [|done].
  by rewrite IH.
Qed.

(** It depends on the store through the calls made so far only. *)
Lemma run_schemas_calls schemas : ∀ s1 s2,
  calls s1 = calls s2 →
  (run_schemas' schemas s1).1 = (run_schemas' schemas s2).1
  ∧ calls (run_schemas' schemas s1).2 = calls (run_schemas' schemas s2).2.
Proof.
  induction schemas as [|sql_loc schemas IH]; intros s1 s2 Hcalls; simpl.
  - done.
  - rewrite Hcalls.
    destruct (sqlite_accepts (calls s2) (read_schema sql_loc)).
    + apply IH. simpl. by rewrite Hcalls.
    + simpl. by rewrite Hcalls.
Qed.

Lemma scripts_of_schema_calls schemas :
  scripts_of (schema_calls read_schema schemas) = read_schema <$> schemas.
Proof. induction schemas as [|x schemas IH]; simpl; [done|by f_equal]. Qed.

Lemma scripts_of_app cs1 cs2 :
  scripts_of (cs1 ++ cs2) = scripts_of cs1 ++ scripts_of cs2.
Proof. apply omap_app. Qed.

Lemma scripts_of_fresh_run schemas v :
  scripts_of (PragmaUserVersion :: schema_calls read_schema schemas
              ++ [SetUserVersion v; CursorClose])
  = read_schema <$> schemas.
Proof.
  change (scripts_of ([PragmaUserVersion] ++ schema_calls read_schema schemas
                      ++ [SetUserVersion v; CursorClose])
          = read_schema <$> schemas).
  rewrite !scripts_of_app, scripts_of_schema_calls. simpl.
  by rewrite app_nil_r.
Qed.

Lemma stamps_of_schema_calls schemas :
  stamps_of (schema_calls read_schema schemas) = [].
Proof. induction schemas as [|x schemas IH]; simpl; done. Qed.

(** A store with a version that is not zero. *)
Lemma build_db_pool_stamped s v :
  user_version_row s = Some v → v ≠ 0%Z →
  build_db_pool' s
  = if (v <? SCHEMA_VERSION)%Z
    then (Raise (ValueError v SCHEMA_VERSION), call PragmaUserVersion s)
    else (Ok (the_pool db_name),
          call CursorClose (call PragmaUserVersion s)).
Proof.
  intros Hrow Hv. unfold build_db_pool.
  change (user_version_row (call PragmaUserVersion s))
    with (user_version_row s).
  rewrite Hrow. simpl.
  destruct (Z.eqb_spec v 0) as [->|_]; [done|]. simpl.
  by destruct (v <? SCHEMA_VERSION)%Z.
Qed.

Lemma new_calls_app s cs r :
  new_calls s (mkStore r (calls s ++ cs)) = cs.
Proof. unfold new_calls. simpl. by rewrite drop_app_length. Qed.

(** Whatever sqlite accepts, the scripts are sent in the order of the
    list, none of them twice, and the loop stamps nothing. *)
Lemma run_schemas_prefix schemas : ∀ s,
  ∃ cs,
    calls (run_schemas' schemas s).2 = calls s ++ cs
    ∧ scripts_of cs `prefix_of` (read_schema <$> schemas)
    ∧ stamps_of cs = [].
Proof.
  induction schemas as [|sql_loc schemas IH]; intros s; simpl.
  - exists []. rewrite app_nil_r. done.
  - destruct (sqlite_accepts (calls s) (read_schema sql_loc)).
    + destruct (IH (call Commit (call (ExecuteScript (read_schema sql_loc)) s)))
        as (cs & Hcalls & Hpre & Hst).
      exists (ExecuteScript (read_schema sql_loc) :: Commit :: cs).
      split_and!.
      * rewrite Hcalls. simpl. by rewrite <- !app_assoc.
      * simpl. by apply prefix_cons.
      * done.
    + exists [ExecuteScript (read_schema sql_loc)]. split_and!; [done| |done].
      simpl. apply prefix_cons, prefix_nil.
Qed.

(** The loop returns when sqlite accepts every script as it is sent,
    after the scripts before it; all scripts have then been executed and
    committed, in the order of the list. *)
Lemma run_schemas_accepted_in_turn schemas : ∀ s,
  (∀ before sql_loc rest,
     schemas = before ++ sql_loc :: rest →
     sqlite_accepts (calls s ++ schema_calls read_schema before)
       (read_schema sql_loc) = true) →
  run_schemas' schemas s
  = (Ok (),
     mkStore (user_version_row s)
       (calls s ++ schema_calls read_schema schemas)).
Proof.
  induction schemas as [|sql_loc schemas IH]; intros s Hacc; simpl.
  - rewrite app_nil_r. by destruct s.
  - pose proof (Hacc [] sql_loc schemas eq_refl) as Hfirst.
    simpl in Hfirst. rewrite app_nil_r in Hfirst. rewrite Hfirst.
    rewrite IH.
    + simpl. by rewrite <- !app_assoc.
    + intros before loc' rest ->. simpl. rewrite <- !app_assoc.
      apply (Hacc (sql_loc :: before) loc' rest eq_refl).
Qed.

(** And only then. *)
Lemma run_schemas_ok schemas : ∀ s s',
  run_schemas' schemas s = (Ok (), s') →
  s' = mkStore (user_version_row s)
         (calls s ++ schema_calls read_schema schemas)
  ∧ ∀ before sql_loc rest,
      schemas = before ++ sql_loc :: rest →
      sqlite_accepts (calls s ++ schema_calls read_schema before)
        (read_schema sql_loc) = true.
Proof.
  induction schemas as [|sql_loc schemas IH]; intros s s'; simpl.
  - intros [= <-]. rewrite app_nil_r. split; [by destruct s|].
    by intros [|??] ?? ?.
  - destruct (sqlite_accepts (calls s) (read_schema sql_loc)) eqn:Hfirst;
      [|done].
    intros [-> Hrest]%IH. simpl. rewrite <- !app_assoc. split; [done|].
    intros [|x before] loc' rest; simpl.
    + intros [= <- <-]. by rewrite app_nil_r.
    + intros [= <- ->]. specialize (Hrest before loc' rest eq_refl).
      simpl in Hrest. by rewrite <- !app_assoc in Hrest.
Qed.

(** A store without a version: [build_db_pool] returns exactly when
    sqlite accepts every script as it is sent, and has then sent the
    version query, every script with its commit, the stamp and the close
    of the cursor, in this order. *)
Lemma build_db_pool_unstamped_run s r s' :
  row_and_row0 (user_version_row s) = false →
  build_db_pool read_schema sqlite_accepts db_name s = (r, s') →
  (is_ok r = true
   ↔ ∀ before sql_loc rest,
       SCHEMAS = before ++ sql_loc :: rest →
       sqlite_accepts
         (calls s ++ PragmaUserVersion :: schema_calls read_schema before)
         (read_schema sql_loc) = true)
  ∧ (is_ok r = true →
     r = Ok (the_pool db_name)
     ∧ s' = mkStore (Some SCHEMA_VERSION)
              (calls s ++ PragmaUserVersion
                 :: schema_calls read_schema SCHEMAS
                 ++ [SetUserVersion SCHEMA_VERSION; CursorClose])).
Proof.
  intros Hrow. unfold build_db_pool.
  change (user_version_row (call PragmaUserVersion s))
    with (user_version_row s).
  rewrite Hrow.
  destruct (run_schemas read_schema sqlite_accepts SCHEMAS
              (call PragmaUserVersion s)) as [[[]|e] s1] eqn:Hloop.
  - apply run_schemas_ok in Hloop as [-> Hacc]. intros [= <- <-].
    split; [split; [intros _|done]|intros _].
    + intros before sql_loc rest HS.
      specialize (Hacc before sql_loc rest HS). simpl in Hacc.
      by rewrite <- app_assoc in Hacc.
    + split; [done|]. unfold call, set_user_version. simpl.
      by rewrite <- !app_assoc.
  - intros [= <- <-]. split; [split; [done|]|done].
    intros Hacc. rewrite run_schemas_accepted_in_turn in Hloop; [done|].
    intros before sql_loc rest HS. simpl. rewrite <- app_assoc.
    by apply (Hacc before sql_loc rest).
Qed.

End BootstrapFacts.

Section BootstrapClaims.

Variable read_schema : string → string.
Variable sqlite_accepts : list db_call → string → bool.
Variable db_name : string.

Implicit Types (s : store) (pool : ConnectionPool).

(** C2 (as amended): when [build_db_pool] returns a pool, the version of
    the store is at least [SCHEMA_VERSION] afterwards: it is
    [SCHEMA_VERSION] when the store had no version (no row, or 0), and
    it is the version found, untouched, otherwise. A run that cannot
    establish this returns no pool. *)
Theorem build_db_pool_version_at_least s pool s' :
  build_db_pool read_schema sqlite_accepts db_name s = (Ok pool, s') →
  ∃ v,
    user_version_row s' = Some v
    ∧ (SCHEMA_VERSION ≤ v)%Z
    ∧ (row_and_row0 (user_version_row s) = false → v = SCHEMA_VERSION)
    ∧ (row_and_row0 (user_version_row s) = true →
       user_version_row s = Some v).
Proof.
  destruct (row_and_row0 (user_version_row s)) eqn:Hrow.
  - destruct (user_version_row s) as [v|] eqn:Hv; [|done].
    assert (v ≠ 0%Z) as Hv0.
    { intros ->. done. }
    rewrite (build_db_pool_stamped _ _ _ s v Hv Hv0).
    destruct (Z.ltb_spec v SCHEMA_VERSION); [done|].
    intros [= <- <-]. exists v. done.
  - unfold build_db_pool.
    change (user_version_row (call PragmaUserVersion s))
      with (user_version_row s).
    rewrite Hrow.
    destruct (run_schemas read_schema sqlite_accepts SCHEMAS
                (call PragmaUserVersion s)) as [[[]|e] s1]; [|done].
    intros [= <- <-]. exists SCHEMA_VERSION. done.
Qed.

(** C5: on a store without a version (no row, or the row 0 that a new
    sqlite file gives), [build_db_pool] returns exactly when sqlite
    accepts every script as it is sent, and a run that returns has sent,
    in this order, the version query, every script of [SCHEMAS] once,
    each followed by a commit, then the stamp [SCHEMA_VERSION] and the
    close of the cursor. Whatever sqlite accepts, the scripts sent are
    the first ones of [SCHEMAS], in order and none twice. On a store
    that has the version [SCHEMA_VERSION], no script is executed and
    nothing is stamped. *)
Theorem build_db_pool_applies_schemas_once s r s' :
  build_db_pool read_schema sqlite_accepts db_name s = (r, s') →
  NoDup SCHEMAS
  ∧ (user_version_row s = None ∨ user_version_row s = Some 0%Z →
     scripts_of (new_calls s s') `prefix_of` (read_schema <$> SCHEMAS)
     ∧ (is_ok r = true
        ↔ ∀ before sql_loc rest,
            SCHEMAS = before ++ sql_loc :: rest →
            sqlite_accepts
              (calls s
               ++ PragmaUserVersion :: schema_calls read_schema before)
              (read_schema sql_loc) = true)
     ∧ (is_ok r = true →
        r = Ok (the_pool db_name)
        ∧ new_calls s s'
          = PragmaUserVersion :: schema_calls read_schema SCHEMAS
            ++ [SetUserVersion SCHEMA_VERSION; CursorClose]
        ∧ scripts_of (new_calls s s') = read_schema <$> SCHEMAS
        ∧ stamps_of (new_calls s s') = [SCHEMA_VERSION]
        ∧ user_version_row s' = Some SCHEMA_VERSION))
  ∧ (user_version_row s = Some SCHEMA_VERSION →
     r = Ok (the_pool db_name)
     ∧ new_calls s s' = [PragmaUserVersion; CursorClose]
     ∧ scripts_of (new_calls s s') = []
     ∧ stamps_of (new_calls s s') = []).
Proof.
  intros Hrun. split_and!.
  - apply (bool_decide_unpack _). by vm_compute.
  - intros Hnone.
    assert (Hrow : row_and_row0 (user_version_row s) = false)
      by (by destruct Hnone as [-> | ->]).
    destruct (build_db_pool_unstamped_run _ _ _ s r s' Hrow Hrun)
      as [Hiff Hok].
    split_and!; [|done|].
    + revert Hrun. unfold build_db_pool.
      change (user_version_row (call PragmaUserVersion s))
        with (user_version_row s).
      rewrite Hrow.
      destruct (run_schemas_prefix read_schema sqlite_accepts SCHEMAS
                  (call PragmaUserVersion s)) as (cs & Hcalls & Hpre & _).
      destruct (run_schemas read_schema sqlite_accepts SCHEMAS
                  (call PragmaUserVersion s)) as [[[]|e] s1];
        simpl in Hcalls; intros [= <- <-]; unfold new_calls; simpl;
        rewrite Hcalls, <- !app_assoc, drop_app_length.
      * rewrite !scripts_of_app. simpl. rewrite app_nil_r. exact Hpre.
      * rewrite !scripts_of_app. simpl. exact Hpre.
    + intros [-> ->]%Hok. rewrite new_calls_app.
      split_and!; [done|done| | |done].
      * exact (scripts_of_fresh_run read_schema SCHEMAS SCHEMA_VERSION).
      * change (stamps_of ([PragmaUserVersion]
                           ++ schema_calls read_schema SCHEMAS
                           ++ [SetUserVersion SCHEMA_VERSION; CursorClose])
                = [SCHEMA_VERSION]).
        unfold stamps_of. rewrite !omap_app.
        fold (stamps_of (schema_calls read_schema SCHEMAS)).
        by rewrite stamps_of_schema_calls.
  - intros Hrow.
    rewrite (build_db_pool_stamped _ _ _ s _ Hrow) in Hrun by done.
    simpl in Hrun. injection Hrun as <- <-.
    unfold new_calls. simpl. rewrite <- app_assoc.
    by rewrite drop_app_length.
Qed.

(** C6 (as amended): on a store whose version is not zero and below
    [SCHEMA_VERSION], [build_db_pool] raises after it has read the
    version: no script is executed, no version is set, the version of
    the store is what it was, and there is no pool. *)
Theorem build_db_pool_stale_aborts s v :
  user_version_row s = Some v →
  v ≠ 0%Z →
  (v < SCHEMA_VERSION)%Z →
  ∃ s',
    build_db_pool read_schema sqlite_accepts db_name s
    = (Raise (ValueError v SCHEMA_VERSION), s')
    ∧ new_calls s s' = [PragmaUserVersion]
    ∧ scripts_of (new_calls s s') = []
    ∧ stamps_of (new_calls s s') = []
    ∧ user_version_row s' = user_version_row s.
Proof.
  intros Hrow Hv Hlt. rewrite (build_db_pool_stamped _ _ _ s v Hrow Hv).
  apply Z.ltb_lt in Hlt. rewrite Hlt.
  eexists. split; [done|].
  unfold new_calls. simpl. by rewrite drop_app_length.
Qed.

(** C8: the pool that [build_db_pool] returns is made with [cp_min=1]
    and [cp_max=1]: it holds one connection, never more. *)
Theorem build_db_pool_one_connection s pool s' :
  build_db_pool read_schema sqlite_accepts db_name s = (Ok pool, s') →
  cp_min pool = 1 ∧ cp_max pool = 1.
Proof.
  unfold build_db_pool.
  destruct (row_and_row0 _).
  - destruct (_ <? _)%Z; [done|]. by intros [= <- _].
  - destruct (run_schemas _ _ _ _) as [[[]|e] s1]; [|done].
    by intros [= <- _].
Qed.

(** C9: a store whose version reads 0 is treated as a store without a
    version row: the outcome and the calls are the same, and so is the
    store left by a run that returns. The run returns exactly when sqlite
    accepts every script as it is sent, and it has then executed every
    script of [SCHEMAS], in order, and set [SCHEMA_VERSION]. *)
Theorem build_db_pool_zero_as_unstamped s :
  user_version_row s = Some 0%Z →
  let '(r0, s0) := build_db_pool read_schema sqlite_accepts db_name s in
  let '(rn, sn) := build_db_pool read_schema sqlite_accepts db_name
                    (mkStore None (calls s)) in
  r0 = rn
  ∧ calls s0 = calls sn
  ∧ (is_ok r0 = true → s0 = sn)
  ∧ (is_ok r0 = true
     ↔ ∀ before sql_loc rest,
         SCHEMAS = before ++ sql_loc :: rest →
         sqlite_accepts
           (calls s ++ PragmaUserVersion :: schema_calls read_schema before)
           (read_schema sql_loc) = true)
  ∧ (is_ok r0 = true →
     r0 = Ok (the_pool db_name)
     ∧ new_calls s s0
       = PragmaUserVersion :: schema_calls read_schema SCHEMAS
         ++ [SetUserVersion SCHEMA_VERSION; CursorClose]
     ∧ scripts_of (new_calls s s0) = read_schema <$> SCHEMAS
     ∧ stamps_of (new_calls s s0) = [SCHEMA_VERSION]
     ∧ user_version_row s0 = Some SCHEMA_VERSION).
Proof.
  intros Hrow.
  destruct (build_db_pool read_schema sqlite_accepts db_name s)
    as [r0 s0] eqn:Hrun0.
  destruct (build_db_pool read_schema sqlite_accepts db_name
                    (mkStore None (calls s))) as [rn sn] eqn:Hrunn.
  assert (Hrow0 : row_and_row0 (user_version_row s) = false)
    by (by rewrite Hrow).
  destruct (build_db_pool_unstamped_run _ _ _ s r0 s0 Hrow0 Hrun0)
    as [Hiff Hok].
  assert (Hfirst :
    r0 = rn ∧ calls s0 = calls sn ∧ (is_ok r0 = true → s0 = sn)).
  { revert Hrun0 Hrunn. unfold build_db_pool.
    change (user_version_row (call PragmaUserVersion s))
      with (user_version_row s).
    rewrite Hrow. simpl row_and_row0. cbv iota.
    destruct (run_schemas_calls read_schema sqlite_accepts SCHEMAS
                (call PragmaUserVersion s)
                (call PragmaUserVersion (mkStore None (calls s))))
      as [Hr Hc]; [done|].
    destruct (run_schemas read_schema sqlite_accepts SCHEMAS
                (call PragmaUserVersion s)) as [[[]|e0] s1],
             (run_schemas read_schema sqlite_accepts SCHEMAS
                (call PragmaUserVersion (mkStore None (calls s))))
      as [[[]|en] s2]; simpl in Hr, Hc; try done.
    - intros [= <- <-] [= <- <-].
      unfold call, set_user_version. simpl. by rewrite Hc.
    - intros [= <- <-] [= <- <-]. simpl. by injection Hr as ->. }
  destruct Hfirst as (Hr & Hc & Hs). split_and!; [done..|].
  intros [-> ->]%Hok. rewrite new_calls_app.
  split_and!; [done|done| | |done].
  - exact (scripts_of_fresh_run read_schema SCHEMAS SCHEMA_VERSION).
  - change (stamps_of ([PragmaUserVersion]
                       ++ schema_calls read_schema SCHEMAS
                       ++ [SetUserVersion SCHEMA_VERSION; CursorClose])
            = [SCHEMA_VERSION]).
    unfold stamps_of. rewrite !omap_app.
    fold (stamps_of (schema_calls read_schema SCHEMAS)).
    by rewrite stamps_of_schema_calls.
Qed.

End BootstrapClaims.

Section BootstrapSamples.

(** C2 holds on a store without a version. *)
Lemma build_db_pool_version_at_least_witness :
  ∃ v,
    user_version_row
      (build_db_pool id accept_all "hs.db" (store_with None)).2 = Some v
    ∧ (SCHEMA_VERSION ≤ v)%Z
    ∧ (row_and_row0 (user_version_row (store_with None)) = false →
       v = SCHEMA_VERSION)
    ∧ (row_and_row0 (user_version_row (store_with None)) = true →
       user_version_row (store_with None) = Some v).
Proof.
  apply (build_db_pool_version_at_least id accept_all "hs.db"
           (store_with None) (the_pool "hs.db")).
  reflexivity.
Defined.

(** C2 fails as stated: a store with the version 2 is taken as it is;
    the pool is returned and the version is not [SCHEMA_VERSION]. *)
Lemma build_db_pool_keeps_newer_version :
  build_db_pool id accept_all "hs.db" (store_with (Some 2%Z))
  = (Ok (the_pool "hs.db"),
     mkStore (Some 2%Z) [PragmaUserVersion; CursorClose])
  ∧ Some 2%Z ≠ Some SCHEMA_VERSION.
Proof. split; [reflexivity|discriminate]. Qed.

(** C5 on a new sqlite file, whose version reads 0, with a sqlite that
    accepts the scripts of [SCHEMAS] and nothing else; and on the store
    that this run leaves. *)
Lemma build_db_pool_applies_schemas_once_witness :
  let run :=
    build_db_pool id accept_schemas "hs.db" (store_with (Some 0%Z)) in
  let rerun := build_db_pool id accept_schemas "hs.db" run.2 in
  run.1 = Ok (the_pool "hs.db")
  ∧ scripts_of (new_calls (store_with (Some 0%Z)) run.2) = SCHEMAS
  ∧ stamps_of (new_calls (store_with (Some 0%Z)) run.2) = [SCHEMA_VERSION]
  ∧ rerun.1 = Ok (the_pool "hs.db")
  ∧ scripts_of (new_calls run.2 rerun.2) = [].
Proof.
  intros run rerun.
  destruct (build_db_pool_applies_schemas_once id accept_schemas "hs.db"
              (store_with (Some 0%Z)) run.1 run.2) as (_ & Hfresh & _).
  { apply surjective_pairing. }
  destruct (build_db_pool_applies_schemas_once id accept_schemas "hs.db"
              run.2 rerun.1 rerun.2) as (_ & _ & Hcurrent).
  { apply surjective_pairing. }
  destruct (Hfresh (or_intror eq_refl)) as (_ & _ & Hok).
  destruct (Hok eq_refl) as (Hpool & _ & Hscripts & Hstamps & _).
  destruct (Hcurrent eq_refl) as (Hpool' & _ & Hnone & _).
  split_and!; [exact Hpool|exact Hscripts|exact Hstamps|exact Hpool'|
               exact Hnone].
Defined.

(** C6 on a store with the version -1. *)
Lemma build_db_pool_stale_aborts_witness :
  ∃ s',
    build_db_pool id accept_all "hs.db" (store_with (Some (-1)%Z))
    = (Raise (ValueError (-1) SCHEMA_VERSION), s')
    ∧ new_calls (store_with (Some (-1)%Z)) s' = [PragmaUserVersion]
    ∧ scripts_of (new_calls (store_with (Some (-1)%Z)) s') = []
    ∧ stamps_of (new_calls (store_with (Some (-1)%Z)) s') = []
    ∧ user_version_row s' = user_version_row (store_with (Some (-1)%Z)).
Proof.
  apply (build_db_pool_stale_aborts id accept_all "hs.db"
           (store_with (Some (-1)%Z)) (-1)%Z).
  - reflexivity.
  - discriminate.
  - reflexivity.
Defined.

(** C6 fails as stated: the version 0 is below [SCHEMA_VERSION], and the
    store is initialised, stamped and handed out in a pool. *)
Lemma build_db_pool_zero_not_stale :
  (0 < SCHEMA_VERSION)%Z
  ∧ ∃ s',
      build_db_pool id accept_all "hs.db" (store_with (Some 0%Z))
      = (Ok (the_pool "hs.db"), s')
      ∧ scripts_of (calls s') = SCHEMAS
      ∧ stamps_of (calls s') = [SCHEMA_VERSION]
      ∧ user_version_row s' = Some SCHEMA_VERSION.
Proof. split; [reflexivity|]. eexists. split_and!; reflexivity. Qed.

(** C8 on a store without a version. *)
Lemma build_db_pool_one_connection_witness :
  cp_min (the_pool "hs.db") = 1 ∧ cp_max (the_pool "hs.db") = 1.
Proof.
  apply (build_db_pool_one_connection id accept_all "hs.db"
           (store_with None) (the_pool "hs.db")
           (build_db_pool id accept_all "hs.db" (store_with None)).2).
  reflexivity.
Defined.

(** C9 on a store whose version reads 0, with the same sqlite. *)
Lemma build_db_pool_zero_as_unstamped_witness :
  build_db_pool id accept_schemas "hs.db" (store_with (Some 0%Z))
  = build_db_pool id accept_schemas "hs.db" (store_with None)
  ∧ scripts_of
      (new_calls (store_with (Some 0%Z))
         (build_db_pool id accept_schemas "hs.db"
            (store_with (Some 0%Z))).2)
    = SCHEMAS.
Proof.
  pose proof (build_db_pool_zero_as_unstamped id accept_schemas "hs.db"
                (store_with (Some 0%Z)) eq_refl) as H.
  change (mkStore None (calls (store_with (Some 0%Z))))
    with (store_with None) in H.
  assert (Hok : is_ok (build_db_pool id accept_schemas "hs.db"
                         (store_with (Some 0%Z))).1 = true)
    by reflexivity.
  destruct (build_db_pool id accept_schemas "hs.db" (store_with (Some 0%Z)))
    as [r0 s0].
  destruct (build_db_pool id accept_schemas "hs.db" (store_with None))
    as [rn sn].
  destruct H as (Hr & _ & Hs & _ & Hall).
  destruct (Hall Hok) as (_ & _ & Hscripts & _).
  split; [|exact Hscripts].
  rewrite <- Hr, Hs; [reflexivity|exact Hok].
Defined.

End BootstrapSamples.

(** ** The order of start-up *)

Section SetupFacts.

Variable obj_str : loc → string.
Variable read_schema : string → string.
Variable sqlite_accepts : list db_call → string → bool.
Variables CLIENT_PREFIX FEDERATION_PREFIX WEB_CLIENT_PREFIX
  CONTENT_REPO_PREFIX : string.
Variable register_servlets : HomeServer → HomeServer.

Lemma get_resource_for_outside depname hs :
  same_outside hs (get_resource_for depname hs).2.
Proof.
  unfold get_resource_for. by destruct (built hs !! depname).
Qed.

Lemma same_outside_trans hs1 hs2 hs3 :
  same_outside hs1 hs2 → same_outside hs2 hs3 → same_outside hs1 hs3.
Proof.
  intros (? & ? & ? & ?) (? & ? & ? & ?). unfold same_outside.
  split_and!; congruence.
Qed.

(** Building the tree starts nothing and does not open the store. *)
Lemma create_resource_tree_outside web redirect hs :
  same_outside hs
    (create_resource_tree obj_str CLIENT_PREFIX FEDERATION_PREFIX
       WEB_CLIENT_PREFIX CONTENT_REPO_PREFIX web redirect hs).2.
Proof.
  unfold create_resource_tree.
  pose proof (get_resource_for_outside "resource_for_client" hs) as H1.
  destruct (get_resource_for "resource_for_client" hs) as [client hs1].
  pose proof (get_resource_for_outside "resource_for_federation" hs1) as H2.
  destruct (get_resource_for "resource_for_federation" hs1)
    as [federation hs2].
  pose proof (get_resource_for_outside "resource_for_content_repo" hs2)
    as H3.
  destruct (get_resource_for "resource_for_content_repo" hs2)
    as [content_repo hs3].
  simpl in H1, H2, H3.
  assert (H13 : same_outside hs hs3) by eauto using same_outside_trans.
  destruct web.
  - pose proof (get_resource_for_outside "resource_for_web_client" hs3)
      as H4.
    destruct (get_resource_for "resource_for_web_client" hs3) as [web hs4].
    simpl in H4.
    assert (H14 : same_outside hs hs4) by eauto using same_outside_trans.
    by destruct (build_tree obj_str _ (objects hs4)) as [[root h]|e].
  - by destruct (build_tree obj_str _ (objects hs3)) as [[root h]|e].
Qed.

End SetupFacts.



(** * Further properties of the bootstrap *)

Section BootstrapMore.

Variable read_schema : string → string.
Variable sqlite_accepts : list db_call → string → bool.
Variable db_name : string.

Implicit Types (s : store) (schemas : list string).

(** A run that returns a pool leaves a version that passes the check. *)
Lemma build_db_pool_ok_inv s pool s' :
  build_db_pool read_schema sqlite_accepts db_name s = (Ok pool, s') →
  pool = the_pool db_name
  ∧ ∃ v, user_version_row s' = Some v ∧ v ≠ 0%Z
         ∧ (v <? SCHEMA_VERSION)%Z = false.
Proof.
  destruct (row_and_row0 (user_version_row s)) eqn:Hrow.
  - destruct (user_version_row s) as [v|] eqn:Hv; [|done].
    assert (v ≠ 0%Z) as Hv0 by (by intros ->).
    rewrite (build_db_pool_stamped _ _ _ s v Hv Hv0).
    destruct (v <? SCHEMA_VERSION)%Z eqn:Hlt; [done|].
    intros [= <- <-]. split; [done|]. exists v. done.
  - unfold build_db_pool.
    change (user_version_row (call PragmaUserVersion s))
      with (user_version_row s).
    rewrite Hrow.
    destruct (run_schemas read_schema sqlite_accepts SCHEMAS
                (call PragmaUserVersion s)) as [[[]|e] s1]; [|done].
    intros [= <- <-]. split; [done|]. exists SCHEMA_VERSION. done.
Qed.

(** X1: running [build_db_pool] again on the store that a successful run
    has left executes no script and sets no version: it reads the version,
    closes the cursor and returns the same pool. *)
Theorem build_db_pool_rerun s pool s' :
  build_db_pool read_schema sqlite_accepts db_name s = (Ok pool, s') →
  build_db_pool read_schema sqlite_accepts db_name s'
  = (Ok pool, mkStore (user_version_row s')
                (calls s' ++ [PragmaUserVersion; CursorClose])).
Proof.
  intros (-> & v & Hv & Hv0 & Hlt)%build_db_pool_ok_inv.
  rewrite (build_db_pool_stamped _ _ _ s' v Hv Hv0), Hlt.
  unfold call. simpl. by rewrite <- app_assoc.
Qed.

End BootstrapMore.

(** ** The bootstrap when any request may fail *)

Section BootstrapIOFacts.

Variable read_schema : string → string.
Variable raises : list db_call → io_op → option string.

Implicit Types (s : store) (ops before rest : list io_op) (op : io_op)
  (cs : list db_call) (schemas : list string).

Abbreviation asks' := (asks raises).
Abbreviation quiet' := (quiet raises).

Lemma all_sent_app ops1 ops2 cs :
  all_sent (ops1 ++ ops2) cs = all_sent ops2 (all_sent ops1 cs).
Proof. apply foldl_app. Qed.

Lemma all_served_app ops1 ops2 row :
  all_served (ops1 ++ ops2) row = all_served ops2 (all_served ops1 row).
Proof. apply foldl_app. Qed.

Lemma quiet_app ops1 : ∀ ops2 cs,
  quiet' (ops1 ++ ops2) cs
  = quiet' ops1 cs && quiet' ops2 (all_sent ops1 cs).
Proof.
  induction ops1 as [|op ops1 IH]; intros ops2 cs; simpl; [done|].
  destruct (raises cs op); [done|]. apply IH.
Qed.

(** Either no request raises, or there is a first one that does. *)
Lemma quiet_cases ops : ∀ cs,
  quiet' ops cs = true
  ∨ ∃ before op rest err,
      ops = before ++ op :: rest
      ∧ quiet' before cs = true
      ∧ raises (all_sent before cs) op = Some err.
Proof.
  induction ops as [|op ops IH]; intros cs; simpl; [by left|].
  destruct (raises cs op) as [err|] eqn:Hop.
  - right. by exists [], op, ops, err.
  - destruct (IH (sent op cs)) as [Hq|(before & op' & rest & err & -> & Hq & Hr)];
      [by left|].
    right. exists (op :: before), op', rest, err. simpl. by rewrite Hop.
Qed.

Lemma asks_quiet ops : ∀ s,
  quiet' ops (calls s) = true →
  asks' ops s
  = (Returned (),
     mkStore (all_served ops (user_version_row s))
       (all_sent ops (calls s))).
Proof.
  induction ops as [|op ops IH]; intros s; simpl.
  - by destruct s.
  - unfold mbind, io_bind, ask.
    destruct (raises (calls s) op) as [err|] eqn:Hop; [done|].
    intros Hq. by rewrite IH.
Qed.

Lemma asks_refused before : ∀ op rest err s,
  quiet' before (calls s) = true →
  raises (all_sent before (calls s)) op = Some err →
  asks' (before ++ op :: rest) s
  = (Thrown (Failed op err),
     mkStore (all_served before (user_version_row s))
       (sent op (all_sent before (calls s)))).
Proof.
  induction before as [|op0 before IH]; intros op rest err s; simpl.
  - intros _ Hop. unfold mbind, io_bind, ask. by rewrite Hop.
  - unfold mbind, io_bind, ask.
    destruct (raises (calls s) op0) as [err0|] eqn:Hop0; [done|].
    intros Hq Hop. by rewrite (IH op rest err).
Qed.

Lemma asks_app ops1 : ∀ ops2 s,
  asks' (ops1 ++ ops2) s = (_ ← asks' ops1; asks' ops2) s.
Proof.
  induction ops1 as [|op ops1 IH]; intros ops2 s; simpl.
  - done.
  - unfold mbind, io_bind in *.
    destruct (ask raises op s) as [[[]|e] s1]; [|done]. apply IH.
Qed.

Lemma run_schemas_io_asks schemas : ∀ s,
  run_schemas_io read_schema raises schemas s
  = asks' (script_requests read_schema schemas) s.
Proof.
  induction schemas as [|sql_loc schemas IH]; intros s; simpl; [done|].
  unfold mbind, io_bind.
  destruct (ask raises (ReadSchema sql_loc) s) as [[[]|e1] s1]; [|done].
  destruct (ask raises (Send (ExecuteScript (read_schema sql_loc))) s1)
    as [[[]|e2] s2]; [|done].
  destruct (ask raises (Send Commit) s2) as [[[]|e3] s3]; [|done].
  apply IH.
Qed.

Lemma all_sent_script_requests schemas : ∀ cs,
  all_sent (script_requests read_schema schemas) cs
  = cs ++ schema_calls read_schema schemas.
Proof.
  induction schemas as [|sql_loc schemas IH]; intros cs; simpl.
  - by rewrite app_nil_r.
  - unfold all_sent in *. simpl. rewrite IH. by rewrite <- !app_assoc.
Qed.

Lemma all_served_script_requests schemas : ∀ row,
  all_served (script_requests read_schema schemas) row = row.
Proof.
  induction schemas as [|sql_loc schemas IH]; intros row; simpl; [done|].
  apply IH.
Qed.

(** The body of the [with] block makes the requests of [body_requests]
    up to the first that raises; the version is checked after the first
    three. *)
Lemma with_block_body_asks s :
  with_block_body read_schema raises s
  = match asks' (body_requests read_schema (user_version_row s)) s with
    | (Returned _, s1) =>
        if stale (user_version_row s) then
          (Thrown (StaleVersion (default 0%Z (user_version_row s))
                     SCHEMA_VERSION), s1)
        else (Returned (), s1)
    | (Thrown e, s1) => (Thrown e, s1)
    end.
Proof.
  unfold with_block_body, body_requests, stale.
  generalize SCHEMAS. intros schemas.
  cbn [app asks]. unfold mbind, io_bind, ask, fetched_row.
  destruct (raises (calls s) Cursor); [done|]. cbn [calls sent].
  destruct (raises (calls s) (Send PragmaUserVersion)); [done|].
  cbn [calls sent].
  destruct (raises (calls s ++ [PragmaUserVersion]) Fetchone); [done|].
  cbn [calls sent user_version_row served].
  destruct (row_and_row0 (user_version_row s)); cbn [andb].
  - destruct (default 0%Z (user_version_row s) <? SCHEMA_VERSION)%Z; [done|].
    cbn [asks]. unfold mret, io_ret, mbind, io_bind, ask.
    cbn [calls user_version_row].
    by destruct (raises (calls s ++ [PragmaUserVersion]) (Send CursorClose)).
  - rewrite run_schemas_io_asks, asks_app. unfold mbind, io_bind.
    destruct (asks' (script_requests read_schema schemas) _)
      as [[[]|e] s4]; [|done].
    cbn [asks]. unfold mret, io_ret, mbind, io_bind, ask.
    destruct (raises (calls s4) (Send (SetUserVersion SCHEMA_VERSION)));
      [done|].
    cbn [calls sent].
    by destruct (raises (calls s4 ++ [SetUserVersion SCHEMA_VERSION])
                   (Send CursorClose)).
Qed.

(** [build_db_pool_io] in terms of its requests. *)
Lemma build_db_pool_io_asks db_name s :
  build_db_pool_io read_schema raises db_name s
  = match raises (calls s) (Connect db_name) with
    | Some err => (Thrown (Failed (Connect db_name) err), s)
    | None =>
        match asks' (body_requests read_schema (user_version_row s)) s with
        | (Returned _, s1) =>
            if stale (user_version_row s) then
              match raises (calls s1) ExitRollback with
              | None =>
                  (Thrown (StaleVersion (default 0%Z (user_version_row s))
                             SCHEMA_VERSION), s1)
              | Some err => (Thrown (Failed ExitRollback err), s1)
              end
            else
              match raises (calls s1) ExitCommit with
              | None => (Returned (the_pool db_name), s1)
              | Some err => (Thrown (Failed ExitCommit err), s1)
              end
        | (Thrown e, s1) =>
            match raises (calls s1) ExitRollback with
            | None => (Thrown e, s1)
            | Some err => (Thrown (Failed ExitRollback err), s1)
            end
        end
    end.
Proof.
  unfold build_db_pool_io, with_connection.
  unfold mbind at 1. unfold io_bind at 1. unfold ask at 1.
  destruct (raises (calls s) (Connect db_name)) as [err|]; [by destruct s|].
  cbn [sent served].
  replace (mkStore (user_version_row s) (calls s)) with s by (by destruct s).
  unfold mbind at 1. unfold io_bind at 1.
  rewrite with_block_body_asks.
  destruct (asks' (body_requests read_schema (user_version_row s)) s)
    as [[[]|e] s1].
  - destruct (stale (user_version_row s)).
    + unfold mbind, io_bind, ask, throw. cbn [sent served].
      destruct (raises (calls s1) ExitRollback); by destruct s1.
    + unfold mbind, io_bind, ask, mret, io_ret. cbn [sent served].
      destruct (raises (calls s1) ExitCommit); by destruct s1.
  - unfold mbind, io_bind, ask, throw. cbn [sent served].
    destruct (raises (calls s1) ExitRollback); by destruct s1.
Qed.

Lemma sent_prefix op cs : cs `prefix_of` sent op cs.
Proof. destruct op; try done. by apply prefix_app_r. Qed.

Lemma all_sent_prefix ops : ∀ cs, cs `prefix_of` all_sent ops cs.
Proof.
  induction ops as [|op ops IH]; intros cs; [done|].
  change (cs `prefix_of` all_sent ops (sent op cs)).
  etrans; [apply sent_prefix|apply IH].
Qed.

Lemma new_calls_all_sent s row ops :
  ∃ cs, all_sent ops (calls s) = calls s ++ cs
        ∧ new_calls s (mkStore row (all_sent ops (calls s))) = cs.
Proof.
  destruct (all_sent_prefix ops (calls s)) as [cs Hcs]. exists cs.
  split; [done|]. unfold new_calls. cbn [calls]. rewrite Hcs.
  apply drop_app_length.
Qed.

(** The calls of the body of the [with] block when nothing raises. *)
Lemma all_sent_body_requests row cs :
  all_sent (body_requests read_schema row) cs
  = cs ++ PragmaUserVersion
       :: (if row_and_row0 row then
             if stale row then [] else [CursorClose]
           else
             schema_calls read_schema SCHEMAS
             ++ [SetUserVersion SCHEMA_VERSION; CursorClose]).
Proof.
  unfold body_requests. rewrite all_sent_app.
  change (all_sent [Cursor; Send PragmaUserVersion; Fetchone] cs)
    with (cs ++ [PragmaUserVersion]).
  destruct (row_and_row0 row).
  - destruct (stale row).
    + done.
    + unfold all_sent. cbn [foldl sent]. by rewrite <- app_assoc.
  - rewrite all_sent_app, all_sent_script_requests.
    unfold all_sent. cbn [foldl sent]. by rewrite <- !app_assoc.
Qed.

Lemma all_served_body_requests row :
  all_served (body_requests read_schema row) row
  = if row_and_row0 row then row else Some SCHEMA_VERSION.
Proof.
  unfold body_requests. rewrite all_served_app.
  change (all_served [Cursor; Send PragmaUserVersion; Fetchone] row)
    with row.
  destruct (row_and_row0 row).
  - by destruct (stale row).
  - by rewrite all_served_app, all_served_script_requests.
Qed.

Lemma new_calls_body s row row' :
  new_calls s
    (mkStore row' (all_sent (body_requests read_schema row) (calls s)))
  = PragmaUserVersion
    :: (if row_and_row0 row then
          if stale row then [] else [CursorClose]
        else
          schema_calls read_schema SCHEMAS
          ++ [SetUserVersion SCHEMA_VERSION; CursorClose]).
Proof.
  unfold new_calls. cbn [calls].
  by rewrite all_sent_body_requests, drop_app_length.
Qed.

Lemma script_requests_app schemas1 schemas2 :
  script_requests read_schema (schemas1 ++ schemas2)
  = script_requests read_schema schemas1
    ++ script_requests read_schema schemas2.
Proof. unfold script_requests. apply bind_app. Qed.

Lemma stale_inv row :
  stale row = true →
  ∃ v, row = Some v ∧ v ≠ 0%Z ∧ (v < SCHEMA_VERSION)%Z.
Proof.
  unfold stale. destruct row as [v|]; [|done]. simpl.
  intros [Hv Hlt]%andb_true_iff. exists v. split_and!; [done| |].
  - intros ->. done.
  - by apply Z.ltb_lt.
Qed.

Lemma no_stamp_script_requests schemas :
  no_stamp (script_requests read_schema schemas) = true.
Proof. induction schemas as [|sql_loc schemas IH]; [done|exact IH]. Qed.

(** Requests that do not set the version leave it as it is and send no
    stamp, whether one of them raises or not. *)
Lemma asks_no_stamp ops : ∀ s,
  no_stamp ops = true →
  user_version_row (asks' ops s).2 = user_version_row s
  ∧ ∃ cs, calls (asks' ops s).2 = calls s ++ cs ∧ stamps_of cs = [].
Proof.
  induction ops as [|op ops IH]; intros s; cbn [asks no_stamp forallb].
  - intros _. split; [done|]. exists []. by rewrite app_nil_r.
  - intros [Hop Hops]%andb_true_iff.
    unfold mbind, io_bind, ask.
    destruct (raises (calls s) op) as [err|].
    + cbn [snd user_version_row calls]. split; [done|].
      destruct op as [| | | |c| |]; try (exists []; by rewrite app_nil_r).
      exists [c]. split; [done|]. by destruct c.
    + destruct (IH (mkStore (served op (user_version_row s))
                      (sent op (calls s))) Hops) as (Hrow & cs & Hcs & Hst).
      cbn [user_version_row calls] in Hrow, Hcs.
      rewrite Hrow, Hcs. split.
      * destruct op as [| | | |c| |]; try done. by destruct c.
      * destruct op as [| | | |c| |]; try (by exists cs).
        exists (c :: cs). cbn [sent]. rewrite <- app_assoc.
        split; [done|]. destruct c; try done.
Qed.

(** The version is set last: the stamp is sent only on a store without a
    version, after every script has been executed and committed. *)
Lemma asks_body_stamps_last s :
  let s1 := (asks' (body_requests read_schema (user_version_row s)) s).2 in
  (stamps_of (new_calls s s1) = []
   ∧ user_version_row s1 = user_version_row s)
  ∨ (row_and_row0 (user_version_row s) = false
     ∧ ∃ tail,
         new_calls s s1
         = PragmaUserVersion :: schema_calls read_schema SCHEMAS
           ++ SetUserVersion SCHEMA_VERSION :: tail
         ∧ (tail = [] ∨ tail = [CursorClose])
         ∧ match raises (calls s ++ PragmaUserVersion
                           :: schema_calls read_schema SCHEMAS)
                  (Send (SetUserVersion SCHEMA_VERSION)) with
           | None => user_version_row s1 = Some SCHEMA_VERSION
           | Some _ => tail = [] ∧ user_version_row s1 = user_version_row s
           end).
Proof.
  intros s1. subst s1. unfold body_requests.
  destruct (row_and_row0 (user_version_row s)) eqn:Hrow.
  - left.
    destruct (asks_no_stamp
                ([Cursor; Send PragmaUserVersion; Fetchone]
                 ++ (if stale (user_version_row s) then []
                     else [Send CursorClose])) s)
      as (Hr & cs & Hcs & Hst).
    { by destruct (stale (user_version_row s)). }
    split; [|done]. unfold new_calls. by rewrite Hcs, drop_app_length.
  - set (first := [Cursor; Send PragmaUserVersion; Fetchone]
                  ++ script_requests read_schema SCHEMAS).
    rewrite (app_assoc _ _ [_; _]). fold first.
    assert (Hfirst : no_stamp first = true).
    { unfold first, no_stamp. rewrite forallb_app.
      apply andb_true_iff. split; [done|].
      apply no_stamp_script_requests. }
    assert (Happ :
      asks' (first ++ [Send (SetUserVersion SCHEMA_VERSION);
                       Send CursorClose]) s
      = match asks' first s with
        | (Returned _, s1) =>
            asks' [Send (SetUserVersion SCHEMA_VERSION); Send CursorClose]
              s1
        | (Thrown e, s1) => (Thrown e, s1)
        end) by (by rewrite asks_app).
    rewrite Happ. clear Happ.
    destruct (quiet_cases first (calls s))
      as [Hq|(before & op & rest & err & Hsplit & Hq & Hop)].
    + right. split; [done|]. rewrite asks_quiet by done.
      replace (all_sent first (calls s))
        with (calls s ++ PragmaUserVersion
                :: schema_calls read_schema SCHEMAS).
      2:{ unfold first. rewrite all_sent_app, all_sent_script_requests.
          unfold all_sent. cbn [foldl sent]. by rewrite <- app_assoc. }
      replace (all_served first (user_version_row s))
        with (user_version_row s).
      2:{ unfold first.
          by rewrite all_served_app, all_served_script_requests. }
      cbn [asks]. unfold mbind, io_bind, ask, mret, io_ret.
      cbn [calls user_version_row sent served].
      destruct (raises _ (Send (SetUserVersion SCHEMA_VERSION)))
        as [err|] eqn:Hstamp.
      * exists []. cbn [snd]. unfold new_calls. cbn [calls user_version_row].
        rewrite <- app_assoc, drop_app_length. cbn [app].
        split_and!; by auto.
      * exists [CursorClose].
        destruct (raises _ (Send CursorClose)); cbn [snd];
          unfold new_calls; cbn [calls user_version_row];
          rewrite <- !app_assoc, drop_app_length; cbn [app];
          split_and!; by auto.
    + left.
      destruct (asks_no_stamp first s Hfirst) as (Hr & cs & Hcs & Hst).
      rewrite Hsplit, (asks_refused _ _ rest _ _ Hq Hop) in Hr, Hcs |- *.
      cbn [snd] in *. split; [|done].
      unfold new_calls. by rewrite Hcs, drop_app_length.
Qed.

End BootstrapIOFacts.

Section BootstrapIORefines.

Variable read_schema : string → string.
Variable sqlite_accepts : list db_call → string → bool.
Variable err : string.

Lemma run_schemas_io_only_scripts schemas : ∀ row cs,
  run_schemas_io read_schema (only_scripts sqlite_accepts err) schemas
    (mkStore row cs)
  = match run_schemas read_schema sqlite_accepts schemas (mkStore row cs)
    with
    | (Ok _, s1) => (Returned (), s1)
    | (Raise e, s1) => (Thrown (as_thrown err e), s1)
    end.
Proof.
  induction schemas as [|sql_loc schemas IH]; intros row cs; [done|].
  cbn [run_schemas_io run_schemas].
  unfold mbind, io_bind, ask, only_scripts, call.
  cbn [calls user_version_row sent served].
  destruct (sqlite_accepts cs (read_schema sql_loc)); [|done].
  apply IH.
Qed.

(** When nothing raises but the scripts that sqlite does not accept,
    [build_db_pool_io] does what [build_db_pool] does: the same calls,
    the same version row, and the same pool or the same error. *)
Lemma build_db_pool_io_only_scripts db_name s :
  build_db_pool_io read_schema (only_scripts sqlite_accepts err) db_name s
  = match build_db_pool read_schema sqlite_accepts db_name s with
    | (Ok pool, s1) => (Returned pool, s1)
    | (Raise e, s1) => (Thrown (as_thrown err e), s1)
    end.
Proof.
  destruct s as [row cs].
  unfold build_db_pool_io, with_connection, with_block_body, build_db_pool.
  generalize SCHEMAS. intros schemas.
  unfold mbind, io_bind, ask, fetched_row, throw, mret, io_ret, call,
    set_user_version.
  cbn [only_scripts calls user_version_row sent served].
  destruct (row_and_row0 row).
  - by destruct (default 0%Z row <? SCHEMA_VERSION)%Z.
  - rewrite run_schemas_io_only_scripts.
    destruct (run_schemas read_schema sqlite_accepts schemas _)
      as [[[]|e] [row1 cs1]];
      cbn [only_scripts calls user_version_row sent served]; done.
Qed.

End BootstrapIORefines.

Section BootstrapIOClaims.

Variable read_schema : string → string.
Variable raises : list db_call → io_op → option string.

Implicit Types (s : store).

(** What each outcome of [build_db_pool_io] tells. *)
Lemma build_db_pool_io_cases db_name s r s' :
  build_db_pool_io read_schema raises db_name s = (r, s') →
  match r with
  | Returned pool =>
      pool = the_pool db_name
      ∧ stale (user_version_row s) = false
      ∧ quiet raises (requests read_schema db_name (user_version_row s))
          (calls s) = true
      ∧ new_calls s s'
        = PragmaUserVersion
          :: (if row_and_row0 (user_version_row s) then []
              else schema_calls read_schema SCHEMAS
                   ++ [SetUserVersion SCHEMA_VERSION])
          ++ [CursorClose]
      ∧ user_version_row s'
        = (if row_and_row0 (user_version_row s) then user_version_row s
           else Some SCHEMA_VERSION)
  | Thrown (StaleVersion v expected) =>
      user_version_row s = Some v ∧ v ≠ 0%Z ∧ (v < SCHEMA_VERSION)%Z
      ∧ expected = SCHEMA_VERSION
      ∧ quiet raises (requests read_schema db_name (user_version_row s))
          (calls s) = true
      ∧ new_calls s s' = [PragmaUserVersion]
      ∧ user_version_row s' = user_version_row s
  | Thrown (Failed op err) =>
      quiet raises (requests read_schema db_name (user_version_row s))
        (calls s) = false
      ∧ ∃ cs, calls s `prefix_of` cs ∧ cs `prefix_of` calls s'
              ∧ raises cs op = Some err
  end.
Proof.
  rewrite build_db_pool_io_asks. unfold requests.
  remember (body_requests read_schema (user_version_row s)) as body
    eqn:Hbody.
  change (quiet raises (Connect db_name :: ?ops) ?cs)
    with (match raises cs (Connect db_name) with
          | None => quiet raises ops cs
          | Some _ => false
          end).
  destruct (raises (calls s) (Connect db_name)) as [err|] eqn:Hconnect.
  { intros [= <- <-]. split; [done|]. by exists (calls s). }
  rewrite quiet_app.
  destruct (quiet_cases raises body (calls s))
    as [Hq|(before & op & rest & err & Hsplit & Hq & Hop)].
  - rewrite asks_quiet, Hq by done.
    destruct (stale (user_version_row s)) eqn:Hstale.
    + change (quiet raises [ExitRollback] ?cs)
        with (match raises cs ExitRollback with
              | None => true
              | Some _ => false
              end).
      cbn [calls andb].
      destruct (raises (all_sent body (calls s)) ExitRollback)
        as [err|] eqn:Hexit; intros [= <- <-].
      * split; [done|]. exists (all_sent body (calls s)).
        split_and!; [apply all_sent_prefix|done|exact Hexit].
      * destruct (stale_inv _ Hstale) as (v & Hrow & Hv0 & Hlt).
        assert (Hrr : row_and_row0 (user_version_row s) = true)
          by (by apply andb_true_iff in Hstale as [-> _]).
        rewrite Hbody, new_calls_body, Hstale, Hrr.
        cbn [user_version_row].
        rewrite all_served_body_requests, Hrr.
        rewrite Hrow. done.
    + change (quiet raises [ExitCommit] ?cs)
        with (match raises cs ExitCommit with
              | None => true
              | Some _ => false
              end).
      cbn [calls andb].
      destruct (raises (all_sent body (calls s)) ExitCommit)
        as [err|] eqn:Hexit; intros [= <- <-].
      * split; [done|]. exists (all_sent body (calls s)).
        split_and!; [apply all_sent_prefix|done|exact Hexit].
      * rewrite Hbody, new_calls_body, Hstale. cbn [user_version_row].
        rewrite all_served_body_requests.
        split_and!; [done|done|done| |done].
        destruct (row_and_row0 (user_version_row s)); [done|].
        by rewrite <- app_assoc.
  - rewrite Hsplit, (asks_refused _ _ _ rest _ _ Hq Hop).
    rewrite quiet_app, Hq.
    change (quiet raises (op :: rest) ?cs)
      with (match raises cs op with
            | None => quiet raises rest (sent op cs)
            | Some _ => false
            end).
    rewrite Hop. cbn [andb calls].
    destruct (raises _ ExitRollback) as [err'|] eqn:Hexit;
      intros [= <- <-]; (split; [done|]); cbn [calls].
    + exists (sent op (all_sent before (calls s))).
      split_and!; [|done|exact Hexit].
      etrans; [apply all_sent_prefix|apply sent_prefix].
    + exists (all_sent before (calls s)).
      split_and!; [apply all_sent_prefix|apply sent_prefix|done].
Qed.

(** X3: the outcomes of [build_db_pool] when any request may raise. It
    returns the pool exactly when the version is not stale and no
    request of the run raises; the calls are then the version query, for
    a store without a version the scripts with their commits and the
    stamp, and the close of the cursor. It raises the [ValueError] of
    line 95 exactly when the version is stale (not zero and below
    [SCHEMA_VERSION]) and no request raises; the version query is then
    the only call. In every other case it raises what a request of this
    run has raised. *)
Theorem build_db_pool_io_outcomes db_name s r s' :
  build_db_pool_io read_schema raises db_name s = (r, s') →
  ((∃ pool, r = Returned pool)
   ↔ stale (user_version_row s) = false
     ∧ quiet raises (requests read_schema db_name (user_version_row s))
         (calls s) = true)
  ∧ ((∃ v expected, r = Thrown (StaleVersion v expected))
     ↔ stale (user_version_row s) = true
       ∧ quiet raises (requests read_schema db_name (user_version_row s))
           (calls s) = true)
  ∧ ((∃ op err, r = Thrown (Failed op err))
     ↔ quiet raises (requests read_schema db_name (user_version_row s))
         (calls s) = false)
  ∧ match r with
    | Returned pool =>
        pool = the_pool db_name
        ∧ new_calls s s'
          = PragmaUserVersion
            :: (if row_and_row0 (user_version_row s) then []
                else schema_calls read_schema SCHEMAS
                     ++ [SetUserVersion SCHEMA_VERSION])
            ++ [CursorClose]
        ∧ user_version_row s'
          = (if row_and_row0 (user_version_row s) then user_version_row s
             else Some SCHEMA_VERSION)
    | Thrown (StaleVersion v expected) =>
        user_version_row s = Some v ∧ v ≠ 0%Z ∧ (v < SCHEMA_VERSION)%Z
        ∧ expected = SCHEMA_VERSION
        ∧ new_calls s s' = [PragmaUserVersion]
        ∧ user_version_row s' = user_version_row s
    | Thrown (Failed op err) =>
        ∃ cs, calls s `prefix_of` cs ∧ cs `prefix_of` calls s'
              ∧ raises cs op = Some err
    end.
Proof.
  intros Hrun. pose proof (build_db_pool_io_cases _ _ _ _ Hrun) as Hcases.
  assert (Hstale : ∀ v, user_version_row s = Some v → v ≠ 0%Z →
                        (v < SCHEMA_VERSION)%Z →
                        stale (user_version_row s) = true).
  { intros v -> Hv0 Hlt. unfold stale. cbn [row_and_row0 default].
    apply andb_true_iff. split.
    - apply negb_true_iff. by apply Z.eqb_neq.
    - by apply Z.ltb_lt. }
  destruct r as [pool|[v expected|op err]].
  - destruct Hcases as (Hpool & Hst & Hq & Hcalls & Hrow).
    split; [|split; [|split; [|done]]].
    + split; [done|]. intros _. by exists pool.
    + split; [by intros (? & ? & [=])|].
      intros [Hst' _]. by rewrite Hst in Hst'.
    + split; [by intros (? & ? & [=])|].
      intros Hq'. by rewrite Hq in Hq'.
  - destruct Hcases as (Hrow & Hv0 & Hlt & Hexp & Hq & Hcalls & Hrow').
    pose proof (Hstale v Hrow Hv0 Hlt) as Hst.
    split; [|split; [|split; [|done]]].
    + split; [by intros (? & [=])|].
      intros [Hst' _]. by rewrite Hst in Hst'.
    + split; [done|]. intros _. by exists v, expected.
    + split; [by intros (? & ? & [=])|].
      intros Hq'. by rewrite Hq in Hq'.
  - destruct Hcases as (Hq & Hraised).
    split; [|split; [|split; [|done]]].
    + split; [by intros (? & [=])|].
      intros [_ Hq']. by rewrite Hq in Hq'.
    + split; [by intros (? & ? & [=])|].
      intros [_ Hq']. by rewrite Hq in Hq'.
    + split; [done|]. intros _. by exists op, err.
Qed.

(** X2: on a store without a version, when every request up to the
    reading of a schema file is served and sqlite then refuses its
    script, [build_db_pool] raises what [executescript] raised (or what
    the rollback raises on leaving the [with] block): the scripts before
    it have been executed and committed in order, the refused script is
    the last call, no version is set and the version row is what it was,
    so that the next start finds the store without a version again. *)
Theorem build_db_pool_io_refused_script db_name s before sql_loc rest err :
  row_and_row0 (user_version_row s) = false →
  SCHEMAS = before ++ sql_loc :: rest →
  quiet raises
    ([Connect db_name; Cursor; Send PragmaUserVersion; Fetchone]
     ++ script_requests read_schema before ++ [ReadSchema sql_loc])
    (calls s) = true →
  raises (calls s ++ PragmaUserVersion :: schema_calls read_schema before)
    (Send (ExecuteScript (read_schema sql_loc))) = Some err →
  ∃ s',
    build_db_pool_io read_schema raises db_name s
    = (Thrown
         match raises (calls s') ExitRollback with
         | None => Failed (Send (ExecuteScript (read_schema sql_loc))) err
         | Some err' => Failed ExitRollback err'
         end, s')
    ∧ new_calls s s'
      = PragmaUserVersion :: schema_calls read_schema before
        ++ [ExecuteScript (read_schema sql_loc)]
    ∧ stamps_of (new_calls s s') = []
    ∧ user_version_row s' = user_version_row s.
Proof.
  intros Hrow HS Hquiet Herr.
  rewrite build_db_pool_io_asks.
  change (quiet raises ([Connect db_name; Cursor; Send PragmaUserVersion;
                         Fetchone] ++ ?ops) ?cs)
    with (match raises cs (Connect db_name) with
          | None =>
              quiet raises
                ([Cursor; Send PragmaUserVersion; Fetchone] ++ ops) cs
          | Some _ => false
          end) in Hquiet.
  destruct (raises (calls s) (Connect db_name)); [done|].
  set (first := [Cursor; Send PragmaUserVersion; Fetchone]
                ++ script_requests read_schema before
                ++ [ReadSchema sql_loc]) in *.
  assert (Hsent : all_sent first (calls s)
                  = calls s ++ PragmaUserVersion
                      :: schema_calls read_schema before).
  { unfold first. rewrite !all_sent_app, all_sent_script_requests.
    unfold all_sent. cbn [foldl sent]. by rewrite <- app_assoc. }
  assert (Hserved : all_served first (user_version_row s)
                    = user_version_row s).
  { unfold first. by rewrite !all_served_app, all_served_script_requests. }
  assert (Hbody : body_requests read_schema (user_version_row s)
                  = first ++ Send (ExecuteScript (read_schema sql_loc))
                    :: Send Commit :: script_requests read_schema rest
                    ++ [Send (SetUserVersion SCHEMA_VERSION);
                        Send CursorClose]).
  { unfold body_requests, first. rewrite Hrow, HS, script_requests_app.
    cbn [script_requests mbind list_bind app]. by rewrite <- !app_assoc. }
  rewrite Hbody, (asks_refused raises first _ _ err s Hquiet)
    by (by rewrite Hsent).
  rewrite Hsent, Hserved. cbn [sent calls].
  exists (mkStore (user_version_row s)
            ((calls s
              ++ PragmaUserVersion :: schema_calls read_schema before)
             ++ [ExecuteScript (read_schema sql_loc)])).
  split.
  - cbn [calls].
    by destruct (raises _ ExitRollback).
  - rewrite <- app_assoc. rewrite new_calls_app.
    split_and!; [done| |done].
    change (stamps_of ([PragmaUserVersion]
                       ++ schema_calls read_schema before
                       ++ [ExecuteScript (read_schema sql_loc)]) = []).
    unfold stamps_of. rewrite !omap_app.
    fold (stamps_of (schema_calls read_schema before)).
    by rewrite stamps_of_schema_calls.
Qed.

(** X15: the version is set last, whatever raises. Either no stamp is
    sent and the version row is what it was; or the store had no version
    and the stamp [SCHEMA_VERSION] was sent after every script of
    [SCHEMAS] had been executed and committed, once each and in order,
    followed by nothing but the close of the cursor. The version row is
    then [SCHEMA_VERSION] when the stamp was served, and what it was
    when the stamp itself raised. *)
Theorem build_db_pool_io_stamps_last db_name s r s' :
  build_db_pool_io read_schema raises db_name s = (r, s') →
  (stamps_of (new_calls s s') = []
   ∧ user_version_row s' = user_version_row s)
  ∨ (row_and_row0 (user_version_row s) = false
     ∧ ∃ tail,
         new_calls s s'
         = PragmaUserVersion :: schema_calls read_schema SCHEMAS
           ++ SetUserVersion SCHEMA_VERSION :: tail
         ∧ (tail = [] ∨ tail = [CursorClose])
         ∧ match raises (calls s ++ PragmaUserVersion
                           :: schema_calls read_schema SCHEMAS)
                  (Send (SetUserVersion SCHEMA_VERSION)) with
           | None => user_version_row s' = Some SCHEMA_VERSION
           | Some _ => tail = [] ∧ user_version_row s' = user_version_row s
           end).
Proof.
  rewrite build_db_pool_io_asks.
  pose proof (asks_body_stamps_last read_schema raises s) as Hbody.
  cbv zeta in Hbody.
  destruct (raises (calls s) (Connect db_name)).
  { intros [= <- <-]. left. unfold new_calls.
    by rewrite drop_all. }
  destruct (asks raises (body_requests read_schema (user_version_row s)) s)
    as [[[]|e] s1]; cbn [snd] in Hbody.
  - destruct (stale (user_version_row s)).
    + by destruct (raises (calls s1) ExitRollback); intros [= <- <-].
    + by destruct (raises (calls s1) ExitCommit); intros [= <- <-].
  - by destruct (raises (calls s1) ExitRollback); intros [= <- <-].
Qed.

End BootstrapIOClaims.

(** * Further properties of the server name *)

Section ServerName.

Lemma is_digit_pretty_N_char (k : N) : is_digit (pretty_N_char k) = true.
Proof. unfold pretty_N_char. by repeat case_match. Qed.

Lemma digits_to_end_cons (d : ascii) (s : string) :
  is_digit d = true →
  s = EmptyString ∨ digits_to_end s = true →
  digits_to_end (String d s) = true.
Proof.
  intros Hd Hs. simpl. rewrite Hd. simpl.
  destruct s as [|c s']; [done|].
  destruct Hs as [?|Hs]; [done|].
  case_bool_decide as Hnl; [done|]. exact Hs.
Qed.

Lemma pretty_N_go_digits (x : N) : ∀ s,
  s = EmptyString ∨ digits_to_end s = true →
  (0 < x)%N →
  digits_to_end (pretty_N_go x s) = true.
Proof.
  induction (N.lt_wf_0 x) as [x _ IH]; intros s Hs Hx.
  rewrite pretty_N_go_step by done.
  assert (Hacc : digits_to_end (String (pretty_N_char (x `mod` 10)) s) = true).
  { apply digits_to_end_cons; [apply is_digit_pretty_N_char|done]. }
  destruct (decide (x `div` 10 = 0)%N) as [->|Hdiv].
  - by rewrite pretty_N_go_0.
  - apply IH; [by apply N.div_lt|by right|by apply N.neq_0_lt_0].
Qed.

(** A port printed in decimal is digits to the end. *)
Lemma digits_to_end_pretty (n : nat) : digits_to_end (pretty n) = true.
Proof.
  unfold pretty, pretty_nat, pretty, pretty_N.
  case_decide as Hn; [done|].
  apply pretty_N_go_digits; [by left|lia].
Qed.

Lemma search_port_intro (pre d : string) :
  digits_to_end d = true → search_port (pre +:+ ":" +:+ d) = true.
Proof.
  intros Hd. induction pre as [|c pre IH].
  - change (search_port (String ":" d) = true). simpl.
    by rewrite Hd.
  - change (search_port (String c (pre +:+ ":" +:+ d)) = true). simpl.
    rewrite IH. apply orb_true_r.
Qed.

Lemma digits_to_end_spec (s : string) :
  digits_to_end s = true
  ↔ ∃ ds, ds ≠ EmptyString ∧ all_digits ds = true
          ∧ (s = ds ∨ s = ds +:+ String newline EmptyString).
Proof.
  induction s as [|c s IH].
  - split; [done|]. intros (ds & Hne & _ & [Hs|Hs]).
    + by subst.
    + destruct ds; [done|discriminate].
  - simpl. split.
    + intros [Hc Hrest]%andb_prop.
      destruct s as [|d s'].
      { exists (String c EmptyString). simpl. rewrite Hc. by auto. }
      case_bool_decide as Hnl.
      * destruct Hnl as [-> ->]. exists (String c EmptyString).
        simpl. rewrite Hc. by auto.
      * apply IH in Hrest as (ds & Hne & Hds & Hs).
        exists (String c ds). simpl. rewrite Hc, Hds.
        split_and!; [done|done|].
        destruct Hs as [->| ->]; [by left|by right].
    + intros (ds & Hne & Hds & Hs).
      destruct ds as [|c' ds]; [done|].
      simpl in Hds. apply andb_prop in Hds as [Hc' Hds].
      assert (c = c' ∧ (s = ds ∨ s = ds +:+ String newline EmptyString))
        as [-> Hs'].
      { destruct Hs as [Hs|Hs]; injection Hs as -> ->; auto. }
      rewrite Hc'. simpl.
      destruct s as [|d s']; [done|].
      case_bool_decide as Hnl; [done|].
      apply IH. destruct ds as [|d' ds'].
      * destruct Hs' as [?|Hs']; [done|].
        injection Hs' as -> ->. by destruct Hnl.
      * exists (String d' ds'). done.
Qed.

(** X4: [re.search(":[0-9]+$", s)] finds a port exactly when [s] ends in
    a colon and one digit or more, with at most one newline after them. *)
Theorem search_port_spec (s : string) :
  search_port s = true
  ↔ ∃ pre ds,
      ds ≠ EmptyString ∧ all_digits ds = true
      ∧ (s = pre +:+ ":" +:+ ds
         ∨ s = pre +:+ ":" +:+ ds +:+ String newline EmptyString).
Proof.
  induction s as [|c s IH].
  - split; [done|]. intros (pre & ds & _ & _ & [Hs|Hs]); by destruct pre.
  - simpl. rewrite orb_true_iff, andb_true_iff, bool_decide_eq_true.
    rewrite IH, digits_to_end_spec. split.
    + intros [[-> (ds & Hne & Hds & Hs)]|(pre & ds & Hne & Hds & Hs)].
      * exists EmptyString, ds. split_and!; [done|done|].
        destruct Hs as [->| ->]; [by left|by right].
      * exists (String c pre), ds. split_and!; [done|done|].
        destruct Hs as [->| ->]; [by left|by right].
    + intros (pre & ds & Hne & Hds & Hs). destruct pre as [|c' pre].
      * left. assert (c = ":"%char
                      ∧ (s = ds ∨ s = ds +:+ String newline EmptyString))
          as [-> Hs'].
        { destruct Hs as [Hs|Hs]; injection Hs as -> ->; auto. }
        split; [done|]. by exists ds.
      * right. exists pre, ds. split_and!; [done|done|].
        destruct Hs as [Hs|Hs]; injection Hs as -> ->; auto.
Qed.

(** X5: the domain that [setup] hands to the home server always carries
    a port: it is the server name itself when a port is found in it
    (whatever [bind_port] is), and the server name with [bind_port]
    appended otherwise; computing it again from the result changes
    nothing. *)
Theorem domain_with_port_has_port (server_name : string) (bind_port : nat) :
  search_port (domain_with_port server_name bind_port) = true
  ∧ (search_port server_name = true →
     ∀ any_port, domain_with_port server_name any_port = server_name)
  ∧ (search_port server_name = false →
     domain_with_port server_name bind_port
     = server_name +:+ ":" +:+ pretty bind_port)
  ∧ ∀ other_port,
      domain_with_port (domain_with_port server_name bind_port) other_port
      = domain_with_port server_name bind_port.
Proof.
  assert (Hport : search_port (domain_with_port server_name bind_port) = true).
  { unfold domain_with_port.
    destruct (search_port server_name) eqn:Hs; [done|].
    apply search_port_intro, digits_to_end_pretty. }
  split_and!; [done| | |].
  - intros Hs any_port. unfold domain_with_port. by rewrite Hs.
  - intros Hs. unfold domain_with_port. by rewrite Hs.
  - intros other_port. unfold domain_with_port at 1. by rewrite Hport.
Qed.

End ServerName.

(** * Further properties of the start-up *)

Section SetupMore.

Variable obj_str : loc → string.
Variable read_schema : string → string.
Variable sqlite_accepts : list db_call → string → bool.
Variables CLIENT_PREFIX FEDERATION_PREFIX WEB_CLIENT_PREFIX
  CONTENT_REPO_PREFIX : string.
Variable register_servlets : HomeServer → HomeServer.

Ltac members H :=
  repeat (apply elem_of_cons in H as [H|H];
          [try discriminate; try (injection H as ? ?; subst)|]);
  try (by apply elem_of_nil in H).

(** X6: what [setup] starts, after [register_servlets]. The listener on
    [bind_port] is the first thing started; the manhole, when there is
    one, listens on the loopback interface only, on the port of the
    configuration, which is not 0, and after the listener; the reactor is
    run exactly when [setup] does not raise, and it is run last; the
    daemon is started only when the configuration asks for it. *)
Theorem setup_effects cfg hs :
  let hs1 := register_servlets hs in
  let '(r, hs') :=
    setup obj_str read_schema sqlite_accepts CLIENT_PREFIX
      FEDERATION_PREFIX WEB_CLIENT_PREFIX CONTENT_REPO_PREFIX
      register_servlets cfg hs in
  ∃ new,
    effects hs' = effects hs1 ++ new
    ∧ (new = [] ∨ ∃ root, head new = Some (ListenSSL (bind_port cfg) root))
    ∧ (∀ port interface, ListenTCP port interface ∈ new →
         interface = "127.0.0.1" ∧ manhole cfg = Some port ∧ port ≠ 0)
    ∧ (r = Ok () ↔ last new = Some ReactorRun)
    ∧ (ReactorRun ∈ new → r = Ok ())
    ∧ (DaemonStart ∈ new → daemonize cfg = true).
Proof.
  intros hs1. unfold setup. fold hs1.
  pose proof (create_resource_tree_outside obj_str CLIENT_PREFIX
                FEDERATION_PREFIX WEB_CLIENT_PREFIX CONTENT_REPO_PREFIX
                (webclient cfg) true hs1) as (Heff & _ & _ & _).
  destruct (create_resource_tree obj_str CLIENT_PREFIX FEDERATION_PREFIX
              WEB_CLIENT_PREFIX CONTENT_REPO_PREFIX (webclient cfg) true hs1)
    as [[root|e] hs2]; simpl in Heff.
  2:{ exists []. rewrite app_nil_r.
      split_and!; [done|by left|..]; try done.
      - intros ?? Hin. by apply elem_of_nil in Hin.
      - intros Hin. by apply elem_of_nil in Hin.
      - intros Hin. by apply elem_of_nil in Hin. }
  unfold get_db_pool, start_listening. cbn [db_pool emit db_name db].
  destruct (db_pool hs2) as [pool|].
  - destruct (manhole cfg) as [[|port]|] eqn:Hman,
             (daemonize cfg) eqn:Hdae; simpl; rewrite Heff, <- ?app_assoc;
      eexists; (split; [reflexivity|]);
      (split_and!; [right; by eexists|..]); try done;
      try (intros ?? Hin; members Hin; done);
      try (intros Hin; members Hin; done).
  - destruct (build_db_pool read_schema sqlite_accepts (db_name hs2) (db hs2))
      as [[pool|e] s]; simpl.
    + destruct (manhole cfg) as [[|port]|] eqn:Hman,
               (daemonize cfg) eqn:Hdae; simpl; rewrite Heff, <- ?app_assoc;
        eexists; (split; [reflexivity|]);
        (split_and!; [right; by eexists|..]); try done;
        try (intros ?? Hin; members Hin; done);
        try (intros Hin; members Hin; done).
    + rewrite Heff, <- ?app_assoc.
      eexists; (split; [reflexivity|]);
        (split_and!; [right; by eexists|..]); try done;
        try (intros ?? Hin; members Hin; done);
        try (intros Hin; members Hin; done).
Qed.

End SetupMore.

(** * Further properties of the resource tree *)

Section TreeMore.

Variable obj_str : loc → string.

Implicit Types (h : heap) (M : mappings) (a c r : loc) (s x : string).

Lemma for_each_raise {S A : Type} (body : S → A → result S) xs :
  ∀ (st : S) e,
  for_each body xs st = Raise e → ∃ st' y, y ∈ xs ∧ body st' y = Raise e.
Proof.
  induction xs as [|y xs IH]; intros st e; [done|].
  rewrite for_each_cons. destruct (body st y) as [st1|e1] eqn:Hbody; cbn.
  - intros (st' & z & Hin & Hz)%IH. exists st', z. split; [by right|done].
  - intros [= ->]. exists st, y. split; [left|done].
Qed.

Lemma walk_seg_raise st seg e :
  walk_seg obj_str st seg = Raise e →
  ∃ r, e = KeyError (_resource_id obj_str r seg).
Proof.
  destruct st as [[h M] last]. unfold walk_seg.
  destruct (negb _); [done|].
  destruct (M !! _); [done|]. intros [= <-]. by eexists.
Qed.

Lemma steal_child_raise M existing R h child_name e :
  steal_child obj_str M existing R h child_name = Raise e →
  e = KeyError (_resource_id obj_str existing child_name).
Proof.
  unfold steal_child. destruct (M !! _); [done|]. by intros [= <-].
Qed.

Lemma attach_raise root st mount e :
  attach obj_str root st mount = Raise e →
  ∃ r seg, e = KeyError (_resource_id obj_str r seg).
Proof.
  destruct st as [h M], mount as [full_path R]. unfold attach.
  destruct (for_each (walk_seg obj_str) (interior_segs full_path)
              (h, M, root)) as [[[h1 M1] last]|e1] eqn:Hwalk; cbn.
  - destruct (M1 !! _) as [existing|]; [|done].
    destruct (for_each (steal_child obj_str M1 existing R)
                (listNames h1 existing) h1) as [h2|e2] eqn:Hsteal; cbn;
      [done|].
    intros [= <-].
    apply for_each_raise in Hsteal as (h' & x & _ & ->%steal_child_raise).
    by eexists _, _.
  - intros [= <-].
    apply for_each_raise in Hwalk as (st' & seg & _ & [r ->]%walk_seg_raise).
    by eexists _, _.
Qed.

(** X7: whatever the mount list, the paths and the resources are,
    [create_resource_tree] raises nothing but the [KeyError] of a lookup
    in [resource_mappings], and the key is a resource identifier. *)
Theorem build_tree_raises_KeyError (ms : list (string * loc)) h e :
  build_tree obj_str ms h = Raise e →
  ∃ r seg, e = KeyError (_resource_id obj_str r seg).
Proof.
  unfold build_tree, Resource.
  destruct (for_each (attach obj_str (List.length h)) ms (h ++ [∅], ∅))
    as [[h' M']|e'] eqn:Hrun; cbn; [done|].
  intros [= <-].
  apply for_each_raise in Hrun as (st & m & _ & Hm).
  by apply attach_raise in Hm.
Qed.

End TreeMore.

Section TreeFrame.

Variable obj_str : loc → string.
Variable n0 : nat.
Variable handlers : list loc.

Implicit Types (h : heap) (M : mappings) (a c r : loc) (s x : string).

(** The objects that the builder may change: those it has made and those
    it was given. *)
Abbreviation mine a := ((n0 ≤ a)%nat ∨ a%nat ∈ handlers).
Abbreviation all_mine M := (∀ k c, M !! k = Some c → mine c).

Lemma grows_refl h : grows n0 handlers h h.
Proof. by split_and!. Qed.

Lemma grows_trans h1 h2 h3 :
  grows n0 handlers h1 h2 → grows n0 handlers h2 h3 →
  grows n0 handlers h1 h3.
Proof.
  intros (Hl1 & Hc1 & Hf1) (Hl2 & Hc2 & Hf2). split_and!.
  - lia.
  - intros r x Hx. by apply Hc2, Hc1.
  - intros r Hr Hnot. by rewrite Hf2, Hf1.
Qed.

Lemma grows_size h h' :
  grows n0 handlers h h' → (n0 ≤ List.length h)%nat →
  (n0 ≤ List.length h')%nat.
Proof. intros (Hlen & _) Hn. lia. Qed.

Lemma grows_putChild h a s c :
  mine a → grows n0 handlers h (putChild h a s c).
Proof.
  intros Ha. unfold putChild. split_and!.
  - by rewrite length_alter.
  - intros r x. unfold getStaticEntity.
    destruct (decide (a = r)) as [->|Hne].
    + rewrite list_lookup_alter_eq. destruct (h !! r) as [ch|]; cbn; [|done].
      intros Hx. apply lookup_insert_is_Some.
      destruct (decide (s = x)); auto.
    + by rewrite list_lookup_alter_ne.
  - intros r Hr Hnot. apply list_lookup_alter_ne.
    intros ->. destruct Ha as [Ha|Ha]; [lia|done].
Qed.

Lemma grows_Resource h :
  (n0 ≤ List.length h)%nat → grows n0 handlers h (h ++ [∅]).
Proof.
  intros Hn. split_and!.
  - rewrite length_app. lia.
  - intros r x. by rewrite getStaticEntity_Resource.
  - intros r Hr _. apply lookup_app_l. lia.
Qed.

Lemma walk_seg_grows h M last seg h' M' last' :
  (n0 ≤ List.length h)%nat → mine last → all_mine M →
  walk_seg obj_str (h, M, last) seg = Ok (h', M', last') →
  grows n0 handlers h h' ∧ mine last' ∧ all_mine M'.
Proof.
  intros Hn Hlast HM. unfold walk_seg. destruct (negb _).
  - simpl. intros [= <- <- <-]. split_and!.
    + eapply grows_trans; [by apply grows_Resource|by apply grows_putChild].
    + by left.
    + intros k c [[_ <-]|[_ Hk]]%lookup_insert_Some; [by left|by eapply HM].
  - destruct (M !! _) as [c|] eqn:Hc; [|done].
    intros [= <- <- <-]. split_and!; [apply grows_refl|by eapply HM|done].
Qed.

Lemma walk_grows segs : ∀ h M last h' M' last',
  (n0 ≤ List.length h)%nat → mine last → all_mine M →
  for_each (walk_seg obj_str) segs (h, M, last) = Ok (h', M', last') →
  grows n0 handlers h h' ∧ mine last' ∧ all_mine M'.
Proof.
  induction segs as [|seg segs IH]; intros h M last h' M' last' Hn Hl HM.
  - intros [= <- <- <-]. split_and!; [apply grows_refl|done..].
  - rewrite for_each_cons.
    destruct (walk_seg obj_str (h, M, last) seg) as [[[h1 M1] last1]|e]
      eqn:Hstep; [|done].
    cbn. intros Hrest.
    destruct (walk_seg_grows _ _ _ _ _ _ _ Hn Hl HM Hstep)
      as (Hg1 & Hl1 & HM1).
    destruct (IH _ _ _ _ _ _ (grows_size _ _ Hg1 Hn) Hl1 HM1 Hrest)
      as (Hg2 & Hl2 & HM2).
    split_and!; [by eapply grows_trans|done..].
Qed.

Lemma steal_grows M existing R xs : ∀ h h',
  mine R →
  for_each (steal_child obj_str M existing R) xs h = Ok h' →
  grows n0 handlers h h'.
Proof.
  induction xs as [|x xs IH]; intros h h' HR.
  - intros [= <-]. apply grows_refl.
  - rewrite for_each_cons.
    destruct (steal_child obj_str M existing R h x) as [h1|e] eqn:Hstep;
      [|done].
    cbn. intros Hrest. unfold steal_child in Hstep.
    destruct (M !! _resource_id obj_str existing x) as [c|]; [|done].
    injection Hstep as <-.
    eapply grows_trans; [by apply grows_putChild|by eapply IH].
Qed.

Lemma attach_grows root h M full_path R h' M' :
  (n0 ≤ List.length h)%nat → mine root → mine R → all_mine M →
  attach obj_str root (h, M) (full_path, R) = Ok (h', M') →
  grows n0 handlers h h' ∧ all_mine M'.
Proof.
  intros Hn Hroot HR HM. unfold attach.
  destruct (for_each (walk_seg obj_str) (interior_segs full_path)
              (h, M, root)) as [[[h1 M1] last]|e1] eqn:Hwalk; [|done].
  cbn.
  destruct (walk_grows _ _ _ _ _ _ _ Hn Hroot HM Hwalk) as (Hg1 & Hl & HM1).
  destruct (match M1 !! _ with Some _ => _ | None => _ end)
    as [h2|e2] eqn:Hsteal; [|done].
  cbn. intros [= <- <-].
  assert (Hg2 : grows n0 handlers h1 h2).
  { destruct (M1 !! _) as [existing|].
    - exact (steal_grows M1 existing R (listNames h1 existing) h1 h2
               HR Hsteal).
    - injection Hsteal as <-. apply grows_refl. }
  split.
  - eapply grows_trans; [done|].
    eapply grows_trans; [done|by apply grows_putChild].
  - intros k c [[_ <-]|[_ Hk]]%lookup_insert_Some; [done|by eapply HM1].
Qed.

Lemma attach_all_grows root (ms : list (string * loc)) : ∀ h M h' M',
  (n0 ≤ List.length h)%nat → mine root → all_mine M →
  (∀ m, m ∈ ms → m.2 ∈ handlers) →
  for_each (attach obj_str root) ms (h, M) = Ok (h', M') →
  grows n0 handlers h h'.
Proof.
  induction ms as [|[full_path R] ms IH]; intros h M h' M' Hn Hroot HM Hms.
  - intros [= <- <-]. apply grows_refl.
  - rewrite for_each_cons.
    destruct (attach obj_str root (h, M) (full_path, R)) as [[h1 M1]|e]
      eqn:Hstep; [|done].
    cbn. intros Hrest.
    destruct (attach_grows _ _ _ _ _ _ _ Hn Hroot
                ltac:(right; apply (Hms (full_path, R)); left) HM Hstep)
      as (Hg1 & HM1).
    eapply grows_trans; [done|].
    eapply (IH h1 M1); [by eapply grows_size|done|done| |done].
    intros m Hm. apply Hms. by right.
Qed.

End TreeFrame.

Section TreeFrameClaims.

Variable obj_str : loc → string.

(** X8: the tree that [create_resource_tree] returns has a root that is
    a new object; no object is removed and no child name is removed from
    any object; and the objects that existed before are left as they were,
    except for the resources of the mount list. *)
Theorem build_tree_frame (ms : list (string * loc)) (h0 h : heap) root :
  build_tree obj_str ms h0 = Ok (root, h) →
  root = List.length h0
  ∧ List.length h0 < List.length h
  ∧ (∀ r x, is_Some (getStaticEntity h0 r x) →
            is_Some (getStaticEntity h r x))
  ∧ (∀ r, r < List.length h0 → r ∉ ms.*2 → h !! r = h0 !! r).
Proof.
  unfold build_tree, Resource.
  destruct (for_each (attach obj_str (List.length h0)) ms (h0 ++ [∅], ∅))
    as [[h' M']|e] eqn:Hrun; [|done].
  cbn. intros [= <- <-].
  apply (attach_all_grows obj_str (List.length h0) ms.*2) in Hrun
    as (Hlen & Hch & Hframe).
  - rewrite length_app in Hlen. simpl in Hlen.
    split_and!; [done|lia| |].
    + intros r x Hx. apply Hch. by rewrite getStaticEntity_Resource.
    + intros r Hr Hnot. rewrite Hframe by done. by apply lookup_app_l.
  - rewrite length_app. lia.
  - by left.
  - intros k c. by rewrite lookup_empty.
  - intros m Hm. by apply list_elem_of_fmap_2.
Qed.

End TreeFrameClaims.

Section PathPieces.

Variable obj_str : loc → string.

Lemma split_cons_char (c : ascii) (s : string) :
  c ≠ slash →
  split slash (String c s)
  = match split slash s with
    | piece :: rest => String c piece :: rest
    | [] => [String c EmptyString]
    end.
Proof. intros Hc. simpl. by rewrite decide_False. Qed.

Lemma split_no_slash (s : string) :
  has_slash s = false → split slash s = [s].
Proof.
  induction s as [|c s IH]; [done|]. simpl has_slash.
  intros [Hc Hs]%orb_false_elim. apply bool_decide_eq_false in Hc.
  by rewrite split_cons_char, IH.
Qed.

Lemma split_before_slash (pre rest : string) :
  has_slash pre = false →
  split slash (pre +:+ "/" +:+ rest) = pre :: split slash rest.
Proof.
  induction pre as [|c pre IH].
  - intros _. reflexivity.
  - simpl has_slash.
    intros [Hc Hs]%orb_false_elim. apply bool_decide_eq_false in Hc.
    change (split slash (String c (pre +:+ "/" +:+ rest))
            = String c pre :: split slash rest).
    by rewrite split_cons_char, IH.
Qed.

Lemma split_from_slash (rest : string) :
  split slash ("/" +:+ rest) = EmptyString :: split slash rest.
Proof. reflexivity. Qed.

(** X9: of a mount path only what follows the first slash counts. Text
    before the first slash is ignored: the mount is attached where the
    path from that slash on would be attached. A path without any slash
    has no interior segment and is its own last segment: it is attached
    under the root by its whole name. *)
Theorem attach_ignores_before_slash (pre rest name : string) :
  has_slash pre = false →
  has_slash name = false →
  interior_segs (pre +:+ "/" +:+ rest) = interior_segs ("/" +:+ rest)
  ∧ last_path_seg (pre +:+ "/" +:+ rest) = last_path_seg ("/" +:+ rest)
  ∧ (∀ root st R,
       attach obj_str root st (pre +:+ "/" +:+ rest, R)
       = attach obj_str root st ("/" +:+ rest, R))
  ∧ interior_segs name = []
  ∧ last_path_seg name = name.
Proof.
  intros Hpre Hname.
  assert (Hi : interior_segs (pre +:+ "/" +:+ rest)
               = interior_segs ("/" +:+ rest)).
  { unfold interior_segs.
    by rewrite (split_before_slash pre), split_from_slash. }
  assert (Hl : last_path_seg (pre +:+ "/" +:+ rest)
               = last_path_seg ("/" +:+ rest)).
  { unfold last_path_seg.
    rewrite (split_before_slash pre), split_from_slash by done.
    pose proof (split_nonempty slash rest).
    by destruct (split slash rest). }
  split_and!; [done|done| | |].
  - intros root [h M] R. unfold attach. by rewrite Hi, Hl.
  - unfold interior_segs. by rewrite split_no_slash.
  - unfold last_path_seg. by rewrite split_no_slash.
Qed.

End PathPieces.

Section ResourceIds.

Variable obj_str : loc → string.

Lemma dash_free_prefix (a b s1 s2 : string) :
  has_dash a = false → has_dash b = false →
  a +:+ "-" +:+ s1 = b +:+ "-" +:+ s2 → a = b ∧ s1 = s2.
Proof.
  revert b. induction a as [|c a IH]; intros [|d b] Ha Hb Heq;
    unfold String.append in Heq; fold String.append in Heq.
  - by injection Heq as ->.
  - injection Heq as <- _. by simpl in Hb.
  - injection Heq as -> _. by simpl in Ha.
  - injection Heq as -> Heq.
    simpl in Ha, Hb. apply orb_false_elim in Ha as [_ Ha].
    apply orb_false_elim in Hb as [_ Hb].
    by destruct (IH b Ha Hb Heq) as [-> ->].
Qed.

(** X10: when no object is printed with a dash and no two objects are
    printed alike, a resource identifier determines the parent resource
    and the name of the child. *)
Theorem resource_id_inj r1 r2 (s1 s2 : string) :
  (∀ r, has_dash (obj_str r) = false) →
  (∀ r r', obj_str r = obj_str r' → r = r') →
  _resource_id obj_str r1 s1 = _resource_id obj_str r2 s2 →
  r1 = r2 ∧ s1 = s2.
Proof.
  intros Hdash Hinj Heq. unfold _resource_id in Heq.
  apply dash_free_prefix in Heq as [Hr ->]; [|done..].
  split; [by apply Hinj|done].
Qed.

End ResourceIds.

Section TreeFound.

Variable obj_str : loc → string.

Hypothesis rid_inj : ∀ r1 r2 s1 s2,
  _resource_id obj_str r1 s1 = _resource_id obj_str r2 s2 →
  r1 = r2 ∧ s1 = s2.

(** X11: when [_resource_id] gives different keys to different pairs of
    a resource and a segment ([rid_inj]), on a mount list with rooted and
    pairwise distinct paths and pairwise distinct resources without
    children, in which no mount comes after both a mount at a node above
    it and a still earlier mount below the same child of that node,
    [create_resource_tree] returns a tree in which every mount is found at
    its path, the paths that resolve are the prefixes of the mount paths,
    and every node that is not the resource of a mount was made by the
    builder. *)
Theorem build_tree_finds_every_mount (ms : list (string * loc)) (h0 : heap) :
  Forall (fun m => rooted m.1 = true) ms →
  NoDup (path_segs <$> ms.*1) →
  NoDup ms.*2 →
  Forall (fun r => h0 !! r = Some ∅) ms.*2 →
  clean ms = true →
  ∃ root h,
    build_tree obj_str ms h0 = Ok (root, h)
    ∧ (∀ p r, (p, r) ∈ ms → resolve h root (path_segs p) = Some r)
    ∧ (∀ q, is_Some (resolve h root q)
            ↔ q = [] ∨ ∃ m, m ∈ ms ∧ q `prefix_of` path_segs m.1)
    ∧ (∀ q a, resolve h root q = Some a → a < List.length h0 →
              ∃ p, (p, a) ∈ ms ∧ path_segs p = q).
Proof. by apply build_tree_correct. Qed.

End TreeFound.

Section TreeLoose.

Variable obj_str : loc → string.
Variables n0 root : loc.

Hypothesis rid_inj : ∀ r1 r2 s1 s2,
  _resource_id obj_str r1 s1 = _resource_id obj_str r2 s2 →
  r1 = r2 ∧ s1 = s2.

Abbreviation rid := (_resource_id obj_str).
Abbreviation loose := (loose_inv obj_str n0 root).

Implicit Types (h : heap) (M : mappings) (a c r : loc) (s x : string).
Implicit Types (w q p u : list string) (D T : list loc).

Ltac loose_fields I :=
  destruct I as [Hvalid Hsize Hinj Hold Hfresh Hkeys Hsound Hhand].

Lemma rid_neq a1 a2 s1 s2 : ¬ (a1 = a2 ∧ s1 = s2) → rid a1 s1 ≠ rid a2 s2.
Proof. intros Hne Heq. by apply Hne, rid_inj. Qed.

(** Putting a resource without children below a node of the tree: the
    path of the child leads to it and nothing is found below. *)
Lemma resolve_putChild_leaf h n s R q :
  (∀ q1 q2 a,
     resolve h root q1 = Some a → resolve h root q2 = Some a → q1 = q2) →
  resolve h root q = Some n →
  n < List.length h →
  (∀ u, resolve h root u ≠ Some R) →
  (∀ x, getStaticEntity h R x = None) →
  ∀ u, resolve (putChild h n s R) root u
       = if decide (u = q ++ [s]) then Some R
         else if decide ((q ++ [s]) `prefix_of` u) then None
         else resolve h root u.
Proof.
  intros Hinj Hq Hn HR Hleaf u.
  induction u as [|x u IH] using rev_ind.
  - rewrite decide_False by (by destruct q).
    rewrite decide_False; [done|].
    intros Hpre%prefix_nil_inv. by destruct q.
  - rewrite !resolve_snoc, IH. clear IH.
    assert (Hlen : ∀ (v : list string) (y : string), v ++ [y] ≠ v).
    { intros v y Heq%(f_equal List.length).
      rewrite length_app in Heq. simpl in Heq. lia. }
    destruct (decide (u = q ++ [s])) as [->|Hu].
    + cbn. rewrite getStaticEntity_putChild by done.
      rewrite decide_False by (intros [-> _]; by apply (HR q)).
      rewrite Hleaf, decide_False by apply Hlen.
      rewrite decide_True; [done|]. by apply prefix_app_r.
    + destruct (decide ((q ++ [s]) `prefix_of` u)) as [Hpre|Hpre].
      * cbn. rewrite decide_False.
        2:{ intros [-> ->]%app_inj_tail. by apply prefix_snoc_not in Hpre. }
        rewrite decide_True; [done|]. by apply prefix_app_r.
      * assert (Hnot : ¬ (q ++ [s]) `prefix_of` u ++ [x]
                       ∨ u ++ [x] = q ++ [s]).
        { destruct (decide (u ++ [x] = q ++ [s])); [by right|left].
          intros [?|?]%prefix_snoc_iff; done. }
        destruct (resolve h root u) as [a|] eqn:Ha; cbn.
        -- rewrite getStaticEntity_putChild by done.
           destruct (decide (a = n ∧ x = s)) as [[-> ->]|Hne].
           ++ rewrite (Hinj u q n Ha Hq). by rewrite decide_True.
           ++ rewrite decide_False.
              2:{ intros [-> ->]%app_inj_tail. apply Hne.
                  split; [congruence|done]. }
              rewrite decide_False; [done|].
              destruct Hnot as [?|Heq]; [done|].
              apply app_inj_tail in Heq as [-> ->]. destruct Hne.
              split; [congruence|done].
        -- rewrite decide_False.
           2:{ intros [-> ->]%app_inj_tail. congruence. }
           rewrite decide_False; [done|].
           destruct Hnot as [?|Heq]; [done|].
           apply app_inj_tail in Heq as [-> ->]. congruence.
Qed.

Lemma coming_not_in_tree D T h M r :
  loose D T h M → r ∈ T → ∀ u, resolve h root u ≠ Some r.
Proof.
  intros I Hin u Hu. loose_fields I.
  destruct (Hfresh r Hin) as (Hlt & _ & _).
  pose proof (Hold u r Hu Hlt) as Hdone.
  apply NoDup_app in Hhand as (_ & Hdisj & _). by apply (Hdisj r).
Qed.

(** One turn of the walk that does not raise. *)
Lemma walk_seg_loose D T h M w last s h' M' last' :
  loose D T h M →
  resolve h root w = Some last →
  walk_seg obj_str (h, M, last) s = Ok (h', M', last') →
  loose D T h' M'
  ∧ resolve h' root (w ++ [s]) = Some last'
  ∧ (∀ u a, resolve h root u = Some a → resolve h' root u = Some a).
Proof.
  intros I Hw. unfold walk_seg.
  pose proof (fun r H => coming_not_in_tree _ _ _ _ r I H) as Hunreach.
  destruct (getStaticEntity h last s) as [c|] eqn:Hs.
  - rewrite bool_decide_eq_true_2 by (apply elem_of_listNames; eauto).
    simpl. destruct (M !! rid last s) as [c'|] eqn:HM; [|done].
    intros [= <- <- <-].
    pose proof (loose_sound _ _ _ _ _ _ _ I w last s c' Hw HM) as Hc.
    split_and!; [done| |done].
    by rewrite resolve_snoc, Hw.
  - rewrite bool_decide_eq_false_2.
    2:{ rewrite elem_of_listNames, Hs. by intros [? ?]. }
    simpl. intros [= <- <- <-].
    set (d := List.length h). set (h' := putChild (h ++ [∅]) last s d).
    loose_fields I.
    pose proof (Hvalid _ _ Hw) as Hlast.
    assert (Hlen : List.length h' = S (List.length h)).
    { unfold h', putChild. rewrite length_alter, length_app. simpl. lia. }
    assert (Hchild : ∀ a x, getStaticEntity h' a x
              = if decide (a = last ∧ x = s) then Some d
                else getStaticEntity h a x).
    { intros a x. unfold h'. rewrite getStaticEntity_putChild.
      - by rewrite getStaticEntity_Resource.
      - rewrite length_app. simpl. lia. }
    assert (HT : ∀ u, resolve h' root u
              = if decide (u = w ++ [s]) then Some d else resolve h root u).
    { intros u. unfold h'.
      assert (HT1 : ∀ v, resolve (h ++ [∅]) root v = resolve h root v).
      { apply resolve_ext. intros. apply getStaticEntity_Resource. }
      rewrite (resolve_putChild _ root last s d w).
      - by rewrite HT1.
      - intros q1 q2 a. rewrite !HT1. apply Hinj.
      - by rewrite HT1.
      - rewrite length_app. simpl. lia.
      - intros u0. rewrite HT1. intros Hu0%Hvalid. unfold d in Hu0. lia.
      - intros x. rewrite !getStaticEntity_Resource, Hs. cbn.
        unfold getStaticEntity. rewrite lookup_ge_None_2; [done|].
        unfold d. lia. }
    assert (Hnone : resolve h root (w ++ [s]) = None).
    { by rewrite resolve_snoc, Hw. }
    split_and!.
    + split.
      * intros q a. rewrite HT, Hlen. case_decide.
        -- intros [= <-]. unfold d. lia.
        -- intros ?%Hvalid. lia.
      * lia.
      * intros q1 q2 a. rewrite !HT. repeat case_decide; subst; try done.
        -- intros [= <-] Hq2%Hvalid. unfold d in Hq2. lia.
        -- intros Hq1%Hvalid [= <-]. unfold d in Hq1. lia.
        -- apply Hinj.
      * intros q a. rewrite HT. case_decide.
        -- intros [= <-]. unfold d. lia.
        -- apply Hold.
      * intros r Hin. destruct (Hfresh r Hin) as (Hlt & Hch & HMr).
        split_and!; [done| |].
        -- intros x. rewrite Hchild. case_decide as Heq; [|done].
           destruct Heq as [-> _]. by destruct (Hunreach last Hin w).
        -- intros x. rewrite lookup_insert_ne; [done|].
           apply rid_neq. intros [-> _]. by destruct (Hunreach r Hin w).
      * intros a x c. rewrite Hlen.
        destruct (decide (a = last ∧ x = s)) as [[-> ->]|Hne]; [lia|].
        rewrite lookup_insert_ne
          by (apply rid_neq; intros [-> ->]; by apply Hne).
        intros ?%Hkeys. lia.
      * intros q a x c. rewrite HT, Hchild.
        destruct (decide (a = last ∧ x = s)) as [[-> ->]|Hne].
        -- by rewrite lookup_insert_eq.
        -- rewrite lookup_insert_ne
             by (apply rid_neq; intros [-> ->]; by apply Hne).
           case_decide.
           ++ intros [= <-] Hd%Hkeys. unfold d in Hd. lia.
           ++ apply Hsound.
      * done.
    + by rewrite HT, decide_True.
    + intros u a Hu. rewrite HT, decide_False; [done|].
      intros ->. congruence.
Qed.

(** The walk over the interior segments, when it does not raise. *)
Lemma walk_loose D T segs : ∀ h M w last h' M' last',
  loose D T h M →
  resolve h root w = Some last →
  for_each (walk_seg obj_str) segs (h, M, last) = Ok (h', M', last') →
  loose D T h' M'
  ∧ resolve h' root (w ++ segs) = Some last'
  ∧ (∀ u a, resolve h root u = Some a → resolve h' root u = Some a).
Proof.
  induction segs as [|s segs IH]; intros h M w last h' M' last' I Hw.
  - intros [= <- <- <-]. by rewrite app_nil_r.
  - rewrite for_each_cons.
    destruct (walk_seg obj_str (h, M, last) s) as [[[h1 M1] last1]|e]
      eqn:Hstep; [|done].
    cbn. intros Hrest.
    destruct (walk_seg_loose _ _ _ _ _ _ _ _ _ _ I Hw Hstep)
      as (I1 & Hw1 & Hkeep1).
    destruct (IH _ _ _ _ _ _ _ I1 Hw1 Hrest) as (I2 & Hw2 & Hkeep2).
    rewrite <- app_assoc in Hw2. split_and!; [done|done|].
    intros u a Hu. by apply Hkeep2, Hkeep1.
Qed.

Lemma steal_ok_all M e R xs : ∀ h h',
  for_each (steal_child obj_str M e R) xs h = Ok h' →
  ∀ x, x ∈ xs → is_Some (M !! rid e x).
Proof.
  induction xs as [|y xs IH]; intros h h' Hrun x Hx.
  - by apply elem_of_nil in Hx.
  - rewrite for_each_cons in Hrun.
    destruct (steal_child obj_str M e R h y) as [h1|e1] eqn:Hstep; [|done].
    cbn in Hrun. apply elem_of_cons in Hx as [->|Hx]; [|by eapply IH].
    unfold steal_child in Hstep.
    destruct (M !! _resource_id obj_str e y); [by eexists|done].
Qed.

(** One turn of the loop over [desired_tree] that does not raise: the
    resource is found at its path afterwards, and what was found at a path
    that does not go through it still is. *)
Lemma attach_loose D T full_path R h M h' M' :
  rooted full_path = true →
  loose D (R :: T) h M →
  attach obj_str root (h, M) (full_path, R) = Ok (h', M') →
  loose (R :: D) T h' M'
  ∧ resolve h' root (path_segs full_path) = Some R
  ∧ (∀ u a, resolve h root u = Some a →
            ¬ path_segs full_path `prefix_of` u →
            resolve h' root u = Some a).
Proof.
  intros Hp%rooted_path_segs I0.
  set (p := path_segs full_path) in *.
  set (w := interior_segs full_path) in *.
  set (l := last_path_seg full_path) in *.
  unfold attach. fold w l.
  destruct (for_each (walk_seg obj_str) w (h, M, root))
    as [[[h1 M1] parent]|e1] eqn:Hwalk; [|done].
  destruct (walk_loose D (R :: T) w h M [] root h1 M1 parent I0 eq_refl Hwalk)
    as (I & Hw & Hkeep1).
  simpl in Hw. cbn.
  pose proof (fun r H => coming_not_in_tree _ _ _ _ r I H) as Hout.
  pose proof (Hout R ltac:(left)) as HRout.
  loose_fields I.
  destruct (Hfresh R) as (HRold & HRch & HRkeys); [left|].
  pose proof (Hvalid _ _ Hw) as Hparent.
  assert (HpR : parent ≠ R) by (intros ->; by apply (HRout w)).
  intros Hrun.
  assert (Hfacts :
    M' = <[rid parent l := R]> M1
    ∧ List.length h' = List.length h1
    ∧ (∀ a x, a ≠ R →
         getStaticEntity h' a x
         = if decide (a = parent ∧ x = l) then Some R
           else getStaticEntity h1 a x)
    ∧ resolve h' root p = Some R
    ∧ (∀ u a, resolve h' root u = Some a →
         (u = p ∧ a = R) ∨ (u ≠ p ∧ resolve h1 root u = Some a))
    ∧ (∀ u a, resolve h1 root u = Some a → ¬ p `prefix_of` u →
         resolve h' root u = Some a)).
  { destruct (M1 !! rid parent l) as [e|] eqn:HM.
    - destruct (for_each (steal_child obj_str M1 e R) (listNames h1 e) h1)
        as [h2|e2] eqn:Hsteal; [|done].
      cbn in Hrun. injection Hrun as <- <-.
      pose proof (Hsound w parent l e Hw HM) as He.
      assert (Hpe : resolve h1 root p = Some e).
      { by rewrite Hp, resolve_snoc, Hw. }
      destruct (steal_spec obj_str M1 e R (listNames h1 e) h1)
        as (h2' & Hrun2 & Hlen2 & Hch2); [lia|by eapply steal_ok_all|].
      rewrite Hsteal in Hrun2. injection Hrun2 as <-.
      assert (Hch2' : ∀ a x, getStaticEntity h2 a x
                = if decide (a = R) then getStaticEntity h1 e x
                  else getStaticEntity h1 a x).
      { intros a x. rewrite Hch2.
        destruct (decide (a = R)) as [->|Hne].
        - destruct (getStaticEntity h1 e x) as [c|] eqn:Hx.
          + rewrite decide_True.
            2:{ split; [done|]. apply elem_of_listNames. eauto. }
            destruct (steal_ok_all _ _ _ _ _ _ Hsteal x) as [c' Hc'].
            { apply elem_of_listNames. eauto. }
            rewrite Hc'. pose proof (Hsound p e x c' Hpe Hc'). congruence.
          + rewrite decide_False; [apply HRch|].
            intros [_ [c Hc]%elem_of_listNames]. congruence.
        - rewrite decide_False; [done|]. by intros [? _]. }
      assert (HT2 : ∀ u, resolve h2 root u = resolve h1 root u).
      { apply resolve_ext. intros u b x Hb. rewrite Hch2'.
        rewrite decide_False; [done|]. intros ->. by apply (HRout u). }
      assert (HT : ∀ u, resolve (putChild h2 parent l R) root u
                = if decide (u = p) then Some R else resolve h1 root u).
      { intros u. rewrite (resolve_putChild _ root parent l R w).
        - by rewrite Hp, HT2.
        - intros q1 q2 a. rewrite !HT2. apply Hinj.
        - by rewrite HT2.
        - lia.
        - intros u0. rewrite HT2. apply HRout.
        - intros x. rewrite !Hch2'. rewrite decide_True by done.
          rewrite decide_False by done. rewrite He. cbn.
          rewrite Hch2'. rewrite decide_False; [done|].
          intros ->. by apply (HRout p). }
      split_and!.
      + done.
      + unfold putChild. by rewrite length_alter.
      + intros a x Ha. rewrite getStaticEntity_putChild by lia.
        by rewrite Hch2', (decide_False (P := a = R)).
      + by rewrite HT, decide_True.
      + intros u a. rewrite HT. case_decide; [intros [= <-]|]; auto.
      + intros u a Hu Hpre. rewrite HT, decide_False; [done|].
        by intros ->.
    - cbn in Hrun. injection Hrun as <- <-.
      assert (HT : ∀ u, resolve (putChild h1 parent l R) root u
                = if decide (u = p) then Some R
                  else if decide (p `prefix_of` u) then None
                  else resolve h1 root u).
      { intros u. rewrite Hp.
        by apply (resolve_putChild_leaf h1 parent l R w). }
      split_and!.
      + done.
      + unfold putChild. by rewrite length_alter.
      + intros a x Ha. by rewrite getStaticEntity_putChild.
      + by rewrite HT, decide_True.
      + intros u a. rewrite HT. repeat case_decide; try done.
        * intros [= <-]. auto.
        * auto.
      + intros u a Hu Hpre. rewrite HT, decide_False by (by intros ->).
        by rewrite decide_False. }
  destruct Hfacts as (-> & Hlen & Hch & Hfound & Hback & Hkeep).
  split_and!; [|done|].
  2:{ intros u a Hu Hpre. by apply Hkeep; [apply Hkeep1|]. }
  split.
  - intros q a [[_ ->]|[_ Ha]]%Hback; rewrite Hlen; [lia|by eapply Hvalid].
  - lia.
  - intros q1 q2 a [[-> ->]|[Hq1 Ha1]]%Hback [[-> Heq]|[Hq2 Ha2]]%Hback.
    + done.
    + by destruct (HRout q2).
    + subst a. by destruct (HRout q1).
    + by eapply Hinj.
  - intros q a [[_ ->]|[_ Ha]]%Hback Hlt; [left|right; by eapply Hold].
  - intros r Hin.
    destruct (Hfresh r ltac:(by right)) as (Hlt & Hchr & HMr).
    assert (Hrp : r ≠ parent).
    { intros ->. by apply (Hout parent ltac:(by right) w). }
    assert (HrR : r ≠ R).
    { intros ->. apply NoDup_app in Hhand as (_ & _ & Hnd).
      by apply NoDup_cons in Hnd as [? _]. }
    split_and!; [done| |].
    + intros x. rewrite Hch by done.
      rewrite decide_False by (by intros [? _]). apply Hchr.
    + intros x. rewrite lookup_insert_ne; [done|].
      apply rid_neq. by intros [? _].
  - intros a x c. rewrite Hlen.
    destruct (decide (a = parent ∧ x = l)) as [[-> ->]|Hne]; [done|].
    rewrite lookup_insert_ne by (apply rid_neq; intros [-> ->]; by apply Hne).
    apply Hkeys.
  - intros q a x c Hq.
    destruct (decide (a = parent ∧ x = l)) as [[-> ->]|Hne].
    + rewrite lookup_insert_eq. intros [= <-].
      rewrite Hch by done. by rewrite decide_True.
    + rewrite lookup_insert_ne by (apply rid_neq; intros [-> ->]; by apply Hne).
      apply Hback in Hq as [[_ ->]|[_ Ha]].
      * by rewrite HRkeys.
      * intros HMa.
        assert (a ≠ R) by (intros ->; by apply (HRout q)).
        rewrite Hch by done. rewrite decide_False by done.
        by eapply Hsound.
  - change (NoDup (R :: (D ++ T))). by rewrite Permutation_middle.
Qed.

(** The loop over [desired_tree], when it does not raise. *)
Lemma attach_all_loose (ms : list (string * loc)) : ∀ D h M h' M',
  Forall (fun m => rooted m.1 = true) ms →
  loose D ms.*2 h M →
  for_each (attach obj_str root) ms (h, M) = Ok (h', M') →
  (∀ u a, resolve h root u = Some a →
     (∀ m, m ∈ ms → ¬ path_segs m.1 `prefix_of` u) →
     resolve h' root u = Some a)
  ∧ (∀ before full_path R after,
       ms = before ++ (full_path, R) :: after →
       (∀ m, m ∈ after →
          ¬ path_segs m.1 `prefix_of` path_segs full_path) →
       resolve h' root (path_segs full_path) = Some R).
Proof.
  induction ms as [|[p1 R1] ms IH]; intros D h M h' M' Hroot I.
  - intros [= <- <-]. split; [done|].
    intros before full_path R after Heq. by destruct before.
  - rewrite for_each_cons.
    destruct (attach obj_str root (h, M) (p1, R1)) as [[h1 M1]|e]
      eqn:Hstep; [|done].
    cbn. intros Hrest.
    apply Forall_cons in Hroot as [Hroot1 Hroot].
    destruct (attach_loose D ms.*2 p1 R1 h M h1 M1 Hroot1 I Hstep)
      as (I1 & Hfound1 & Hkeep1).
    destruct (IH _ _ _ _ _ Hroot I1 Hrest) as (Hkeep & Hfound).
    split.
    + intros u a Hu Hnone. apply Hkeep.
      * apply Hkeep1; [done|]. apply (Hnone (p1, R1)). left.
      * intros m Hm. apply Hnone. by right.
    + intros before full_path R after Heq Hafter.
      destruct before as [|m0 before].
      * simpl in Heq. simplify_eq. by apply Hkeep.
      * simpl in Heq. simplify_eq. by eapply Hfound.
Qed.

End TreeLoose.

Section TreeKept.

Variable obj_str : loc → string.

Hypothesis rid_inj : ∀ r1 r2 s1 s2,
  _resource_id obj_str r1 s1 = _resource_id obj_str r2 s2 →
  r1 = r2 ∧ s1 = s2.

Lemma loose_init (ms : list (string * loc)) (h0 : heap) :
  NoDup ms.*2 →
  Forall (fun r => h0 !! r = Some ∅) ms.*2 →
  loose_inv obj_str (List.length h0) (List.length h0) [] ms.*2
    (h0 ++ [∅]) ∅.
Proof.
  intros Hhand Hfresh.
  assert (Hleaf :
    ∀ x, getStaticEntity (h0 ++ [∅]) (List.length h0) x = None).
  { intros x. rewrite getStaticEntity_Resource. unfold getStaticEntity.
    by rewrite lookup_ge_None_2. }
  assert (Hres : ∀ q a, resolve (h0 ++ [∅]) (List.length h0) q = Some a →
                 q = [] ∧ a = List.length h0).
  { intros [|x q] a; simpl; [by intros [= <-]|by rewrite Hleaf]. }
  split.
  - intros q a [_ ->]%Hres. rewrite length_app. simpl. lia.
  - rewrite length_app. lia.
  - by intros q1 q2 a [-> _]%Hres [-> _]%Hres.
  - intros q a [_ ->]%Hres. lia.
  - intros r Hin. rewrite Forall_forall in Hfresh.
    pose proof (Hfresh r Hin) as Hr.
    split_and!.
    + by eapply lookup_lt_Some.
    + intros x. rewrite getStaticEntity_Resource. unfold getStaticEntity.
      by rewrite Hr.
    + intros x. apply lookup_empty.
  - intros a x c. by rewrite lookup_empty.
  - intros q a x c _. by rewrite lookup_empty.
  - done.
Qed.

(** X12: when [_resource_id] gives different keys to different pairs of
    a resource and a segment ([rid_inj]), on any mount list with rooted
    paths and pairwise distinct resources without children, clean or not
    and with or without equal paths, a tree that [create_resource_tree]
    returns has a mount at its path whenever no later mount of the list
    is at that path or at a path above it (no later path is a prefix of
    its path); later mounts below it do no harm. In particular the last
    mount of the list is always found. *)
Theorem build_tree_keeps_mounts (ms : list (string * loc)) (h0 h : heap)
    root before full_path R after :
  Forall (fun m => rooted m.1 = true) ms →
  NoDup ms.*2 →
  Forall (fun r => h0 !! r = Some ∅) ms.*2 →
  build_tree obj_str ms h0 = Ok (root, h) →
  ms = before ++ (full_path, R) :: after →
  (∀ m, m ∈ after → ¬ path_segs m.1 `prefix_of` path_segs full_path) →
  resolve h root (path_segs full_path) = Some R.
Proof.
  intros Hroot Hhand Hfresh Hrun Hms Hafter.
  unfold build_tree, Resource in Hrun.
  destruct (for_each (attach obj_str (List.length h0)) ms (h0 ++ [∅], ∅))
    as [[h' M']|e] eqn:Hloop; [|done].
  cbn in Hrun. injection Hrun as <- <-.
  destruct (attach_all_loose obj_str (List.length h0) (List.length h0)
              rid_inj ms [] _ _ _ _ Hroot
              (loose_init ms h0 Hhand Hfresh) Hloop) as (_ & Hfound).
  by eapply Hfound.
Qed.

End TreeKept.

Section TreeAnyOrder.

Variable obj_str : loc → string.

Hypothesis rid_inj : ∀ r1 r2 s1 s2,
  _resource_id obj_str r1 s1 = _resource_id obj_str r2 s2 →
  r1 = r2 ∧ s1 = s2.

Implicit Types (paths seen todo : list (list string)).

Lemma tidy_spec paths p a b :
  tidy paths = true → p ∈ paths → a ∈ paths → b ∈ paths → a ≠ b →
  same_child p a b = false.
Proof.
  unfold tidy. rewrite forallb_forall. intros Htidy Hp Ha Hb Hab.
  specialize (Htidy p). rewrite <- list_elem_of_In in Htidy.
  specialize (Htidy Hp). rewrite forallb_forall in Htidy.
  specialize (Htidy a). rewrite <- list_elem_of_In in Htidy.
  specialize (Htidy Ha). rewrite forallb_forall in Htidy.
  specialize (Htidy b). rewrite <- list_elem_of_In in Htidy.
  specialize (Htidy Hb).
  rewrite bool_decide_eq_false_2 in Htidy by done.
  by apply negb_true_iff in Htidy.
Qed.

Lemma tidy_perm paths paths' :
  paths ≡ₚ paths' → tidy paths = true → tidy paths' = true.
Proof.
  intros Hperm Htidy. unfold tidy.
  apply forallb_forall. intros p Hp%list_elem_of_In.
  apply forallb_forall. intros a Ha%list_elem_of_In.
  apply forallb_forall. intros b Hb%list_elem_of_In.
  rewrite <- Hperm in Hp, Ha, Hb.
  destruct (decide (a = b)) as [->|Hab].
  - by rewrite bool_decide_eq_true_2.
  - by rewrite (tidy_spec paths p a b), orb_true_r.
Qed.

(** A tidy list of distinct paths is clean in every order. *)
Lemma tidy_clean_from todo : ∀ seen,
  NoDup (seen ++ todo) →
  (∀ p a b, p ∈ seen ++ todo → a ∈ seen ++ todo → b ∈ seen ++ todo →
            a ≠ b → same_child p a b = false) →
  clean_from seen todo = true.
Proof.
  induction todo as [|p rest IH]; intros seen Hnd Htidy; [done|].
  simpl. apply andb_true_intro. split.
  - apply forallb_forall. intros a Ha%list_elem_of_In.
    apply forallb_forall. intros b Hb%list_elem_of_In.
    apply negb_true_iff, Htidy.
    + apply elem_of_app. right. left.
    + apply elem_of_app. by left.
    + apply elem_of_app. right. by right.
    + intros ->. apply NoDup_app in Hnd as (_ & Hdisj & _).
      apply (Hdisj b Ha). by right.
  - apply IH.
    + change (NoDup (p :: (seen ++ rest))). by rewrite Permutation_middle.
    + intros q a b Hq Ha Hb. apply Htidy.
      * by rewrite <- Permutation_middle.
      * by rewrite <- Permutation_middle.
      * by rewrite <- Permutation_middle.
Qed.

Lemma tidy_clean (ms : list (string * loc)) :
  NoDup (path_segs <$> ms.*1) →
  tidy (path_segs <$> ms.*1) = true →
  clean ms = true.
Proof.
  intros Hnd Htidy. apply tidy_clean_from; [done|].
  intros p a b. rewrite app_nil_l. by apply tidy_spec.
Qed.

(** X13: when [_resource_id] gives different keys to different pairs of
    a resource and a segment ([rid_inj]), the paths of the mount list are
    rooted, pairwise distinct and tidy (no path of the list has two other
    paths of the list below one and the same child of its node) and the
    resources are pairwise distinct and without children, the order of
    the list does not matter: for every permutation of the list
    [create_resource_tree] returns a tree, every mount is found at its
    path, and the tree has the topology of the tree of the list itself. *)
Theorem build_tree_any_order (ms ms' : list (string * loc)) (h0 : heap) :
  ms ≡ₚ ms' →
  Forall (fun m => rooted m.1 = true) ms →
  NoDup (path_segs <$> ms.*1) →
  NoDup ms.*2 →
  Forall (fun r => h0 !! r = Some ∅) ms.*2 →
  tidy (path_segs <$> ms.*1) = true →
  ∃ t t',
    build_tree obj_str ms h0 = Ok t
    ∧ build_tree obj_str ms' h0 = Ok t'
    ∧ (∀ p r, (p, r) ∈ ms → resolve t'.2 t'.1 (path_segs p) = Some r)
    ∧ same_topology (List.length h0) t t'.
Proof.
  intros Hperm Hroot Hpaths Hhand Hfresh Htidy.
  destruct (build_tree_correct obj_str rid_inj ms h0)
    as (r1 & h1 & Hrun1 & Hm1 & Hd1 & Ho1);
    [done|done|done|done|by apply tidy_clean|].
  destruct (build_tree_correct obj_str rid_inj ms' h0)
    as (r2 & h2 & Hrun2 & Hm2 & Hd2 & Ho2).
  { by rewrite <- Hperm. }
  { by rewrite <- Hperm. }
  { by rewrite <- Hperm. }
  { by rewrite <- Hperm. }
  { apply tidy_clean; [by rewrite <- Hperm|].
    apply (tidy_perm (path_segs <$> ms.*1)); [by rewrite Hperm|done]. }
  exists (r1, h1), (r2, h2). split_and!; [done|done| |].
  - intros p r Hin. simpl. apply Hm2. by rewrite <- Hperm.
  - intros q. simpl. unfold same_node.
    specialize (Hd1 q). specialize (Hd2 q).
    assert (Hiff : is_Some (resolve h1 r1 q) ↔ is_Some (resolve h2 r2 q)).
    { rewrite Hd1, Hd2. by setoid_rewrite Hperm. }
    destruct (resolve h1 r1 q) as [a|] eqn:Ha,
             (resolve h2 r2 q) as [b|] eqn:Hb.
    + destruct (decide (a < List.length h0)) as [Hlt|Hge].
      * left. split; [done|].
        destruct (Ho1 q a Ha Hlt) as (p & Hin & <-).
        rewrite Hperm in Hin. apply Hm2 in Hin. congruence.
      * destruct (decide (b < List.length h0)) as [Hlt|Hge']; [|right; lia].
        destruct (Ho2 q b Hb Hlt) as (p & Hin & <-).
        rewrite <- Hperm in Hin. apply Hm1 in Hin.
        assert (a = b) by congruence. lia.
    + destruct Hiff as [Hiff _]. by destruct Hiff; [eauto|].
    + destruct Hiff as [_ Hiff]. by destruct Hiff; [eauto|].
    + done.
Qed.

End TreeAnyOrder.

Section TreeOfServer.

Variable obj_str : loc → string.
Variables CLIENT_PREFIX FEDERATION_PREFIX WEB_CLIENT_PREFIX
  CONTENT_REPO_PREFIX : string.

Hypothesis rid_inj : ∀ r1 r2 s1 s2,
  _resource_id obj_str r1 s1 = _resource_id obj_str r2 s2 →
  r1 = r2 ∧ s1 = s2.

(** A getter leaves what was built, and returns what it has kept under
    its name. *)
Lemma get_resource_for_spec (depname : string) (hs hs' : HomeServer) r :
  unattached hs →
  get_resource_for depname hs = (r, hs') →
  unattached hs'
  ∧ built hs' !! depname = Some r
  ∧ (∀ d x, built hs !! d = Some x → built hs' !! d = Some x).
Proof.
  intros [Hnew Hinj]. unfold get_resource_for, Resource.
  destruct (built hs !! depname) as [r0|] eqn:Hdep;
    intros Heq; simplify_eq.
  - done.
  - destruct hs as [objs b rr dbn dbs pool effs].
    unfold unattached, with_built, with_objects in *.
    cbn [objects built] in *.
    assert (Hold : ∀ d x, b !! d = Some x → x < List.length objs).
    { intros d x Hd. apply lookup_lt_is_Some_1. rewrite (Hnew d x Hd). eauto. }
    split_and!.
    + intros d x. destruct (decide (d = depname)) as [->|Hne].
      * rewrite lookup_insert_eq. intros [= <-].
        rewrite lookup_app_r by lia. by rewrite Nat.sub_diag.
      * rewrite lookup_insert_ne by done. intros Hd.
        rewrite lookup_app_l by eauto. eauto.
    + intros d1 d2 x.
      destruct (decide (d1 = depname)) as [->|Hne1],
               (decide (d2 = depname)) as [->|Hne2]; [done|..].
      * rewrite lookup_insert_eq, lookup_insert_ne by done.
        intros [= <-] Hd%Hold. lia.
      * rewrite lookup_insert_eq, lookup_insert_ne by done.
        intros Hd%Hold [= <-]. lia.
      * rewrite !lookup_insert_ne by done. apply Hinj.
    + apply lookup_insert_eq.
    + intros d x Hd. rewrite lookup_insert_ne; [done|].
      intros <-. congruence.
Qed.

Ltac find_mount := repeat first [ by left | right ].

Ltac other_getter Hinj :=
  match goal with
  | Ha : built _ !! ?d1 = Some ?x, Hb : built _ !! ?d2 = Some ?x |- _ =>
      discriminate (Hinj d1 d2 x Ha Hb)
  end.

Ltac apart Hinj :=
  repeat (apply NoDup_cons; split;
          [ let Hin := fresh "Hin" in
            intros Hin;
            repeat (apply elem_of_cons in Hin as [?|Hin];
                    [subst; other_getter Hinj|]);
            by apply elem_of_nil in Hin
          | ]);
  apply NoDup_nil_2.

(** X14: [create_resource_tree] on a home server whose resources, as
    far as the getters have built them, have no children and are distinct
    objects. When [_resource_id] gives different keys to different pairs
    of a resource and a segment ([rid_inj]) and the prefixes that it
    mounts are rooted, pairwise distinct and tidy (no prefix has two
    other prefixes below one and the same child of its node), it returns
    a root, keeps it as [root_resource], and the resource of each getter
    is found at its prefix: those of the client, of the federation and of
    the content repository always, that of the web client when
    [web_client] is set. *)
Theorem create_resource_tree_mounts_all (web_client redirect : bool) hs :
  unattached hs →
  Forall (fun p => rooted p = true)
    (desired_prefixes CLIENT_PREFIX FEDERATION_PREFIX WEB_CLIENT_PREFIX
       CONTENT_REPO_PREFIX web_client) →
  NoDup (path_segs <$>
           desired_prefixes CLIENT_PREFIX FEDERATION_PREFIX WEB_CLIENT_PREFIX
             CONTENT_REPO_PREFIX web_client) →
  tidy (path_segs <$>
          desired_prefixes CLIENT_PREFIX FEDERATION_PREFIX WEB_CLIENT_PREFIX
            CONTENT_REPO_PREFIX web_client) = true →
  ∃ root hs',
    create_resource_tree obj_str CLIENT_PREFIX FEDERATION_PREFIX
      WEB_CLIENT_PREFIX CONTENT_REPO_PREFIX web_client redirect hs
    = (Ok root, hs')
    ∧ root_resource hs' = Some root
    ∧ found_at hs' root "resource_for_client" CLIENT_PREFIX
    ∧ found_at hs' root "resource_for_federation" FEDERATION_PREFIX
    ∧ found_at hs' root "resource_for_content_repo" CONTENT_REPO_PREFIX
    ∧ (web_client = true →
       found_at hs' root "resource_for_web_client" WEB_CLIENT_PREFIX).
Proof.
  unfold desired_prefixes. intros Hun Hroot Hnd Htidy.
  unfold create_resource_tree.
  destruct (get_resource_for "resource_for_client" hs)
    as [client hs1] eqn:Hget1.
  destruct (get_resource_for_spec _ _ _ _ Hun Hget1) as (Hun1 & Hc1 & Hk1).
  destruct (get_resource_for "resource_for_federation" hs1)
    as [federation hs2] eqn:Hget2.
  destruct (get_resource_for_spec _ _ _ _ Hun1 Hget2) as (Hun2 & Hf2 & Hk2).
  destruct (get_resource_for "resource_for_content_repo" hs2)
    as [content_repo hs3] eqn:Hget3.
  destruct (get_resource_for_spec _ _ _ _ Hun2 Hget3) as (Hun3 & Hr3 & Hk3).
  apply Hk2, Hk3 in Hc1. apply Hk3 in Hf2.
  destruct web_client.
  - destruct (get_resource_for "resource_for_web_client" hs3)
      as [web hs4] eqn:Hget4.
    destruct (get_resource_for_spec _ _ _ _ Hun3 Hget4)
      as ([Hnew Hinj] & Hw4 & Hk4).
    apply Hk4 in Hc1, Hf2, Hr3.
    match goal with
    | |- context [build_tree _ ?ms ?h0] =>
        destruct (build_tree_correct obj_str rid_inj ms h0)
          as (root & h & Hrun & Hm & _)
    end.
    + apply (Forall_fmap fst (fun p => rooted p = true)). exact Hroot.
    + exact Hnd.
    + cbn [fmap list_fmap snd app]. apart Hinj.
    + cbn [fmap list_fmap snd app]. repeat constructor; eauto.
    + apply tidy_clean; [exact Hnd|exact Htidy].
    + cbn [app] in Hm. rewrite Hrun. exists root. eexists. split; [reflexivity|].
      unfold found_at, with_root, with_objects.
      cbn [objects built root_resource].
      split_and!; [done|..]; try intros _;
        (eexists; split; [eassumption|apply Hm; find_mount]).
  - destruct Hun3 as [Hnew Hinj].
    match goal with
    | |- context [build_tree _ ?ms ?h0] =>
        destruct (build_tree_correct obj_str rid_inj ms h0)
          as (root & h & Hrun & Hm & _)
    end.
    + apply (Forall_fmap fst (fun p => rooted p = true)). exact Hroot.
    + exact Hnd.
    + cbn [fmap list_fmap snd app]. apart Hinj.
    + cbn [fmap list_fmap snd app]. repeat constructor; eauto.
    + apply tidy_clean; [exact Hnd|exact Htidy].
    + cbn [app] in Hm. rewrite Hrun. exists root. eexists. split; [reflexivity|].
      unfold found_at, with_root, with_objects.
      cbn [objects built root_resource].
      split_and!; [done|..]; try discriminate;
        (eexists; split; [eassumption|apply Hm; find_mount]).
Qed.

End TreeOfServer.

(** ** Instances on sample stores and sample mount lists *)

Section MoreSamples.

Lemma has_dash_app (a b : string) :
  has_dash (a +:+ b) = has_dash a || has_dash b.
Proof.
  induction a as [|c a IH]; [done|].
  unfold String.append; fold String.append. simpl.
  by rewrite IH, orb_assoc.
Qed.

Lemma has_dash_tally n : has_dash (tally n) = false.
Proof. induction n as [|n IH]; [done|]. simpl. by rewrite IH. Qed.

Lemma has_dash_instance_str r : has_dash (instance_str r) = false.
Proof.
  unfold instance_str. by rewrite !has_dash_app, has_dash_tally.
Qed.

Lemma tally_close_inj n1 : ∀ n2,
  tally n1 +:+ ">" = tally n2 +:+ ">" → n1 = n2.
Proof.
  induction n1 as [|n1 IH]; intros [|n2] Heq;
    unfold String.append in Heq; fold String.append in Heq; simpl in Heq.
  - done.
  - discriminate.
  - discriminate.
  - injection Heq as Heq. by rewrite (IH _ Heq).
Qed.

Lemma instance_str_inj r1 r2 : instance_str r1 = instance_str r2 → r1 = r2.
Proof.
  unfold instance_str. intros Heq%(inj (String.append _)).
  by apply tally_close_inj.
Qed.

(** X1 after the first start on a store without a version. *)
Lemma build_db_pool_rerun_witness :
  let s' := (build_db_pool id accept_all "hs.db" (store_with None)).2 in
  build_db_pool id accept_all "hs.db" s'
  = (Ok (the_pool "hs.db"),
     mkStore (user_version_row s')
       (calls s' ++ [PragmaUserVersion; CursorClose])).
Proof.
  intros s'.
  apply (build_db_pool_rerun id accept_all "hs.db" (store_with None)).
  reflexivity.
Defined.

(** X2 with a sqlite that refuses the script [users], the third of
    [SCHEMAS], on a store without a version. *)
Lemma build_db_pool_io_refused_script_witness :
  ∃ s',
    build_db_pool_io id (only_scripts refuse_users "syntax error") "hs.db"
      (store_with None)
    = (Thrown
         match only_scripts refuse_users "syntax error" (calls s')
                 ExitRollback with
         | None => Failed (Send (ExecuteScript (id "users"))) "syntax error"
         | Some err' => Failed ExitRollback err'
         end, s')
    ∧ new_calls (store_with None) s'
      = PragmaUserVersion :: schema_calls id ["transactions"; "pdu"]
        ++ [ExecuteScript (id "users")]
    ∧ stamps_of (new_calls (store_with None) s') = []
    ∧ user_version_row s' = user_version_row (store_with None).
Proof.
  apply (build_db_pool_io_refused_script id
           (only_scripts refuse_users "syntax error") "hs.db"
           (store_with None) ["transactions"; "pdu"] "users"
           ["profiles"; "presence"; "im"; "room_aliases"] "syntax error");
    reflexivity.
Defined.

(** X3 on a store without a version when nothing raises. *)
Lemma build_db_pool_io_outcomes_witness :
  let run := build_db_pool_io id nothing_raises "hs.db" (store_with None) in
  run.1 = Returned (the_pool "hs.db")
  ∧ stale (user_version_row (store_with None)) = false
  ∧ quiet nothing_raises
      (requests id "hs.db" (user_version_row (store_with None)))
      (calls (store_with None)) = true
  ∧ scripts_of (new_calls (store_with None) run.2) = SCHEMAS.
Proof.
  intros run.
  destruct (build_db_pool_io_outcomes id nothing_raises "hs.db"
              (store_with None) (Returned (the_pool "hs.db")) run.2)
    as (Hreturns & _ & _ & _ & Hcalls & _).
  { vm_compute. reflexivity. }
  destruct Hreturns as [Hquiet _].
  destruct (Hquiet (ex_intro _ (the_pool "hs.db") eq_refl)) as [Hst Hq].
  split_and!; [reflexivity|exact Hst|exact Hq|].
  rewrite Hcalls. reflexivity.
Defined.

(** X15 on a store without a version when the stamp raises: every
    script has been executed and committed, and the version row is what
    it was. *)
Lemma build_db_pool_io_stamps_last_witness :
  let run := build_db_pool_io id stamp_raises "hs.db" (store_with None) in
  run.1 = Thrown (Failed (Send (SetUserVersion SCHEMA_VERSION))
                    "database is locked")
  ∧ ((stamps_of (new_calls (store_with None) run.2) = []
      ∧ user_version_row run.2 = user_version_row (store_with None))
     ∨ (row_and_row0 (user_version_row (store_with None)) = false
        ∧ ∃ tail,
            new_calls (store_with None) run.2
            = PragmaUserVersion :: schema_calls id SCHEMAS
              ++ SetUserVersion SCHEMA_VERSION :: tail
            ∧ (tail = [] ∨ tail = [CursorClose])
            ∧ match stamp_raises
                      (calls (store_with None) ++ PragmaUserVersion
                         :: schema_calls id SCHEMAS)
                      (Send (SetUserVersion SCHEMA_VERSION)) with
              | None => user_version_row run.2 = Some SCHEMA_VERSION
              | Some _ =>
                  tail = []
                  ∧ user_version_row run.2
                    = user_version_row (store_with None)
              end)).
Proof.
  intros run. split; [reflexivity|].
  apply (build_db_pool_io_stamps_last id stamp_raises "hs.db"
           (store_with None) run.1 run.2).
  apply surjective_pairing.
Defined.

(** X7 on the list of [/a/b], [/a] and [/a/b/c]. *)
Lemma build_tree_raises_KeyError_witness :
  ∃ r seg,
    KeyError (_resource_id instance_str 1 "b")
    = KeyError (_resource_id instance_str r seg).
Proof.
  apply (build_tree_raises_KeyError instance_str
           [("/a/b", 0); ("/a", 1); ("/a/b/c", 2)] three_resources).
  vm_compute. reflexivity.
Defined.

(** X8 on the list of [/a/b] and [/a], with a third resource that is not
    mounted. *)
Lemma build_tree_frame_witness :
  let t :=
    tree_of (build_tree instance_str [("/a/b", 0); ("/a", 1)]
               three_resources) in
  t.1 = List.length three_resources
  ∧ List.length three_resources < List.length t.2
  ∧ (∀ r x, is_Some (getStaticEntity three_resources r x) →
            is_Some (getStaticEntity t.2 r x))
  ∧ (∀ r, r < List.length three_resources →
          r ∉ [("/a/b", 0); ("/a", 1)].*2 →
          t.2 !! r = three_resources !! r).
Proof.
  intros t.
  apply (build_tree_frame instance_str [("/a/b", 0); ("/a", 1)]
           three_resources t.2 t.1).
  vm_compute. reflexivity.
Defined.

(** X9 on the paths [static/js] and [favicon.ico]. *)
Lemma attach_ignores_before_slash_witness :
  interior_segs ("static" +:+ "/" +:+ "js") = interior_segs ("/" +:+ "js")
  ∧ last_path_seg ("static" +:+ "/" +:+ "js") = last_path_seg ("/" +:+ "js")
  ∧ (∀ root st R,
       attach instance_str root st ("static" +:+ "/" +:+ "js", R)
       = attach instance_str root st ("/" +:+ "js", R))
  ∧ interior_segs "favicon.ico" = []
  ∧ last_path_seg "favicon.ico" = "favicon.ico".
Proof.
  apply (attach_ignores_before_slash instance_str "static" "js"
           "favicon.ico").
  - reflexivity.
  - reflexivity.
Defined.

(** X10 for the objects printed by [instance_str]. *)
Lemma resource_id_inj_witness :
  (∀ r, has_dash (instance_str r) = false)
  ∧ (∀ r r', instance_str r = instance_str r' → r = r')
  ∧ (_resource_id instance_str 1 "b" = _resource_id instance_str 1 "b" →
     1 = 1 ∧ "b" = "b").
Proof.
  split_and!.
  - apply has_dash_instance_str.
  - apply instance_str_inj.
  - apply (resource_id_inj instance_str 1 1 "b" "b").
    + apply has_dash_instance_str.
    + apply instance_str_inj.
Defined.

(** X11 on the list of [/a/b], [/a] and [/c]. *)
Lemma build_tree_finds_every_mount_witness :
  ∃ root h,
    build_tree instance_str [("/a/b", 0); ("/a", 1); ("/c", 2)]
      three_resources = Ok (root, h)
    ∧ (∀ p r, (p, r) ∈ [("/a/b", 0); ("/a", 1); ("/c", 2)] →
              resolve h root (path_segs p) = Some r)
    ∧ (∀ q, is_Some (resolve h root q)
            ↔ q = [] ∨ ∃ m, m ∈ [("/a/b", 0); ("/a", 1); ("/c", 2)]
                            ∧ q `prefix_of` path_segs m.1)
    ∧ (∀ q a, resolve h root q = Some a →
              a < List.length three_resources →
              ∃ p, (p, a) ∈ [("/a/b", 0); ("/a", 1); ("/c", 2)]
                   ∧ path_segs p = q).
Proof.
  apply (build_tree_finds_every_mount instance_str instance_str_rid_inj
           [("/a/b", 0); ("/a", 1); ("/c", 2)] three_resources).
  - repeat constructor.
  - apply (bool_decide_unpack _). vm_compute. exact I.
  - apply (bool_decide_unpack _). vm_compute. exact I.
  - repeat constructor.
  - reflexivity.
Defined.

(** X12 on a list that is not clean: [/a] is kept after [/a/b/c] and
    before [/a/b]. *)
Lemma build_tree_keeps_mounts_witness :
  let t :=
    tree_of (build_tree instance_str
               [("/a/b/c", 0); ("/a", 1); ("/a/b", 2)] three_resources) in
  clean [("/a/b/c", 0); ("/a", 1); ("/a/b", 2)] = false
  ∧ resolve t.2 t.1 (path_segs "/a") = Some 1.
Proof.
  intros t. split; [reflexivity|].
  apply (build_tree_keeps_mounts instance_str instance_str_rid_inj
           [("/a/b/c", 0); ("/a", 1); ("/a/b", 2)] three_resources
           t.2 t.1 [("/a/b/c", 0)] "/a" 1 [("/a/b", 2)]).
  - repeat constructor.
  - apply (bool_decide_unpack _). vm_compute. exact I.
  - repeat constructor.
  - vm_compute. reflexivity.
  - reflexivity.
  - apply Forall_forall. apply (bool_decide_unpack _). vm_compute. exact I.
Defined.

(** X13 on the four prefixes of the server, in the order of
    [create_resource_tree] and with the web client first. *)
Lemma build_tree_any_order_witness :
  ∃ t t',
    build_tree instance_str
      [("/matrix/client/api/v1", 0); ("/matrix/federation/v1", 1);
       ("/matrix/content", 2); ("/matrix/client", 3)] four_resources
    = Ok t
    ∧ build_tree instance_str
        [("/matrix/client", 3); ("/matrix/client/api/v1", 0);
         ("/matrix/federation/v1", 1); ("/matrix/content", 2)]
        four_resources
      = Ok t'
    ∧ (∀ p r,
         (p, r) ∈ [("/matrix/client/api/v1", 0); ("/matrix/federation/v1", 1);
                   ("/matrix/content", 2); ("/matrix/client", 3)] →
         resolve t'.2 t'.1 (path_segs p) = Some r)
    ∧ same_topology (List.length four_resources) t t'.
Proof.
  apply (build_tree_any_order instance_str instance_str_rid_inj
           [("/matrix/client/api/v1", 0); ("/matrix/federation/v1", 1);
            ("/matrix/content", 2); ("/matrix/client", 3)]
           [("/matrix/client", 3); ("/matrix/client/api/v1", 0);
            ("/matrix/federation/v1", 1); ("/matrix/content", 2)]
           four_resources).
  - symmetry.
    apply (Permutation_cons_app
             [("/matrix/client/api/v1", 0); ("/matrix/federation/v1", 1);
              ("/matrix/content", 2)] []).
    reflexivity.
  - repeat constructor.
  - apply (bool_decide_unpack _). vm_compute. exact I.
  - apply (bool_decide_unpack _). vm_compute. exact I.
  - repeat constructor.
  - reflexivity.
Defined.

(** X14 on a new home server, with the web client. *)
Lemma create_resource_tree_mounts_all_witness :
  ∃ root hs',
    create_resource_tree instance_str "/matrix/client/api/v1"
      "/matrix/federation/v1" "/matrix/client" "/matrix/content" true true
      (new_home_server (store_with None))
    = (Ok root, hs')
    ∧ root_resource hs' = Some root
    ∧ found_at hs' root "resource_for_client" "/matrix/client/api/v1"
    ∧ found_at hs' root "resource_for_federation" "/matrix/federation/v1"
    ∧ found_at hs' root "resource_for_content_repo" "/matrix/content"
    ∧ (true = true →
       found_at hs' root "resource_for_web_client" "/matrix/client").
Proof.
  apply (create_resource_tree_mounts_all instance_str
           "/matrix/client/api/v1" "/matrix/federation/v1" "/matrix/client"
           "/matrix/content" instance_str_rid_inj true true
           (new_home_server (store_with None))).
  - split; intros ? ?; simpl; rewrite lookup_empty; discriminate.
  - repeat constructor.
  - apply (bool_decide_unpack _). vm_compute. exact I.
  - reflexivity.
Defined.

End MoreSamples.
